(** * A noisy-channel abbreviation expander: n-gram language model,
      missing-letter model and best-first search.

    Shallow embedding of [nlp/abbreviation_spellchecker_Frodo.ipynb]
    (classes [LanguageNgramModel] and [MissingLetterModel], functions
    [generate_options] and [noisy_channel]), and properties of it.

    Conventions of the embedding.
    - Python [str] is [string]; a single symbol (a one-character [str]) is
      [ascii], so symbols are restricted to 8-bit characters.
    - Python [float] is modelled by the real numbers [R]: rounding, overflow
      and underflow are ignored. [np.log] is [ln], [np.exp] is [exp]. Where
      numpy would produce [inf] or [nan] (logarithm of a non-positive
      number, division of a [pandas.Series] by a zero sum), and where
      Python's own float division raises [ZeroDivisionError] (a zero
      [total_freq] in the missing-letter model), the real functions return
      an unrelated finite number. A statement that depends on such a value
      says where it holds: for models fitted with [smoothing > 0] and
      [0 < smoothing_missed < smoothing_total] every divisor and every
      argument of a logarithm is strictly positive.
    - [defaultdict(lambda: Counter())] is a [gmap string (gmap ascii nat)]
      whose lookup inserts an empty [Counter] for an absent key, as the
      Python object does. A model is therefore passed through every method
      that reads it and returned with the table it ends up with.
    - [pandas.Series] is the list of its labels with their values;
      [heapq] is modelled by what [heappush] and [heappop] do to the items
      of the heap.
    - A raised exception is a [Raise] result.

    The file has three parts: the embedding, the notions the statements are
    written with, and the properties, C1 to C10. *)

From Stdlib Require Import Reals Lra Ascii String.
From stdpp Require Import gmap strings list fin_maps sorting.

Set Warnings "-register-all".

(** ** Exceptions *)

Inductive exn : Type := KeyError | IndexError.

Inductive result (A : Type) : Type :=
| Ok (a : A)
| Raise (e : exn).
Arguments Ok {A} a.
Arguments Raise {A} e.

(** ** Floating point comparisons, on reals *)

Definition Rltb (x y : R) : bool := if Rlt_dec x y then true else false.
Definition Rleb (x y : R) : bool := if Rle_dec x y then true else false.

(** ** Strings and slices *)

(** [s[n:]] *)
Fixpoint drop_str (n : nat) (s : string) : string :=
  match n, s with
  | O, _ => s
  | S n', EmptyString => EmptyString
  | S n', String _ s' => drop_str n' s'
  end.

(** [s[:n]] *)
Fixpoint take_str (n : nat) (s : string) : string :=
  match n, s with
  | O, _ => EmptyString
  | S n', EmptyString => EmptyString
  | S n', String c s' => String c (take_str n' s')
  end.

(** [s[i:j]] for [0 <= i], [0 <= j] *)
Definition slice (i j : nat) (s : string) : string :=
  take_str (j - i) (drop_str i s).

(** [s[-n:]] for [n > 0] *)
Definition last_chars (n : nat) (s : string) : string :=
  drop_str (String.length s - n) s.

(** [s[1:-1]] *)
Definition strip_ends (s : string) : string :=
  take_str (String.length s - 2) (drop_str 1 s).

(** [s + c] for a one-character string [c] *)
Definition snoc_str (s : string) (c : ascii) : string :=
  (s ++ String c EmptyString)%string.

(** the characters of a string, in order: what [for token in s] visits *)
Fixpoint chars (s : string) : list ascii :=
  match s with
  | EmptyString => []
  | String c s' => c :: chars s'
  end.

(** ** Counters, tables and series *)

(** [collections.Counter] keyed by symbols. Reading an absent key gives 0
    and does not insert it. *)
Abbreviation Counter := (gmap ascii nat).

Definition counter_get (c : Counter) (token : ascii) : nat :=
  default 0%nat (c !! token).

(** [defaultdict(lambda: Counter())]. Reading an absent key inserts a fresh
    empty [Counter] and returns it. *)
Abbreviation Table := (gmap string Counter).

Definition table_get (tb : Table) (key : string) : Counter * Table :=
  match tb !! key with
  | Some c => (c, tb)
  | None => (∅, <[key := ∅]> tb)
  end.

(** [tb[key][token] += 1] *)
Definition table_incr (tb : Table) (key : string) (token : ascii) : Table :=
  let (c, tb') := table_get tb key in
  <[key := <[token := S (counter_get c token)]> c]> tb'.

(** [counter[token] += 1] *)
Definition counter_incr (c : Counter) (token : ascii) : Counter :=
  <[token := S (counter_get c token)]> c.

(** what a table holds for a context and a symbol, read without touching it *)
Definition table_count (tb : Table) (key : string) (token : ascii) : nat :=
  match tb !! key with
  | Some c => counter_get c token
  | None => 0%nat
  end.

(** [pandas.Series] indexed by symbols: labels in index order with values *)
Definition Series : Type := list (ascii * R).

(** [series[token]]; a label that is not in the index raises [KeyError] *)
Fixpoint series_get (s : Series) (token : ascii) : result R :=
  match s with
  | [] => Raise KeyError
  | (t, v) :: s' => if decide (t = token) then Ok v else series_get s' token
  end.

(** [series.sum()] *)
Definition series_sum (s : Series) : R :=
  foldr (fun tv acc => (tv.2 + acc)%R) 0%R s.

(** [series * k] *)
Definition series_scale (s : Series) (k : R) : Series :=
  map (fun tv => (tv.1, (tv.2 * k)%R)) s.

(** [series / k] *)
Definition series_div (s : Series) (k : R) : Series :=
  map (fun tv => (tv.1, (tv.2 / k)%R)) s.

(** [freq += other]: pandas aligns [other] on the labels of [freq] and keeps
    the index of [freq]. A label of [freq] missing from [other] would give
    NaN; for fitted models the index of the child is a superset of the
    parent's (lemma [fit_child_vocabulary]), so the default below is never
    used there. *)
Definition series_iadd (freq other : Series) : Series :=
  map (fun tv => (tv.1,
         match series_get other tv.1 with
         | Ok w => (tv.2 + w)%R
         | Raise _ => tv.2
         end)) freq.

(** [sorted(list(set_of_symbols))]: ascending code points *)
Definition ascii_le (a b : ascii) : Prop := (nat_of_ascii a <= nat_of_ascii b)%nat.
#[global] Instance ascii_le_dec a b : Decision (ascii_le a b) :=
  decide (nat_of_ascii a <= nat_of_ascii b)%nat.

Definition sorted_symbols (s : gset ascii) : list ascii :=
  merge_sort ascii_le (elements s).

(** ** The n-gram language model *)

Module LanguageNgramModel.

(** The object after [fit]: the three constructor arguments and the fitted
    attributes. [child_] is set by [fit] exactly when [recursive > 0] and
    [order > 0]. *)
Inductive t : Type := Build {
  order : nat;
  smoothing : R;
  recursive : R;
  counter_ : Table;
  unigrams_ : Counter;
  vocabulary_ : list ascii;
  child_ : option t
}.

(** the loop of [fit]: [for i, token in enumerate(corpus[order:])] *)
Fixpoint fit_loop (corpus : string) (order : nat) (i : nat) (tokens : list ascii)
    (counter : Table) (unigrams : Counter) (vocab : gset ascii)
    : Table * Counter * gset ascii :=
  match tokens with
  | [] => (counter, unigrams, vocab)
  | token :: rest =>
      let context := slice i (i + order) corpus in
      fit_loop corpus order (S i) rest
        (table_incr counter context token)
        (counter_incr unigrams token)
        ({[ token ]} ∪ vocab)
  end.

(** [LanguageNgramModel(order, smoothing, recursive).fit(corpus)] *)
Fixpoint fit (order : nat) (smoothing recursive : R) (corpus : string) : t :=
  let '(counter, unigrams, vocab) :=
    fit_loop corpus order 0 (chars (drop_str order corpus)) ∅ ∅ ∅ in
  Build order smoothing recursive counter unigrams (sorted_symbols vocab)
    match order with
    | O => None
    | S order' =>
        if Rltb 0 recursive then Some (fit order' smoothing recursive corpus)
        else None
    end.

(** the context a model of this order looks at *)
Definition local_context (order : nat) (context : string) : string :=
  match order with
  | O => EmptyString
  | S _ => last_chars order context
  end.

(** [get_counts]: the smoothed counts, and the model with the table as the
    lookup leaves it. [self.child_] is read only under
    [recursive > 0 and order > 0], where [fit] has set it (lemma
    [lang_fit_fields]); a model without the attribute is only met with the
    condition false. *)
Fixpoint get_counts (self : t) (context : string) : Series * t :=
  let local := local_context (order self) context in
  let (freq_dict, counter') := table_get (counter_ self) local in
  let freq : Series :=
    map (fun token => (token, (INR (counter_get freq_dict token) + smoothing self)%R))
        (vocabulary_ self) in
  match child_ self with
  | Some child =>
      if Rltb 0 (recursive self) && negb (Nat.eqb (order self) 0) then
        let (counts, child') := get_counts child context in
        let child_freq := series_scale counts (recursive self) in
        (series_iadd freq child_freq,
         Build (order self) (smoothing self) (recursive self) counter'
               (unigrams_ self) (vocabulary_ self) (Some child'))
      else
        (freq,
         Build (order self) (smoothing self) (recursive self) counter'
               (unigrams_ self) (vocabulary_ self) (Some child))
  | None =>
      (freq,
       Build (order self) (smoothing self) (recursive self) counter'
             (unigrams_ self) (vocabulary_ self) None)
  end.

(** [predict_proba]. The quotient is that of the reals: where the sum of
    the counts is zero pandas gives [nan] entries, which this function does
    not; it is used where the sum is positive. *)
Definition predict_proba (self : t) (context : string) : Series * t :=
  let (counts, self') := get_counts self context in
  (series_div counts (series_sum counts), self').

(** the loop of [single_log_proba] *)
Fixpoint single_log_proba_loop (self : t) (context : string)
    (tokens : list ascii) (res : R) : result R * t :=
  match tokens with
  | [] => (Ok res, self)
  | token :: rest =>
      let (proba, self') := predict_proba self context in
      match series_get proba token with
      | Ok p => single_log_proba_loop self' (snoc_str context token) rest (res + ln p)%R
      | Raise e => (Raise e, self')
      end
  end.

(** [single_log_proba] *)
Definition single_log_proba (self : t) (context continuation : string)
    : result R * t :=
  single_log_proba_loop self context (chars continuation) 0%R.

(** [single_proba] *)
Definition single_proba (self : t) (context continuation : string)
    : result R * t :=
  match single_log_proba self context continuation with
  | (Ok v, self') => (Ok (exp v), self')
  | (Raise e, self') => (Raise e, self')
  end.

End LanguageNgramModel.

(** ** The missing-letter model *)

Module MissingLetterModel.

Record t : Type := Build {
  order : nat;
  smoothing_missed : R;
  smoothing_total : R;
  missed_counter_ : Table;
  total_counter_ : Table
}.

(** the placeholder that marks a deleted letter *)
Definition placeholder : ascii := "-"%char.

(** the inner loop of [fit], over [zip(original[order:], observed[order:])] *)
Fixpoint fit_pair (original : string) (order : nat) (i : nat)
    (letters : list (ascii * ascii)) (missed total : Table) : Table * Table :=
  match letters with
  | [] => (missed, total)
  | (original_letter, observed_letter) :: rest =>
      let context := slice i (i + order) original in
      let missed' :=
        if decide (observed_letter = placeholder)
        then table_incr missed context original_letter
        else missed in
      fit_pair original order (S i) rest missed'
               (table_incr total context original_letter)
  end.

(** the outer loop of [fit] *)
Fixpoint fit_loop (order : nat) (sentence_pairs : list (string * string))
    (missed total : Table) : Table * Table :=
  match sentence_pairs with
  | [] => (missed, total)
  | (original, observed) :: rest =>
      let (missed', total') :=
        fit_pair original order 0
          (zip (chars (drop_str order original)) (chars (drop_str order observed)))
          missed total in
      fit_loop order rest missed' total'
  end.

(** [MissingLetterModel(order, smoothing_missed, smoothing_total).fit(pairs)] *)
Definition fit (order : nat) (smoothing_missed smoothing_total : R)
    (sentence_pairs : list (string * string)) : t :=
  let (missed, total) := fit_loop order sentence_pairs ∅ ∅ in
  Build order smoothing_missed smoothing_total missed total.

Definition local_context (order : nat) (context : string) : string :=
  match order with
  | O => EmptyString
  | S _ => last_chars order context
  end.

(** [predict_proba]: the estimated probability that [last_letter] after
    [context] is missed. The quotient is that of the reals: where
    [total_freq] is zero the Python division raises [ZeroDivisionError],
    which this function does not; it is used where [total_freq] is not
    zero. *)
Definition predict_proba (self : t) (context : string) (last_letter : ascii)
    : R * t :=
  let local := local_context (order self) context in
  let (missed_dict, missed') := table_get (missed_counter_ self) local in
  let missed_freq := (INR (counter_get missed_dict last_letter) + smoothing_missed self)%R in
  let (total_dict, total') := table_get (total_counter_ self) local in
  let total_freq := (INR (counter_get total_dict last_letter) + smoothing_total self)%R in
  ((missed_freq / total_freq)%R,
   Build (order self) (smoothing_missed self) (smoothing_total self) missed' total').

(** the loop of [single_log_proba], over [zip(continuation, actual)] *)
Fixpoint single_log_proba_loop (self : t) (context : string)
    (tokens : list (ascii * ascii)) (res : R) : R * t :=
  match tokens with
  | [] => (res, self)
  | (orig_token, act_token) :: rest =>
      let (pp, self') := predict_proba self context orig_token in
      let pp' := if decide (act_token = placeholder) then (1 - pp)%R else pp in
      single_log_proba_loop self' (snoc_str context orig_token) rest (res + ln pp')%R
  end.

(** Python truth value of an optional string: [None] and [''] are false *)
Definition truthy (s : option string) : bool :=
  match s with
  | None => false
  | Some EmptyString => false
  | Some _ => true
  end.

(** [single_log_proba(context, continuation, actual=None)] *)
Definition single_log_proba (self : t) (context continuation : string)
    (actual : option string) : R * t :=
  let actual' :=
    if truthy actual then default continuation actual else continuation in
  single_log_proba_loop self context (zip (chars continuation) (chars actual')) 0%R.

(** [single_proba] *)
Definition single_proba (self : t) (context continuation : string)
    (actual : option string) : R * t :=
  let (v, self') := single_log_proba self context continuation actual in
  (exp v, self').

End MissingLetterModel.

(** ** The search *)

(** Both models are objects shared by every call of the search; the store
    holds their current state. *)
Definition Store : Type := LanguageNgramModel.t * MissingLetterModel.t.

(** Computations that read and update the store and may raise. *)
Definition M (A : Type) : Type := Store -> result A * Store.

Definition ret {A} (a : A) : M A := fun st => (Ok a, st).
Definition raise {A} (e : exn) : M A := fun st => (Raise e, st).
Definition bind {A B} (c : M A) (k : A -> M B) : M B :=
  fun st =>
    match c st with
    | (Ok a, st') => k a st'
    | (Raise e, st') => (Raise e, st')
    end.

Notation "x <- c ;; k" := (bind c (fun x => k))
  (at level 100, c at next level, right associativity).

(** a method of the language model that may raise *)
Definition with_lang {A} (f : LanguageNgramModel.t -> result A * LanguageNgramModel.t)
    : M A :=
  fun st => let (r, lang') := f st.1 in (r, (lang', st.2)).

(** a method of the missing-letter model *)
Definition with_missed {A} (f : MissingLetterModel.t -> A * MissingLetterModel.t)
    : M A :=
  fun st => let (r, missed') := f st.2 in (Ok r, (st.1, missed')).

(** A node of the search tree, the tuple
    [(proba, prefix, suffix, letter, proba_suffix)]. [letter] is a string
    for generated nodes and [None] in the seeded candidate. *)
Record hypothesis : Type := Hyp {
  h_proba : R;
  h_prefix : string;
  h_suffix : string;
  h_letter : option string;
  h_proba_suffix : R
}.

Definition Reqb (x y : R) : bool := if Req_dec_T x y then true else false.

Definition str_ltb (a b : string) : bool :=
  match String.compare a b with Lt => true | _ => false end.
Definition str_eqb (a b : string) : bool :=
  match String.compare a b with Eq => true | _ => false end.

(** the order on the [letter] field; a [None] is never compared, the seeded
    candidate is not pushed on the heap *)
Definition letter_ltb (a b : option string) : bool :=
  match a, b with
  | Some x, Some y => str_ltb x y
  | None, Some _ => true
  | _, _ => false
  end.
Definition letter_eqb (a b : option string) : bool :=
  match a, b with
  | Some x, Some y => str_eqb x y
  | None, None => true
  | _, _ => false
  end.

(** Python's order on the tuples: lexicographic *)
Definition hyp_ltb (a b : hypothesis) : bool :=
  Rltb (h_proba a) (h_proba b) ||
  Reqb (h_proba a) (h_proba b) &&
  (str_ltb (h_prefix a) (h_prefix b) ||
   str_eqb (h_prefix a) (h_prefix b) &&
   (str_ltb (h_suffix a) (h_suffix b) ||
    str_eqb (h_suffix a) (h_suffix b) &&
    (letter_ltb (h_letter a) (h_letter b) ||
     letter_eqb (h_letter a) (h_letter b) &&
     Rltb (h_proba_suffix a) (h_proba_suffix b)))).

(** [heapq]: the heap is modelled by the list of its items; [heappop]
    removes and returns a smallest item, [heappush] adds one. The position
    of the items inside the array of [heapq] is not observable through these
    two operations. *)
Fixpoint extract_min (x : hypothesis) (h : list hypothesis)
    : hypothesis * list hypothesis :=
  match h with
  | [] => (x, [])
  | y :: h' =>
      let (m, rest) := extract_min y h' in
      if hyp_ltb m x then (m, x :: rest) else (x, y :: h')
  end.

Definition heappop (h : list hypothesis) : option (hypothesis * list hypothesis) :=
  match h with
  | [] => None
  | x :: h' => Some (extract_min x h')
  end.

Definition heappush (h : list hypothesis) (x : hypothesis) : list hypothesis :=
  x :: h.

(** the suffix cache, a [dict] from lengths to costs *)
Abbreviation Cache := (gmap nat R).

(** [cache[n]] *)
Definition cache_get (cache : Cache) (n : nat) : M R :=
  match cache !! n with
  | Some v => ret v
  | None => raise KeyError
  end.

(** Python truth value of the [cache] argument: [None] and [{}] are false *)
Definition cache_truthy (cache : option Cache) : option Cache :=
  match cache with
  | Some c => if decide (c = ∅) then None else Some c
  | None => None
  end.

(** one round of the loop of [generate_options]; [letter] is [Some c] for a
    symbol [c] of the vocabulary and [None] for the final [''] *)
Definition generate_option (prefix_proba : R) (prefix suffix : string)
    (optimism : R) (cache : option Cache) (letter : option ascii)
    : M hypothesis :=
  branch <-
    match letter with
    | Some c =>
        p <- with_missed (fun m => MissingLetterModel.predict_proba m prefix c) ;;
        ret (c, suffix, snoc_str prefix c, String c EmptyString, (- ln p)%R)
    | None =>
        match suffix with
        | EmptyString => raise IndexError
        | String c new_suffix =>
            p <- with_missed (fun m => MissingLetterModel.predict_proba m prefix c) ;;
            ret (c, new_suffix, snoc_str prefix c, EmptyString, (- ln (1 - p))%R)
        end
    end ;;
  let '(next_letter, new_suffix, new_prefix, letter_str, proba_missing_state) :=
    branch in
  p_next <- with_lang (fun m =>
      LanguageNgramModel.single_proba m prefix (String next_letter EmptyString)) ;;
  let proba_next_letter := (- ln p_next)%R in
  proba_suffix <-
    match cache_truthy cache with
    | Some c =>
        v <- cache_get c (String.length new_suffix) ;;
        ret (v * optimism)%R
    | None =>
        p <- with_lang (fun m =>
            LanguageNgramModel.single_proba m new_prefix new_suffix) ;;
        ret (- ln p * optimism)%R
    end ;;
  let proba := (prefix_proba + proba_next_letter + proba_missing_state + proba_suffix)%R in
  ret (Hyp proba new_prefix new_suffix (Some letter_str) proba_suffix).

(** the loop [for letter in lang_model.vocabulary_ + ['']] *)
Fixpoint generate_options_loop (prefix_proba : R) (prefix suffix : string)
    (optimism : R) (cache : option Cache) (letters : list (option ascii))
    (options : list hypothesis) : M (list hypothesis) :=
  match letters with
  | [] => ret options
  | letter :: rest =>
      o <- generate_option prefix_proba prefix suffix optimism cache letter ;;
      generate_options_loop prefix_proba prefix suffix optimism cache rest
        (options ++ [o])
  end.

(** [generate_options] *)
Definition generate_options (prefix_proba : R) (prefix suffix : string)
    (optimism : R) (cache : option Cache) : M (list hypothesis) :=
  fun st =>
    generate_options_loop prefix_proba prefix suffix optimism cache
      (map Some (LanguageNgramModel.vocabulary_ st.1) ++ [None]) [] st.

(** the loop that fills the cache: [for i in range(len(query)+1)] *)
Fixpoint build_cache (query : string) (indices : list nat) (cache : Cache)
    : M Cache :=
  match indices with
  | [] => ret cache
  | i :: rest =>
      let future_suffix := take_str i query in
      a <- with_lang (fun m =>
          LanguageNgramModel.single_log_proba m EmptyString future_suffix) ;;
      let cache1 := <[String.length future_suffix := (- a)%R]> cache in
      b <- with_missed (fun m =>
          MissingLetterModel.single_log_proba m EmptyString future_suffix None) ;;
      old <- cache_get cache1 (String.length future_suffix) ;;
      build_cache query rest (<[String.length future_suffix := (old + - b)%R]> cache1)
  end.

(** [for new_option in new_options: if new_option[0] < best_logprob + freedom:
    heappush(heap, new_option)] *)
Definition push_options (best_logprob freedom : R) (new_options heap : list hypothesis)
    : list hypothesis :=
  fold_left
    (fun h new_option =>
       if Rltb (h_proba new_option) (best_logprob + freedom)
       then heappush h new_option else h)
    new_options heap.

Definition is_empty_str (s : string) : bool :=
  match s with EmptyString => true | _ => false end.

(** the main loop, [for i in range(max_attempts)]; its variables are the
    heap, the candidates and the best score *)
Fixpoint search_loop (freedom optimism : R) (cache : Cache) (attempts : nat)
    (heap candidates : list hypothesis) (best_logprob : R)
    : M (list hypothesis * list hypothesis * R) :=
  match attempts with
  | O => ret (heap, candidates, best_logprob)
  | S attempts' =>
      match heappop heap with
      | None => ret (heap, candidates, best_logprob)
      | Some (next_best, heap') =>
          if is_empty_str (h_suffix next_best) then
            if Rleb (h_proba next_best) (best_logprob + freedom) then
              search_loop freedom optimism cache attempts' heap'
                (candidates ++ [next_best])
                (if Rltb (h_proba next_best) best_logprob
                 then h_proba next_best else best_logprob)
            else
              search_loop freedom optimism cache attempts' heap'
                candidates best_logprob
          else
            let prefix_proba := (h_proba next_best - h_proba_suffix next_best)%R in
            new_options <-
              generate_options prefix_proba (h_prefix next_best)
                (h_suffix next_best) optimism (Some cache) ;;
            search_loop freedom optimism cache attempts'
              (push_options best_logprob freedom new_options heap')
              candidates best_logprob
      end
  end.

(** the final loop over the candidates, filling the [result] dict *)
Definition collect (best_logprob freedom : R) (candidates : list hypothesis)
    : gmap string R :=
  fold_left
    (fun res candidate =>
       if Rleb (h_proba candidate) (best_logprob + freedom)
       then <[strip_ends (h_prefix candidate) := h_proba candidate]> res
       else res)
    candidates ∅.

Definition space : ascii := " "%char.

(** the score the search starts from *)
Definition baseline (query : string) : M R :=
  let prefix := String space EmptyString in
  l <- with_lang (fun m => LanguageNgramModel.single_log_proba m prefix query) ;;
  let full_origin_logprob := (- l)%R in
  d <- with_missed (fun m => MissingLetterModel.single_log_proba m prefix query None) ;;
  let no_missing_logprob := (- d)%R in
  ret (full_origin_logprob + no_missing_logprob)%R.

(** [noisy_channel(word, lang_model, missed_model, freedom, max_attempts,
    optimism, verbose=False)]: the printing under [verbose] is left out.
    (With [verbose=True] the print after the loop reads the loop variable
    [i], which is unbound when [max_attempts] is 0.) *)
Definition noisy_channel (word : string) (freedom : R) (max_attempts : nat)
    (optimism : R) : M (gmap string R) :=
  let query := snoc_str word space in
  let prefix := String space EmptyString in
  let suffix := query in
  best_logprob <- baseline query ;;
  let heap :=
    [Hyp (best_logprob * optimism) prefix suffix (Some EmptyString)
         (best_logprob * optimism)] in
  let candidates :=
    [Hyp best_logprob (prefix ++ query)%string EmptyString None 0] in
  cache <- build_cache query (seq 0 (String.length query + 1)) ∅ ;;
  final <- search_loop freedom optimism cache max_attempts heap candidates
             best_logprob ;;
  let '(_, candidates', best_logprob') := final in
  ret (collect best_logprob' freedom candidates').

(** * Notions used in the statements *)

(** Two tables that hold the same counts: they differ at most by empty
    counters materialised by lookups (and by zero entries). *)
Definition table_equiv (tb tb' : Table) : Prop :=
  forall key token, table_count tb key token = table_count tb' key token.

Import MissingLetterModel (placeholder).

(** the value [predict_proba] returns *)
Definition p_del (m : MissingLetterModel.t) (context : string) (letter : ascii) : R :=
  (MissingLetterModel.predict_proba m context letter).1.

(** Two states of one missing-letter model: same constructor arguments and
    same counts. *)
Definition missed_equiv (m m' : MissingLetterModel.t) : Prop :=
  MissingLetterModel.order m = MissingLetterModel.order m' /\
  MissingLetterModel.smoothing_missed m = MissingLetterModel.smoothing_missed m' /\
  MissingLetterModel.smoothing_total m = MissingLetterModel.smoothing_total m' /\
  table_equiv (MissingLetterModel.missed_counter_ m) (MissingLetterModel.missed_counter_ m') /\
  table_equiv (MissingLetterModel.total_counter_ m) (MissingLetterModel.total_counter_ m').

(** the sum [single_log_proba] accumulates, written over the values of
    [predict_proba] at one fixed state of the model *)
Fixpoint missed_log_terms (m : MissingLetterModel.t) (context : string)
    (tokens : list (ascii * ascii)) (res : R) : R :=
  match tokens with
  | [] => res
  | (orig_token, act_token) :: rest =>
      missed_log_terms m (snoc_str context orig_token) rest
        (res + ln (if decide (act_token = placeholder)
                   then 1 - p_del m context orig_token
                   else p_del m context orig_token))%R
  end.

(** the missing-letter model of the notebook's first example *)
Definition abracadabra_missed : MissingLetterModel.t :=
  MissingLetterModel.fit 0 (3/10) 1 [("abracadabra"%string, "abr-c-d-br-"%string)].

Module LM := LanguageNgramModel.

(** length of the backoff chain below a model *)
Fixpoint lang_depth (m : LM.t) : nat :=
  match LM.child_ m with
  | Some c => S (lang_depth c)
  | None => O
  end.

(** Two states of one language model: same constructor arguments, same
    vocabulary and unigram counts, same counts in the tables, along the
    whole backoff chain. *)
Fixpoint lang_equiv (m m' : LM.t) : Prop :=
  LM.order m = LM.order m' /\
  LM.smoothing m = LM.smoothing m' /\
  LM.recursive m = LM.recursive m' /\
  LM.unigrams_ m = LM.unigrams_ m' /\
  LM.vocabulary_ m = LM.vocabulary_ m' /\
  table_equiv (LM.counter_ m) (LM.counter_ m') /\
  match LM.child_ m, LM.child_ m' with
  | Some c, Some c' => lang_equiv c c'
  | None, None => True
  | _, _ => False
  end.

(** the value [predict_proba] returns *)
Definition lang_proba (m : LM.t) (context : string) : Series :=
  (LM.predict_proba m context).1.

(** the sum [single_log_proba] accumulates, written over the values of
    [predict_proba] at one fixed state of the model *)
Fixpoint lang_log_terms (m : LM.t) (context : string) (tokens : list ascii)
    (res : R) : result R :=
  match tokens with
  | [] => Ok res
  | token :: rest =>
      match series_get (lang_proba m context) token with
      | Ok p => lang_log_terms m (snoc_str context token) rest (res + ln p)%R
      | Raise e => Raise e
      end
  end.

(** the language model of the notebook's first example *)
Definition abracadabra_lang : LM.t := LM.fit 1 1 (1/1000) " abracadabra ".

Definition abracadabra_store : Store := (abracadabra_lang, abracadabra_missed).

(** a computation whose only exception is [KeyError] *)
Definition only_KeyError {A} (c : M A) : Prop :=
  forall st e, (c st).1 = Raise e -> e = KeyError.

(** Two states of the pair of models that hold the same data. *)
Definition store_equiv (st st' : Store) : Prop :=
  lang_equiv st.1 st'.1 /\ missed_equiv st.2 st'.2.

(** [returns st0 c a]: from every state of the store that holds the data of
    [st0], the computation [c] returns [a] and leaves such a state. *)
Definition returns {A} (st0 : Store) (c : M A) (a : A) : Prop :=
  forall st, store_equiv st0 st ->
    exists st', c st = (Ok a, st') /\ store_equiv st0 st'.

(** the entry of [predict_proba(context)] for a symbol: the probability that
    the symbol follows the context *)
Definition next_proba (lang : LM.t) (context : string) (c : ascii) : R :=
  match series_get (lang_proba lang context) c with
  | Ok p => p
  | Raise _ => 0
  end.

(** cost of the edge that assumes [c] was deleted after [prefix] *)
Definition deletion_cost (st : Store) (prefix : string) (c : ascii) : R :=
  (- ln (p_del st.2 prefix c) - ln (next_proba st.1 prefix c))%R.

(** cost of the edge that consumes [c] as observed after [prefix] *)
Definition keep_cost (st : Store) (prefix : string) (c : ascii) : R :=
  (- ln (1 - p_del st.2 prefix c) - ln (next_proba st.1 prefix c))%R.

(** the child that assumes [c] was deleted *)
Definition deleted_child (st : Store) (prefix_proba : R) (prefix suffix : string)
    (optimism heuristic : R) (c : ascii) : hypothesis :=
  Hyp (prefix_proba + deletion_cost st prefix c + heuristic * optimism)
      (snoc_str prefix c) suffix (Some (String c EmptyString))
      (heuristic * optimism).

(** the child that consumes the next symbol [c] of the suffix *)
Definition kept_child (st : Store) (prefix_proba : R) (prefix new_suffix : string)
    (optimism heuristic : R) (c : ascii) : hypothesis :=
  Hyp (prefix_proba + keep_cost st prefix c + heuristic * optimism)
      (snoc_str prefix c) new_suffix (Some EmptyString)
      (heuristic * optimism).

(** a series whose values are all strictly positive *)
Definition positive_series (s : Series) : Prop :=
  Forall (fun tv => (0 < tv.2)%R) s.

(** a letter is counted as missed only when it is counted as seen *)
Definition missed_le_total (missed total : Table) : Prop :=
  forall key token, (table_count missed key token <= table_count total key token)%nat.

(** the contexts that have an entry in the table of the language model *)
Definition keys_incl (st st' : Store) : Prop :=
  forall key, is_Some (LM.counter_ st.1 !! key) -> is_Some (LM.counter_ st'.1 !! key).

(** a language model of order 2 on the corpus of the notebook's example *)
Definition abracadabra_lang2 : LM.t := LM.fit 2 1 (1/1000) " abracadabra ".

(** the value the language model's [single_log_proba] returns (0 when it
    raises) *)
Definition lang_value (st : Store) (context continuation : string) : R :=
  match (LM.single_log_proba st.1 context continuation).1 with
  | Ok v => v
  | Raise _ => 0
  end.

(** the value the missing-letter model's [single_log_proba] returns with
    [actual] omitted *)
Definition missed_value (st : Store) (context continuation : string) : R :=
  (MissingLetterModel.single_log_proba st.2 context continuation None).1.

(** what [noisy_channel] stores in the cache for a string: its cost with no
    context under the language model plus its cost with no context under
    the missing-letter model *)
Definition unconditional_cost (st : Store) (s : string) : R :=
  (- lang_value st EmptyString s + - missed_value st EmptyString s)%R.

(** the cache after the loop over [indices] *)
Definition cache_after (st : Store) (query : string) (indices : list nat)
    (cache : Cache) : Cache :=
  foldl (fun c i =>
           <[String.length (take_str i query)
               := unconditional_cost st (take_str i query)]> c)
        cache indices.

(** a small pair of models: an order-0 language model without backoff on
    the corpus [" aa"], and an order-0 missing-letter model that saw ["a"]
    and [" "] once each, never missed *)
Definition small_lang : LM.t := LM.fit 0 1 0 " aa".

Definition small_missed : MissingLetterModel.t :=
  MissingLetterModel.fit 0 (3/10) 1 [("a "%string, "a "%string)].

Definition small_store : Store := (small_lang, small_missed).

(** a node whose suffix the models and the cache can score *)
Definition node_ok (st0 : Store) (cache : Cache) (h : hypothesis) : Prop :=
  Forall (fun c => c ∈ LM.vocabulary_ st0.1) (chars (h_suffix h)) /\
  forall n, (n <= String.length (h_suffix h))%nat -> is_Some (cache !! n).

(** Written after the specification: the cost of the query with zero assumed
    deletions is the cost of the path of the search tree that consumes every
    symbol of the query as observed, the sum of the costs
    [-log (1 - p_del) - log P] of its edges. *)
Fixpoint zero_deletion_cost (st : Store) (prefix : string) (tokens : list ascii) : R :=
  match tokens with
  | [] => 0
  | c :: rest =>
      (keep_cost st prefix c + zero_deletion_cost st (snoc_str prefix c) rest)%R
  end.

(** an order-1 language model without backoff on the corpus [" a a"], and an
    order-0 missing-letter model that saw ["a"] missed once and [" "] kept
    once *)
Definition tiny_lang : LM.t := LM.fit 1 1 0 " a a".

Definition tiny_missed : MissingLetterModel.t :=
  MissingLetterModel.fit 0 (3/10) 1 [("a "%string, "- "%string)].

Definition tiny_store : Store := (tiny_lang, tiny_missed).

Definition tiny_cache : Cache :=
  cache_after tiny_store " " (seq 0 (String.length " " + 1)) ∅.

(** the divisor of the missing-letter model's [predict_proba], the
    [total_freq] of the source: Python raises [ZeroDivisionError] when it is
    zero, while the quotient of reals has a value there, so a statement
    about a returned estimate is made where the divisor is not zero *)
Definition total_freq (m : MissingLetterModel.t) (context : string)
    (letter : ascii) : R :=
  (INR (table_count (MissingLetterModel.total_counter_ m)
          (MissingLetterModel.local_context (MissingLetterModel.order m) context)
          letter)
   + MissingLetterModel.smoothing_total m)%R.

(** ** Notions for the further properties *)

(** the order of the code points is total *)
#[global] Instance ascii_le_total : Total ascii_le.
Proof. intros a b. unfold ascii_le. lia. Qed.

(** the positions [i] of [tokens], numbered from [start], at which the
    [order] symbols of the corpus from [i] are [context] and the token is
    [token] *)
Definition followers (corpus : string) (order start : nat) (tokens : list ascii)
    (context : string) (token : ascii) : list (nat * ascii) :=
  filter (fun it => slice it.1 (it.1 + order) corpus = context /\ it.2 = token)
         (zip (seq start (length tokens)) tokens).

(** a model and the models below it in the backoff chain *)
Fixpoint lang_chain (m : LM.t) : list LM.t :=
  m :: match LM.child_ m with
       | Some c => lang_chain c
       | None => []
       end.

(** sum and product of a list of reals *)
Definition sum_list_R (l : list R) : R := foldr Rplus 0%R l.
Definition prod_list_R (l : list R) : R := foldr Rmult 1%R l.

(** the positions [i] of one training pair, numbered from 0 over
    [zip(original[order:], observed[order:])], at which the [order] symbols
    of [original] from [i] are [context] and the original letter is
    [letter] *)
Definition seen_positions (order : nat) (pair : string * string)
    (context : string) (letter : ascii) : list (nat * (ascii * ascii)) :=
  let letters := zip (chars (drop_str order pair.1)) (chars (drop_str order pair.2)) in
  filter (fun it => slice it.1 (it.1 + order) pair.1 = context /\ it.2.1 = letter)
         (zip (seq 0 (length letters)) letters).

(** among them, the positions at which the observed letter is the
    placeholder *)
Definition missed_positions (order : nat) (pair : string * string)
    (context : string) (letter : ascii) : list (nat * (ascii * ascii)) :=
  filter (fun it => it.2.2 = placeholder) (seen_positions order pair context letter).

(** a child of a node with this prefix and suffix: one symbol is appended to
    the prefix, and either the suffix is unchanged or that symbol is taken
    from its front *)
Definition child_of (prefix suffix : string) (h : hypothesis) : Prop :=
  (exists c, h_prefix h = snoc_str prefix c /\ h_suffix h = suffix) \/
  (exists c, suffix = String c (h_suffix h) /\ h_prefix h = snoc_str prefix c).

(** a node of the search for [word]: its prefix is the leading space
    followed by symbols among which those consumed from the query
    [word + ' '] appear in order, and its suffix is what is left of the
    query; when nothing is left, the prefix ends with the space of the query *)
Definition spells (word : string) (h : hypothesis) : Prop :=
  exists consumed p : list ascii,
    chars (h_prefix h) = space :: p /\
    chars word ++ [space] = consumed ++ chars (h_suffix h) /\
    consumed `sublist_of` p /\
    (h_suffix h = EmptyString ->
     exists p', p = p' ++ [space] /\ chars word `sublist_of` p').

(** a candidate whose key, the prefix without its first and last symbol,
    holds the symbols of [word] in order *)
Definition key_ok (word : string) (h : hypothesis) : Prop :=
  chars word `sublist_of` chars (strip_ends (h_prefix h)).

(** the best score so far is the least score among the candidates, and one
    of them has it *)
Definition best_of (best : R) (candidates : list hypothesis) : Prop :=
  Forall (fun c => (best <= h_proba c)%R) candidates /\
  exists c, c ∈ candidates /\ h_proba c = best.

(** an alignment of a phrase with the observed word: the symbols of the
    phrase in order, each with [true] when it is assumed deleted (absent
    from the observed word) and [false] when it is observed *)
Abbreviation alignment := (list (ascii * bool)).

Definition symbols_of (al : alignment) : list ascii := map fst al.

Definition observed_of (al : alignment) : list ascii :=
  map fst (filter (fun cd => cd.2 = false) al).

(** cost of one edge of the search tree *)
Definition edge_cost (st : Store) (prefix : string) (c : ascii) (deleted : bool) : R :=
  if deleted then deletion_cost st prefix c else keep_cost st prefix c.

(** the prefix after the symbols of an alignment were appended to it *)
Fixpoint extend (prefix : string) (al : alignment) : string :=
  match al with
  | [] => prefix
  | (c, _) :: rest => extend (snoc_str prefix c) rest
  end.

(** cost of a path of the search tree that starts at [prefix]: the sum of
    the costs of its edges, each taken at the prefix built so far *)
Fixpoint path_cost (st : Store) (prefix : string) (al : alignment) : R :=
  match al with
  | [] => 0
  | (c, d) :: rest =>
      (edge_cost st prefix c d + path_cost st (snoc_str prefix c) rest)%R
  end.

(** a node of the search for [word] whose score, without the estimate for
    its suffix, is the cost of the path that leads to it, a path over the
    vocabulary of the language model *)
Definition path_node (st0 : Store) (word : string) (cache : Cache)
    (h : hypothesis) : Prop :=
  node_ok st0 cache h /\
  exists al : alignment,
    Forall (fun c => c ∈ LM.vocabulary_ st0.1) (symbols_of al) /\
    h_prefix h = extend (String space EmptyString) al /\
    chars word ++ [space] = observed_of al ++ chars (h_suffix h) /\
    (h_proba h - h_proba_suffix h)%R = path_cost st0 (String space EmptyString) al /\
    (h_suffix h = EmptyString ->
     h_proba_suffix h = 0%R /\ exists al', al = al' ++ [(space, false)]).

(** a candidate whose score is the score the search starts from, or the
    cost of a path that spells its phrase and observes the word *)
Definition path_leaf (st0 : Store) (word : string) (c : hypothesis) : Prop :=
  (strip_ends (h_prefix c) = word /\
   h_proba c = (- lang_value st0 (String space EmptyString) (snoc_str word space)
                + - missed_value st0 (String space EmptyString) (snoc_str word space))%R) \/
  exists al : alignment,
    Forall (fun c => c ∈ LM.vocabulary_ st0.1) (symbols_of al) /\
    symbols_of al = chars (strip_ends (h_prefix c)) ++ [space] /\
    observed_of al = chars word ++ [space] /\
    h_proba c = path_cost st0 (String space EmptyString) al.

(** * Properties *)

(** ** Tables *)

Lemma table_equiv_refl tb : table_equiv tb tb.
Proof. intros k a; reflexivity. Qed.

Lemma table_equiv_trans tb1 tb2 tb3 :
  table_equiv tb1 tb2 -> table_equiv tb2 tb3 -> table_equiv tb1 tb3.
Proof. intros H1 H2 k a. rewrite H1. apply H2. Qed.

Lemma table_get_counter tb key token :
  counter_get (table_get tb key).1 token = table_count tb key token.
Proof.
  unfold table_get, table_count.
  destruct (tb !! key) as [c|]; cbn [fst snd]; [reflexivity|].
  unfold counter_get. rewrite lookup_empty. reflexivity.
Qed.

Lemma table_get_equiv tb key : table_equiv tb (table_get tb key).2.
Proof.
  intros k a. unfold table_get, table_count.
  destruct (tb !! key) as [c|] eqn:E; cbn [fst snd]; [reflexivity|].
  destruct (decide (key = k)) as [->|Hne].
  - rewrite lookup_insert_eq, E. unfold counter_get.
    rewrite lookup_empty. reflexivity.
  - rewrite lookup_insert_ne by assumption. reflexivity.
Qed.

Lemma table_get_keys tb key k :
  is_Some (tb !! k) -> is_Some ((table_get tb key).2 !! k).
Proof.
  unfold table_get. destruct (tb !! key) eqn:E; cbn [fst snd]; [auto|].
  intros Hk. destruct (decide (key = k)) as [->|Hne].
  - rewrite lookup_insert_eq. eauto.
  - rewrite lookup_insert_ne by assumption. assumption.
Qed.

Lemma table_get_touched tb key : is_Some ((table_get tb key).2 !! key).
Proof.
  unfold table_get. destruct (tb !! key) eqn:E; cbn [fst snd].
  - rewrite E. eauto.
  - rewrite lookup_insert_eq. eauto.
Qed.

Lemma counter_get_insert (c : Counter) t n a :
  counter_get (<[t := n]> c) a = if decide (t = a) then n else counter_get c a.
Proof.
  unfold counter_get. destruct (decide (t = a)) as [->|Hne].
  - rewrite lookup_insert_eq. reflexivity.
  - rewrite lookup_insert_ne by assumption. reflexivity.
Qed.

Lemma table_incr_count tb key token k a :
  table_count (table_incr tb key token) k a =
  (table_count tb k a + if decide (key = k /\ token = a) then 1 else 0)%nat.
Proof.
  unfold table_incr.
  pose proof (table_get_counter tb key) as Hc.
  pose proof (table_get_equiv tb key) as He.
  destruct (table_get tb key) as [c tb'] eqn:E. cbn [fst snd] in *.
  unfold table_count at 1.
  destruct (decide (key = k)) as [->|Hne].
  - rewrite lookup_insert_eq, counter_get_insert, Hc.
    destruct (decide (token = a)) as [->|Hne'].
    + rewrite decide_True by auto. lia.
    + rewrite decide_False by (intros [_ ?]; contradiction).
      rewrite Hc. lia.
  - rewrite lookup_insert_ne by assumption.
    rewrite decide_False by (intros [? _]; contradiction).
    rewrite Nat.add_0_r, (He k a). reflexivity.
Qed.

(** ** The missing-letter model: values and state *)

Lemma missed_equiv_refl m : missed_equiv m m.
Proof. repeat split; apply table_equiv_refl. Qed.

Lemma missed_equiv_trans m1 m2 m3 :
  missed_equiv m1 m2 -> missed_equiv m2 m3 -> missed_equiv m1 m3.
Proof.
  intros (A1 & A2 & A3 & A4 & A5) (B1 & B2 & B3 & B4 & B5).
  repeat split; try congruence; eapply table_equiv_trans; eassumption.
Qed.

Lemma p_del_value m context letter :
  p_del m context letter =
  ((INR (table_count (MissingLetterModel.missed_counter_ m)
           (MissingLetterModel.local_context (MissingLetterModel.order m) context) letter)
    + MissingLetterModel.smoothing_missed m) /
   (INR (table_count (MissingLetterModel.total_counter_ m)
           (MissingLetterModel.local_context (MissingLetterModel.order m) context) letter)
    + MissingLetterModel.smoothing_total m))%R.
Proof.
  unfold p_del, MissingLetterModel.predict_proba.
  set (local := MissingLetterModel.local_context _ _).
  rewrite <- !table_get_counter.
  destruct (table_get (MissingLetterModel.missed_counter_ m) local).
  destruct (table_get (MissingLetterModel.total_counter_ m) local).
  reflexivity.
Qed.

Lemma missed_predict_proba_equiv m context letter :
  missed_equiv m (MissingLetterModel.predict_proba m context letter).2.
Proof.
  unfold MissingLetterModel.predict_proba.
  set (local := MissingLetterModel.local_context _ _).
  pose proof (table_get_equiv (MissingLetterModel.missed_counter_ m) local) as H1.
  pose proof (table_get_equiv (MissingLetterModel.total_counter_ m) local) as H2.
  destruct (table_get (MissingLetterModel.missed_counter_ m) local).
  destruct (table_get (MissingLetterModel.total_counter_ m) local).
  repeat split; assumption.
Qed.

Lemma p_del_equiv m m' context letter :
  missed_equiv m m' -> p_del m context letter = p_del m' context letter.
Proof.
  intros (A1 & A2 & A3 & A4 & A5). rewrite !p_del_value.
  rewrite A1, A2, A3, A4, A5. reflexivity.
Qed.

Lemma missed_loop_spec tokens : forall m0 m context res,
  missed_equiv m0 m ->
  (MissingLetterModel.single_log_proba_loop m context tokens res).1
    = missed_log_terms m0 context tokens res /\
  missed_equiv m0 (MissingLetterModel.single_log_proba_loop m context tokens res).2.
Proof.
  induction tokens as [|[o a] rest IH]; intros m0 m context res He; cbn [MissingLetterModel.single_log_proba_loop missed_log_terms].
  - split; [reflexivity | assumption].
  - pose proof (missed_predict_proba_equiv m context o) as Hs.
    pose proof (p_del_equiv m0 m context o He) as Hv.
    unfold p_del in Hv at 2.
    destruct (MissingLetterModel.predict_proba m context o) as [pp m1].
    cbn [fst snd] in *. subst pp.
    apply IH. eapply missed_equiv_trans; eassumption.
Qed.

Lemma missed_single_log_proba_spec m context continuation actual :
  (MissingLetterModel.single_log_proba m context continuation actual).1
    = missed_log_terms m context
        (zip (chars continuation)
             (chars (if MissingLetterModel.truthy actual
                     then default continuation actual else continuation))) 0 /\
  missed_equiv m (MissingLetterModel.single_log_proba m context continuation actual).2.
Proof.
  unfold MissingLetterModel.single_log_proba.
  apply missed_loop_spec, missed_equiv_refl.
Qed.

Lemma missed_fit_fields o sm st pairs :
  MissingLetterModel.order (MissingLetterModel.fit o sm st pairs) = o /\
  MissingLetterModel.smoothing_missed (MissingLetterModel.fit o sm st pairs) = sm /\
  MissingLetterModel.smoothing_total (MissingLetterModel.fit o sm st pairs) = st /\
  MissingLetterModel.missed_counter_ (MissingLetterModel.fit o sm st pairs)
    = (MissingLetterModel.fit_loop o pairs ∅ ∅).1 /\
  MissingLetterModel.total_counter_ (MissingLetterModel.fit o sm st pairs)
    = (MissingLetterModel.fit_loop o pairs ∅ ∅).2.
Proof.
  unfold MissingLetterModel.fit.
  destruct (MissingLetterModel.fit_loop o pairs ∅ ∅); repeat split.
Qed.

(** the value of [predict_proba] on a freshly fitted model *)
Lemma p_del_fit o sm st pairs context letter :
  p_del (MissingLetterModel.fit o sm st pairs) context letter =
  ((INR (table_count (MissingLetterModel.fit_loop o pairs ∅ ∅).1
           (MissingLetterModel.local_context o context) letter) + sm) /
   (INR (table_count (MissingLetterModel.fit_loop o pairs ∅ ∅).2
           (MissingLetterModel.local_context o context) letter) + st))%R.
Proof.
  rewrite p_del_value.
  destruct (missed_fit_fields o sm st pairs) as (-> & -> & -> & -> & ->).
  reflexivity.
Qed.

Example abracadabra_p_del_a : p_del abracadabra_missed "abr" "a" = (43/60)%R.
Proof.
  unfold abracadabra_missed. rewrite p_del_fit.
  replace (table_count _ _ _) with 4%nat by (vm_compute; reflexivity).
  replace (table_count _ _ _) with 5%nat by (vm_compute; reflexivity).
  simpl INR. lra.
Qed.

Lemma ln_neq (x y : R) : (0 < x)%R -> (0 < y)%R -> x <> y -> ln x <> ln y.
Proof. intros Hx Hy Hne He. apply Hne. apply ln_inv; assumption. Qed.

Example abracadabra_p_del_b : p_del abracadabra_missed "" "b" = (1/10)%R.
Proof.
  unfold abracadabra_missed. rewrite p_del_fit.
  replace (table_count _ _ _) with 0%nat by (vm_compute; reflexivity).
  replace (table_count _ _ _) with 2%nat by (vm_compute; reflexivity).
  simpl INR. lra.
Qed.

(** C1 (defect of the code). [single_log_proba] takes the logarithm of
    [predict_proba], the probability that the letter is missed, for a letter
    that [actual] keeps, and of [1 - predict_proba] for a letter that
    [actual] marks as deleted with ['-']: the two cases are exchanged. On
    the model of the notebook's example, ["b"] is missed with probability
    1/10; the letter kept (or [actual] omitted) scores [ln (1/10)] where the
    specification gives [ln (1 - 1/10)], and the letter deleted scores
    [ln (9/10)] where the specification gives [ln (1/10)]. *)
Theorem C1_single_log_proba_exchanges_kept_and_deleted :
  p_del abracadabra_missed "" "b" = (1/10)%R /\
  (MissingLetterModel.single_log_proba abracadabra_missed "" "b" (Some "b"%string)).1
    = ln (1/10) /\
  (MissingLetterModel.single_log_proba abracadabra_missed "" "b" None).1
    = ln (1/10) /\
  (MissingLetterModel.single_log_proba abracadabra_missed "" "b" (Some "-"%string)).1
    = ln (1 - 1/10) /\
  ln (1/10) <> ln (1 - 1/10).
Proof.
  split; [exact abracadabra_p_del_b|].
  repeat split.
  - rewrite (proj1 (missed_single_log_proba_spec _ _ _ _)).
    cbn [MissingLetterModel.truthy default from_option Datatypes.id chars zip zip_with missed_log_terms].
    rewrite decide_False by discriminate.
    rewrite abracadabra_p_del_b. f_equal; lra.
  - rewrite (proj1 (missed_single_log_proba_spec _ _ _ _)).
    cbn [MissingLetterModel.truthy default from_option Datatypes.id chars zip zip_with missed_log_terms].
    rewrite decide_False by discriminate.
    rewrite abracadabra_p_del_b. f_equal; lra.
  - rewrite (proj1 (missed_single_log_proba_spec _ _ _ _)).
    cbn [MissingLetterModel.truthy default from_option Datatypes.id chars zip zip_with missed_log_terms].
    rewrite decide_True by reflexivity.
    rewrite abracadabra_p_del_b. lra.
  - apply ln_neq; lra.
Qed.

(** ** The language model: values and state *)

(** induction along the backoff chain *)
Lemma lang_model_ind (P : LM.t -> Prop) :
  (forall m, (forall c, LM.child_ m = Some c -> P c) -> P m) ->
  forall m, P m.
Proof.
  intros H m. remember (lang_depth m) as n eqn:En.
  revert m En. induction n as [n IH] using lt_wf_ind. intros m En.
  apply H. intros c Hc. apply (IH (lang_depth c)); [|reflexivity].
  subst n. destruct m as [o s r ct u v ch]. simpl in Hc. subst ch.
  simpl. lia.
Qed.

Lemma lang_equiv_unfold m m' :
  lang_equiv m m' <->
  LM.order m = LM.order m' /\
  LM.smoothing m = LM.smoothing m' /\
  LM.recursive m = LM.recursive m' /\
  LM.unigrams_ m = LM.unigrams_ m' /\
  LM.vocabulary_ m = LM.vocabulary_ m' /\
  table_equiv (LM.counter_ m) (LM.counter_ m') /\
  match LM.child_ m, LM.child_ m' with
  | Some c, Some c' => lang_equiv c c'
  | None, None => True
  | _, _ => False
  end.
Proof. destruct m; reflexivity. Qed.

Lemma lang_equiv_refl m : lang_equiv m m.
Proof.
  induction m as [m IH] using lang_model_ind.
  apply lang_equiv_unfold. repeat split; try apply table_equiv_refl.
  destruct (LM.child_ m) as [c|] eqn:E; [apply IH; reflexivity | exact I].
Qed.

Lemma lang_equiv_trans m1 : forall m2 m3,
  lang_equiv m1 m2 -> lang_equiv m2 m3 -> lang_equiv m1 m3.
Proof.
  induction m1 as [m1 IH] using lang_model_ind. intros m2 m3 H12 H23.
  apply lang_equiv_unfold in H12. apply lang_equiv_unfold in H23.
  apply lang_equiv_unfold.
  destruct H12 as (A1 & A2 & A3 & A4 & A5 & A6 & A7).
  destruct H23 as (B1 & B2 & B3 & B4 & B5 & B6 & B7).
  do 5 (split; [congruence|]).
  split; [eapply table_equiv_trans; eassumption|].
  destruct (LM.child_ m1) as [c1|] eqn:E1, (LM.child_ m2) as [c2|] eqn:E2,
           (LM.child_ m3) as [c3|] eqn:E3; try tauto.
  eapply IH; eauto.
Qed.

(** one step of [get_counts] *)
Lemma get_counts_eq self context :
  LM.get_counts self context =
  let local := LM.local_context (LM.order self) context in
  let (freq_dict, counter') := table_get (LM.counter_ self) local in
  let freq : Series :=
    map (fun token => (token, (INR (counter_get freq_dict token) + LM.smoothing self)%R))
        (LM.vocabulary_ self) in
  match LM.child_ self with
  | Some child =>
      if Rltb 0 (LM.recursive self) && negb (Nat.eqb (LM.order self) 0) then
        let (counts, child') := LM.get_counts child context in
        (series_iadd freq (series_scale counts (LM.recursive self)),
         LM.Build (LM.order self) (LM.smoothing self) (LM.recursive self) counter'
               (LM.unigrams_ self) (LM.vocabulary_ self) (Some child'))
      else
        (freq,
         LM.Build (LM.order self) (LM.smoothing self) (LM.recursive self) counter'
               (LM.unigrams_ self) (LM.vocabulary_ self) (Some child))
  | None =>
      (freq,
       LM.Build (LM.order self) (LM.smoothing self) (LM.recursive self) counter'
             (LM.unigrams_ self) (LM.vocabulary_ self) None)
  end.
Proof. destruct self; reflexivity. Qed.

Lemma get_counts_equiv m : forall context,
  lang_equiv m (LM.get_counts m context).2.
Proof.
  induction m as [m IH] using lang_model_ind. intros context.
  rewrite get_counts_eq. cbv zeta.
  pose proof (table_get_equiv (LM.counter_ m)
                (LM.local_context (LM.order m) context)) as Ht.
  destruct (table_get _ _) as [fd ct'].
  destruct (LM.child_ m) as [c|] eqn:E.
  - destruct (Rltb 0 (LM.recursive m) && negb (Nat.eqb (LM.order m) 0)).
    + specialize (IH c eq_refl context).
      destruct (LM.get_counts c context) as [counts c'].
      apply lang_equiv_unfold. cbn [fst snd] in *. simpl.
      rewrite E. repeat split; assumption.
    + apply lang_equiv_unfold. simpl. rewrite E.
      repeat split; try assumption. apply lang_equiv_refl.
  - apply lang_equiv_unfold. simpl. rewrite E. repeat split; assumption.
Qed.

Lemma get_counts_respects m : forall m' context,
  lang_equiv m m' -> (LM.get_counts m context).1 = (LM.get_counts m' context).1.
Proof.
  induction m as [m IH] using lang_model_ind. intros m' context He.
  apply lang_equiv_unfold in He.
  destruct He as (A1 & A2 & A3 & A4 & A5 & A6 & A7).
  rewrite (get_counts_eq m), (get_counts_eq m'). cbv zeta.
  rewrite <- A1, <- A2, <- A3, <- A5.
  pose proof (table_get_counter (LM.counter_ m)
                (LM.local_context (LM.order m) context)) as H1.
  pose proof (table_get_counter (LM.counter_ m')
                (LM.local_context (LM.order m) context)) as H2.
  destruct (table_get (LM.counter_ m) _) as [fd ct1].
  destruct (table_get (LM.counter_ m') _) as [fd' ct2].
  cbn [fst snd] in *.
  assert (Hf : map (fun token => (token, (INR (counter_get fd token) + LM.smoothing m)%R))
                 (LM.vocabulary_ m)
             = map (fun token => (token, (INR (counter_get fd' token) + LM.smoothing m)%R))
                 (LM.vocabulary_ m)).
  { apply map_ext. intros a. rewrite H1, H2, A6. reflexivity. }
  rewrite Hf.
  destruct (LM.child_ m) as [c|] eqn:E, (LM.child_ m') as [c'|] eqn:E';
    try tauto.
  destruct (Rltb 0 (LM.recursive m) && negb (Nat.eqb (LM.order m) 0));
    [|reflexivity].
  specialize (IH c eq_refl c' context A7).
  destruct (LM.get_counts c context), (LM.get_counts c' context).
  cbn [fst snd] in *. subst. reflexivity.
Qed.

(** *** Series *)

Lemma series_get_in (s : Series) token :
  token ∈ map fst s -> exists v, series_get s token = Ok v /\ (token, v) ∈ s.
Proof.
  induction s as [|[t v] s IH]; simpl; intros Hin.
  - inversion Hin.
  - destruct (decide (t = token)) as [->|Hne].
    + exists v. split; [reflexivity | left].
    + apply elem_of_cons in Hin. destruct Hin as [Hin|Hin]; [congruence|].
      destruct (IH Hin) as (w & Hw & Hm). exists w. split; [assumption | right; assumption].
Qed.

Lemma series_get_notin (s : Series) token :
  token ∉ map fst s -> series_get s token = Raise KeyError.
Proof.
  induction s as [|[t v] s IH]; simpl; intros Hn; [reflexivity|].
  destruct (decide (t = token)) as [->|Hne].
  - exfalso. apply Hn. left.
  - apply IH. intros Hin. apply Hn. right. assumption.
Qed.

Lemma series_get_raises (s : Series) token e :
  series_get s token = Raise e -> e = KeyError /\ token ∉ map fst s.
Proof.
  induction s as [|[t v] s IH]; simpl; intros H.
  - split; [congruence | intros Hin; inversion Hin].
  - destruct (decide (t = token)) as [->|Hne]; [discriminate|].
    destruct (IH H) as [He Hn]. split; [assumption|].
    intros Hin. apply elem_of_cons in Hin. destruct Hin; [congruence | contradiction].
Qed.

Lemma series_get_ok_in (s : Series) token v :
  series_get s token = Ok v -> (token, v) ∈ s.
Proof.
  induction s as [|[t w] s IH]; simpl; intros H; [discriminate|].
  destruct (decide (t = token)) as [->|Hne].
  - injection H as ->. left.
  - right. apply IH. assumption.
Qed.

Lemma series_label_in (s : Series) token v :
  (token, v) ∈ s -> token ∈ map fst s.
Proof.
  induction s as [|[t w] s IH]; intros Hin; [inversion Hin|].
  apply elem_of_cons in Hin. destruct Hin as [Hin|Hin].
  - injection Hin as -> ->. left.
  - right. apply IH. assumption.
Qed.

Lemma series_div_labels (s : Series) k : map fst (series_div s k) = map fst s.
Proof. unfold series_div. rewrite map_map. reflexivity. Qed.

Lemma series_scale_labels (s : Series) k : map fst (series_scale s k) = map fst s.
Proof. unfold series_scale. rewrite map_map. reflexivity. Qed.

Lemma series_iadd_labels (s o : Series) : map fst (series_iadd s o) = map fst s.
Proof. unfold series_iadd. rewrite map_map. reflexivity. Qed.

(** the index of the counts is the vocabulary of the model *)
Lemma get_counts_labels m context :
  map fst (LM.get_counts m context).1 = LM.vocabulary_ m.
Proof.
  rewrite get_counts_eq. cbv zeta.
  destruct (table_get _ _) as [fd ct'].
  assert (Hf : forall f : ascii -> R,
             map fst (map (fun token => (token, f token)) (LM.vocabulary_ m))
             = LM.vocabulary_ m).
  { intros f. rewrite map_map. simpl. apply map_id. }
  destruct (LM.child_ m) as [c|].
  - destruct (Rltb 0 (LM.recursive m) && negb (Nat.eqb (LM.order m) 0)).
    + destruct (LM.get_counts c context) as [counts c'].
      cbn [fst]. rewrite series_iadd_labels. apply Hf.
    + apply Hf.
  - apply Hf.
Qed.

Lemma lang_proba_eq m context :
  lang_proba m context =
  series_div (LM.get_counts m context).1 (series_sum (LM.get_counts m context).1).
Proof.
  unfold lang_proba, LM.predict_proba.
  destruct (LM.get_counts m context). reflexivity.
Qed.

Lemma predict_proba_state m context :
  (LM.predict_proba m context).2 = (LM.get_counts m context).2.
Proof. unfold LM.predict_proba. destruct (LM.get_counts m context). reflexivity. Qed.

Lemma lang_proba_labels m context :
  map fst (lang_proba m context) = LM.vocabulary_ m.
Proof. rewrite lang_proba_eq, series_div_labels. apply get_counts_labels. Qed.

Lemma lang_proba_respects m m' context :
  lang_equiv m m' -> lang_proba m context = lang_proba m' context.
Proof.
  intros He. rewrite !lang_proba_eq.
  rewrite (get_counts_respects m m' context He). reflexivity.
Qed.

Lemma predict_proba_equiv m context :
  lang_equiv m (LM.predict_proba m context).2.
Proof. rewrite predict_proba_state. apply get_counts_equiv. Qed.

Lemma lang_equiv_vocabulary m m' :
  lang_equiv m m' -> LM.vocabulary_ m = LM.vocabulary_ m'.
Proof. intros He. apply lang_equiv_unfold in He. tauto. Qed.

Lemma lang_loop_spec tokens : forall m0 m context res,
  lang_equiv m0 m ->
  (LM.single_log_proba_loop m context tokens res).1
    = lang_log_terms m0 context tokens res /\
  lang_equiv m0 (LM.single_log_proba_loop m context tokens res).2.
Proof.
  induction tokens as [|token rest IH]; intros m0 m context res He;
    cbn [LM.single_log_proba_loop lang_log_terms].
  - split; [reflexivity | assumption].
  - pose proof (predict_proba_equiv m context) as Hs.
    pose proof (lang_proba_respects m0 m context He) as Hv.
    unfold lang_proba in Hv at 2.
    destruct (LM.predict_proba m context) as [proba m1].
    cbn [fst snd] in *. subst proba.
    assert (He1 : lang_equiv m0 m1) by (eapply lang_equiv_trans; eassumption).
    destruct (series_get (lang_proba m0 context) token) as [p|e].
    + apply IH. assumption.
    + split; [reflexivity | assumption].
Qed.

Lemma lang_single_log_proba_spec m context continuation :
  (LM.single_log_proba m context continuation).1
    = lang_log_terms m context (chars continuation) 0 /\
  lang_equiv m (LM.single_log_proba m context continuation).2.
Proof. apply lang_loop_spec, lang_equiv_refl. Qed.

(** [lang_log_terms] succeeds exactly on symbols of the vocabulary, and
    its only exception is [KeyError] *)
Lemma lang_log_terms_ok m tokens : forall context res,
  Forall (fun c => c ∈ LM.vocabulary_ m) tokens ->
  exists v, lang_log_terms m context tokens res = Ok v.
Proof.
  induction tokens as [|token rest IH]; intros context res Hall; simpl.
  - eauto.
  - inversion Hall as [|? ? Hin Hrest]; subst.
    rewrite <- (lang_proba_labels m context) in Hin.
    destruct (series_get_in _ _ Hin) as (v & -> & _). apply IH. assumption.
Qed.

Lemma lang_log_terms_raises m tokens : forall context res,
  ~ Forall (fun c => c ∈ LM.vocabulary_ m) tokens ->
  lang_log_terms m context tokens res = Raise KeyError.
Proof.
  induction tokens as [|token rest IH]; intros context res Hn; simpl.
  - exfalso. apply Hn. constructor.
  - destruct (series_get (lang_proba m context) token) as [p|e] eqn:E.
    + apply IH. intros Hall. apply Hn. constructor; [|assumption].
      apply series_get_ok_in in E.
      rewrite <- (lang_proba_labels m context).
      eapply series_label_in. eassumption.
    + apply series_get_raises in E. destruct E as [-> _]. reflexivity.
Qed.

Lemma lang_fit_fields o s r corpus :
  LM.order (LM.fit o s r corpus) = o /\
  LM.smoothing (LM.fit o s r corpus) = s /\
  LM.recursive (LM.fit o s r corpus) = r /\
  LM.counter_ (LM.fit o s r corpus)
    = (LM.fit_loop corpus o 0 (chars (drop_str o corpus)) ∅ ∅ ∅).1.1 /\
  LM.vocabulary_ (LM.fit o s r corpus)
    = sorted_symbols (LM.fit_loop corpus o 0 (chars (drop_str o corpus)) ∅ ∅ ∅).2 /\
  LM.child_ (LM.fit o s r corpus)
    = match o with
      | O => None
      | S o' => if Rltb 0 r then Some (LM.fit o' s r corpus) else None
      end.
Proof.
  destruct o; simpl;
    destruct (LM.fit_loop corpus _ 0 _ ∅ ∅ ∅) as [[? ?] ?]; repeat split.
Qed.

Lemma lang_fit_vocabulary o s r corpus :
  LM.vocabulary_ (LM.fit o s r corpus)
    = sorted_symbols (LM.fit_loop corpus o 0 (chars (drop_str o corpus)) ∅ ∅ ∅).2.
Proof. apply lang_fit_fields. Qed.

(** ** The monad of the search *)

Lemma bind_ok {A B} (c : M A) (k : A -> M B) st a st' :
  c st = (Ok a, st') -> bind c k st = k a st'.
Proof. unfold bind. intros ->. reflexivity. Qed.

Lemma bind_raise {A B} (c : M A) (k : A -> M B) st e st' :
  c st = (Raise e, st') -> bind c k st = (Raise e, st').
Proof. unfold bind. intros ->. reflexivity. Qed.

Lemma bind_raise_fst {A B} (c : M A) (k : A -> M B) st e :
  (c st).1 = Raise e -> (bind c k st).1 = Raise e.
Proof. unfold bind. destruct (c st) as [[a|e'] st']; simpl; congruence. Qed.

Lemma with_lang_fst {A} (f : LM.t -> result A * LM.t) st :
  (with_lang f st).1 = (f st.1).1.
Proof. unfold with_lang. destruct (f st.1). reflexivity. Qed.

Lemma with_lang_snd {A} (f : LM.t -> result A * LM.t) st :
  (with_lang f st).2 = ((f st.1).2, st.2).
Proof. unfold with_lang. destruct (f st.1). reflexivity. Qed.

Lemma with_missed_eq {A} (f : MissingLetterModel.t -> A * MissingLetterModel.t) st :
  with_missed f st = (Ok (f st.2).1, (st.1, (f st.2).2)).
Proof. unfold with_missed. destruct (f st.2). reflexivity. Qed.

Lemma chars_snoc w c : chars (snoc_str w c) = chars w ++ [c].
Proof. induction w as [|a w IH]; simpl; [reflexivity|]. unfold snoc_str in IH. rewrite IH. reflexivity. Qed.

(** ** C9: a symbol outside the vocabulary *)

(** C9. When the word holds a symbol that is not in the vocabulary of the
    language model, [noisy_channel] raises [KeyError] (from the lookup in
    the series of [predict_proba], while the baseline is computed) and
    returns no result mapping. *)
Theorem C9_unknown_symbol_raises_KeyError :
  forall (st : Store) (word : string) (freedom : R) (max_attempts : nat)
         (optimism : R) (c : ascii),
    c ∈ chars word ->
    c ∉ LM.vocabulary_ st.1 ->
    (noisy_channel word freedom max_attempts optimism st).1 = Raise KeyError.
Proof.
  intros st word freedom max_attempts optimism c Hin Hout.
  unfold noisy_channel. apply bind_raise_fst.
  unfold baseline. apply bind_raise_fst.
  rewrite with_lang_fst.
  rewrite (proj1 (lang_single_log_proba_spec _ _ _)).
  apply lang_log_terms_raises.
  rewrite chars_snoc. intros Hall.
  apply Forall_app in Hall. destruct Hall as [Hall _].
  rewrite Forall_forall in Hall. apply Hout. apply Hall. assumption.
Qed.

Lemma abracadabra_vocabulary :
  LM.vocabulary_ abracadabra_lang
  = [" "; "a"; "b"; "c"; "d"; "r"]%char.
Proof.
  unfold abracadabra_lang. rewrite lang_fit_vocabulary.
  vm_compute. reflexivity.
Defined.

Lemma C9_unknown_symbol_witness :
  (noisy_channel "bxc" 2 1000 (1/2) abracadabra_store).1 = Raise KeyError.
Proof.
  apply (C9_unknown_symbol_raises_KeyError abracadabra_store "bxc" 2 1000 (1/2) "x"%char).
  - vm_compute. right. left.
  - unfold abracadabra_store. cbn [fst]. rewrite abracadabra_vocabulary.
    intros H.
    repeat (apply elem_of_cons in H; destruct H as [H|H]; [discriminate|]).
    inversion H.
Defined.

(** ** C10: the first symbol of the suffix *)

Lemma only_KeyError_ret {A} (a : A) : only_KeyError (ret a).
Proof. intros st e H. discriminate. Qed.

Lemma only_KeyError_raise {A} : only_KeyError (@raise A KeyError).
Proof. intros st e H. simpl in H. congruence. Qed.

Lemma only_KeyError_bind {A B} (c : M A) (k : A -> M B) :
  only_KeyError c -> (forall a, only_KeyError (k a)) -> only_KeyError (bind c k).
Proof.
  intros Hc Hk st e. unfold bind.
  specialize (Hc st). destruct (c st) as [[a|e'] st']; simpl in *.
  - apply Hk.
  - intros [= <-]. apply Hc. reflexivity.
Qed.

Lemma only_KeyError_with_missed {A} (f : MissingLetterModel.t -> A * MissingLetterModel.t) :
  only_KeyError (with_missed f).
Proof. intros st e. rewrite with_missed_eq. discriminate. Qed.

Lemma lang_log_terms_only_KeyError m tokens : forall context res e,
  lang_log_terms m context tokens res = Raise e -> e = KeyError.
Proof.
  induction tokens as [|token rest IH]; intros context res e; simpl.
  - discriminate.
  - destruct (series_get (lang_proba m context) token) as [p|e'] eqn:E.
    + apply IH.
    + intros [= <-]. apply series_get_raises in E. tauto.
Qed.

Lemma single_proba_fst m context continuation :
  (LM.single_proba m context continuation).1 =
  match lang_log_terms m context (chars continuation) 0 with
  | Ok v => Ok (exp v)
  | Raise e => Raise e
  end.
Proof.
  unfold LM.single_proba.
  rewrite <- (proj1 (lang_single_log_proba_spec m context continuation)).
  destruct (LM.single_log_proba m context continuation) as [[v|e] m']; reflexivity.
Qed.

Lemma single_proba_snd m context continuation :
  (LM.single_proba m context continuation).2
  = (LM.single_log_proba m context continuation).2.
Proof.
  unfold LM.single_proba.
  destruct (LM.single_log_proba m context continuation) as [[v|e] m']; reflexivity.
Qed.

Lemma only_KeyError_single_proba context continuation :
  only_KeyError (with_lang (fun m => LM.single_proba m context continuation)).
Proof.
  intros st e. rewrite with_lang_fst, single_proba_fst.
  destruct (lang_log_terms _ _ _ _) as [v|e'] eqn:E; [discriminate|].
  intros [= <-]. eapply lang_log_terms_only_KeyError. eassumption.
Qed.

Lemma only_KeyError_single_log_proba context continuation :
  only_KeyError (with_lang (fun m => LM.single_log_proba m context continuation)).
Proof.
  intros st e. rewrite with_lang_fst.
  rewrite (proj1 (lang_single_log_proba_spec _ _ _)).
  apply lang_log_terms_only_KeyError.
Qed.

Lemma only_KeyError_cache_get cache n : only_KeyError (cache_get cache n).
Proof.
  unfold cache_get. destruct (cache !! n).
  - apply only_KeyError_ret.
  - apply only_KeyError_raise.
Qed.

Create HintDb keyerror.
#[local] Hint Resolve only_KeyError_ret only_KeyError_raise
  only_KeyError_with_missed only_KeyError_single_proba
  only_KeyError_single_log_proba only_KeyError_cache_get : keyerror.

Ltac only_KeyError_step :=
  first [ apply only_KeyError_bind; [| intros ?]
        | solve [eauto with keyerror] ].

(** [generate_option] can raise [IndexError] only for the final [''] of the
    loop and an empty suffix *)
Lemma only_KeyError_generate_option prefix_proba prefix suffix optimism cache letter :
  (letter = None -> suffix <> EmptyString) ->
  only_KeyError (generate_option prefix_proba prefix suffix optimism cache letter).
Proof.
  intros Hs. unfold generate_option.
  apply only_KeyError_bind.
  - destruct letter as [c|].
    + repeat only_KeyError_step.
    + destruct suffix as [|c new_suffix]; [exfalso; apply Hs; reflexivity|].
      repeat only_KeyError_step.
  - intros [[[[next_letter new_suffix] new_prefix] letter_str] pms].
    apply only_KeyError_bind; [eauto with keyerror|]. intros p_next.
    apply only_KeyError_bind; [|intros ?; eauto with keyerror].
    destruct (cache_truthy cache); repeat only_KeyError_step.
Qed.

Lemma only_KeyError_generate_options_loop prefix_proba prefix suffix optimism cache letters :
  suffix <> EmptyString ->
  forall options,
  only_KeyError (generate_options_loop prefix_proba prefix suffix optimism cache
                   letters options).
Proof.
  intros Hs. induction letters as [|letter rest IH]; intros options; simpl.
  - apply only_KeyError_ret.
  - apply only_KeyError_bind.
    + apply only_KeyError_generate_option. intros _. assumption.
    + intros o. apply IH.
Qed.

Lemma only_KeyError_generate_options prefix_proba prefix suffix optimism cache :
  suffix <> EmptyString ->
  only_KeyError (generate_options prefix_proba prefix suffix optimism cache).
Proof.
  intros Hs st e. unfold generate_options.
  apply only_KeyError_generate_options_loop. assumption.
Qed.

Lemma is_empty_str_false s : is_empty_str s = false -> s <> EmptyString.
Proof. destruct s; [discriminate | intros _; discriminate]. Qed.

Lemma only_KeyError_search_loop freedom optimism cache attempts :
  forall heap candidates best_logprob,
  only_KeyError (search_loop freedom optimism cache attempts heap candidates
                   best_logprob).
Proof.
  induction attempts as [|n IH]; intros heap candidates best; simpl.
  - apply only_KeyError_ret.
  - destruct (heappop heap) as [[next_best heap']|]; [|apply only_KeyError_ret].
    destruct (is_empty_str (h_suffix next_best)) eqn:E.
    + destruct (Rleb _ _); apply IH.
    + apply only_KeyError_bind.
      * apply only_KeyError_generate_options, is_empty_str_false, E.
      * intros new_options. apply IH.
Qed.

Lemma only_KeyError_build_cache query indices :
  forall cache, only_KeyError (build_cache query indices cache).
Proof.
  induction indices as [|i rest IH]; intros cache; simpl.
  - apply only_KeyError_ret.
  - repeat only_KeyError_step.
Qed.

Lemma only_KeyError_noisy_channel word freedom max_attempts optimism :
  only_KeyError (noisy_channel word freedom max_attempts optimism).
Proof.
  unfold noisy_channel.
  apply only_KeyError_bind.
  { unfold baseline. repeat only_KeyError_step. }
  intros best. apply only_KeyError_bind; [apply only_KeyError_build_cache|].
  intros cache. apply only_KeyError_bind; [apply only_KeyError_search_loop|].
  intros [[heap' candidates'] best']. apply only_KeyError_ret.
Qed.

(** one round of the loop on a leaf: the node is accepted or dropped, and
    [generate_options] is not called *)
Lemma search_loop_leaf freedom optimism cache attempts heap candidates best
    next_best heap' :
  heappop heap = Some (next_best, heap') ->
  h_suffix next_best = EmptyString ->
  search_loop freedom optimism cache (S attempts) heap candidates best =
  if Rleb (h_proba next_best) (best + freedom)
  then search_loop freedom optimism cache attempts heap'
         (candidates ++ [next_best])
         (if Rltb (h_proba next_best) best then h_proba next_best else best)
  else search_loop freedom optimism cache attempts heap' candidates best.
Proof. intros Hpop Hs. simpl. rewrite Hpop, Hs. reflexivity. Qed.

(** C10. Reading [suffix[0]] in [generate_options] raises [IndexError] on an
    empty suffix; [noisy_channel] never raises it, for any models, word and
    parameters: the loop expands a popped node only in the branch where its
    suffix is not [''], and a node with an empty suffix is treated as a leaf. *)
Theorem C10_noisy_channel_never_reads_empty_suffix :
  (forall prefix_proba prefix optimism cache st,
     (generate_option prefix_proba prefix EmptyString optimism cache None st).1
       = Raise IndexError) /\
  (forall word freedom max_attempts optimism st,
     (noisy_channel word freedom max_attempts optimism st).1 <> Raise IndexError).
Proof.
  split.
  - intros. reflexivity.
  - intros word freedom max_attempts optimism st H.
    apply only_KeyError_noisy_channel in H. discriminate.
Qed.

(** ** Running the search on a store *)

Lemma store_equiv_refl st : store_equiv st st.
Proof. split; [apply lang_equiv_refl | apply missed_equiv_refl]. Qed.

Lemma store_equiv_trans st1 st2 st3 :
  store_equiv st1 st2 -> store_equiv st2 st3 -> store_equiv st1 st3.
Proof.
  intros [A1 A2] [B1 B2].
  split; [eapply lang_equiv_trans | eapply missed_equiv_trans]; eassumption.
Qed.

Lemma returns_ret {A} st0 (a : A) : returns st0 (ret a) a.
Proof. intros st He. exists st. split; [reflexivity | assumption]. Qed.

Lemma returns_bind {A B} st0 (c : M A) (k : A -> M B) a b :
  returns st0 c a -> returns st0 (k a) b -> returns st0 (bind c k) b.
Proof.
  intros Hc Hk st He. destruct (Hc st He) as (st1 & E1 & He1).
  destruct (Hk st1 He1) as (st2 & E2 & He2).
  exists st2. split; [|assumption]. rewrite (bind_ok _ _ _ _ _ E1). assumption.
Qed.

Lemma returns_predict_missed st0 context letter :
  returns st0
    (with_missed (fun m => MissingLetterModel.predict_proba m context letter))
    (p_del st0.2 context letter).
Proof.
  intros st [He1 He2]. rewrite with_missed_eq. eexists. split.
  - fold (p_del st.2 context letter).
    rewrite <- (p_del_equiv _ _ context letter He2). reflexivity.
  - split; [assumption|]. cbn [fst snd].
    eapply missed_equiv_trans; [eassumption | apply missed_predict_proba_equiv].
Qed.

Lemma returns_missed_single_log_proba st0 context continuation actual :
  returns st0
    (with_missed (fun m =>
       MissingLetterModel.single_log_proba m context continuation actual))
    (MissingLetterModel.single_log_proba st0.2 context continuation actual).1.
Proof.
  intros st [He1 He2]. rewrite with_missed_eq. eexists. split.
  - unfold MissingLetterModel.single_log_proba.
    rewrite (proj1 (missed_loop_spec _ st0.2 st.2 _ _ He2)).
    rewrite (proj1 (missed_loop_spec _ st0.2 st0.2 _ _ (missed_equiv_refl _))).
    reflexivity.
  - split; [assumption|]. cbn [fst snd].
    apply missed_loop_spec. assumption.
Qed.

Lemma returns_lang_single_log_proba st0 context continuation v :
  lang_log_terms st0.1 context (chars continuation) 0 = Ok v ->
  returns st0
    (with_lang (fun m => LM.single_log_proba m context continuation)) v.
Proof.
  intros Hv st [He1 He2].
  pose proof (lang_loop_spec (chars continuation) st0.1 st.1 context 0%R He1) as [E1 E2].
  exists (with_lang (fun m => LM.single_log_proba m context continuation) st).2.
  split.
  - apply injective_projections; cbn [fst snd]; [|reflexivity].
    rewrite with_lang_fst. unfold LM.single_log_proba. rewrite E1. assumption.
  - rewrite with_lang_snd. split; assumption.
Qed.

Lemma returns_lang_single_proba st0 context continuation v :
  lang_log_terms st0.1 context (chars continuation) 0 = Ok v ->
  returns st0
    (with_lang (fun m => LM.single_proba m context continuation)) (exp v).
Proof.
  intros Hv st [He1 He2].
  pose proof (lang_loop_spec (chars continuation) st0.1 st.1 context 0%R He1) as [E1 E2].
  exists (with_lang (fun m => LM.single_proba m context continuation) st).2.
  split.
  - apply injective_projections; cbn [fst snd]; [|reflexivity].
    rewrite with_lang_fst, single_proba_fst.
    rewrite <- (proj1 (lang_single_log_proba_spec _ _ _)).
    unfold LM.single_log_proba. rewrite E1, Hv. reflexivity.
  - rewrite with_lang_snd, single_proba_snd. split; assumption.
Qed.

Lemma returns_cache_get st0 (cache : Cache) n v :
  cache !! n = Some v -> returns st0 (cache_get cache n) v.
Proof. intros E. unfold cache_get. rewrite E. apply returns_ret. Qed.

(** a symbol of the vocabulary has an entry in [predict_proba] *)
Lemma lang_one_symbol lang context c :
  c ∈ LM.vocabulary_ lang ->
  lang_log_terms lang context (chars (String c EmptyString)) 0
    = Ok (0 + ln (next_proba lang context c))%R.
Proof.
  intros Hin. simpl. unfold next_proba.
  rewrite <- (lang_proba_labels lang context) in Hin.
  destruct (series_get_in _ _ Hin) as (v & -> & _). reflexivity.
Qed.

(** ** C3: the children of a node *)

Lemma cache_truthy_some (cache : Cache) n v :
  cache !! n = Some v -> cache_truthy (Some cache) = Some cache.
Proof.
  intros E. unfold cache_truthy.
  destruct (decide (cache = ∅)) as [->|]; [|reflexivity].
  rewrite lookup_empty in E. discriminate.
Qed.

Lemma returns_generate_option_deleted st0 prefix_proba prefix suffix optimism
    (cache : Cache) c v :
  c ∈ LM.vocabulary_ st0.1 ->
  cache !! String.length suffix = Some v ->
  returns st0
    (generate_option prefix_proba prefix suffix optimism (Some cache) (Some c))
    (Hyp (prefix_proba + deletion_cost st0 prefix c + v * optimism)
         (snoc_str prefix c) suffix (Some (String c EmptyString)) (v * optimism)).
Proof.
  intros Hin Hc. unfold generate_option.
  eapply returns_bind.
  { eapply returns_bind; [apply returns_predict_missed | apply returns_ret]. }
  cbv beta iota.
  eapply returns_bind.
  { apply returns_lang_single_proba, lang_one_symbol, Hin. }
  rewrite (cache_truthy_some _ _ _ Hc).
  eapply returns_bind.
  { eapply returns_bind; [apply returns_cache_get, Hc | apply returns_ret]. }
  replace (Hyp (prefix_proba + deletion_cost st0 prefix c + v * optimism)
             (snoc_str prefix c) suffix (Some (String c EmptyString)) (v * optimism))
    with (Hyp (prefix_proba + - ln (exp (0 + ln (next_proba st0.1 prefix c)))
               + - ln (p_del st0.2 prefix c) + v * optimism)
            (snoc_str prefix c) suffix (Some (String c EmptyString)) (v * optimism)).
  { apply returns_ret. }
  f_equal. unfold deletion_cost. rewrite ln_exp. lra.
Qed.

Lemma returns_generate_option_kept st0 prefix_proba prefix c new_suffix optimism
    (cache : Cache) v :
  c ∈ LM.vocabulary_ st0.1 ->
  cache !! String.length new_suffix = Some v ->
  returns st0
    (generate_option prefix_proba prefix (String c new_suffix) optimism
       (Some cache) None)
    (Hyp (prefix_proba + keep_cost st0 prefix c + v * optimism)
         (snoc_str prefix c) new_suffix (Some EmptyString) (v * optimism)).
Proof.
  intros Hin Hc. unfold generate_option.
  eapply returns_bind.
  { eapply returns_bind; [apply returns_predict_missed | apply returns_ret]. }
  cbv beta iota.
  eapply returns_bind.
  { apply returns_lang_single_proba, lang_one_symbol, Hin. }
  rewrite (cache_truthy_some _ _ _ Hc).
  eapply returns_bind.
  { eapply returns_bind; [apply returns_cache_get, Hc | apply returns_ret]. }
  replace (Hyp (prefix_proba + keep_cost st0 prefix c + v * optimism)
             (snoc_str prefix c) new_suffix (Some EmptyString) (v * optimism))
    with (Hyp (prefix_proba + - ln (exp (0 + ln (next_proba st0.1 prefix c)))
               + - ln (1 - p_del st0.2 prefix c) + v * optimism)
            (snoc_str prefix c) new_suffix (Some EmptyString) (v * optimism)).
  { apply returns_ret. }
  f_equal. unfold keep_cost. rewrite ln_exp. lra.
Qed.

Lemma returns_generate_options_loop st0 prefix_proba prefix c new_suffix optimism
    (cache : Cache) v v' :
  c ∈ LM.vocabulary_ st0.1 ->
  cache !! String.length (String c new_suffix) = Some v ->
  cache !! String.length new_suffix = Some v' ->
  forall letters options,
  Forall (fun a => a ∈ LM.vocabulary_ st0.1) letters ->
  returns st0
    (generate_options_loop prefix_proba prefix (String c new_suffix) optimism
       (Some cache) (map Some letters ++ [None]) options)
    (options ++
     map (deleted_child st0 prefix_proba prefix (String c new_suffix) optimism v)
         letters ++
     [kept_child st0 prefix_proba prefix new_suffix optimism v' c]).
Proof.
  intros Hin Hv Hv'. induction letters as [|a rest IH]; intros options Hall.
  - simpl. eapply returns_bind.
    + apply returns_generate_option_kept; eassumption.
    + apply returns_ret.
  - inversion Hall as [|? ? Ha Hrest]; subst. simpl.
    eapply returns_bind.
    + apply returns_generate_option_deleted; eassumption.
    + replace (options ++ deleted_child st0 prefix_proba prefix (String c new_suffix) optimism v a
                 :: map (deleted_child st0 prefix_proba prefix (String c new_suffix) optimism v) rest
                 ++ [kept_child st0 prefix_proba prefix new_suffix optimism v' c])
        with ((options ++ [deleted_child st0 prefix_proba prefix (String c new_suffix) optimism v a])
                ++ map (deleted_child st0 prefix_proba prefix (String c new_suffix) optimism v) rest
                ++ [kept_child st0 prefix_proba prefix new_suffix optimism v' c])
        by (rewrite <- app_assoc; reflexivity).
      apply IH. assumption.
Qed.

Lemma returns_generate_options st0 prefix_proba prefix c new_suffix optimism
    (cache : Cache) v v' :
  c ∈ LM.vocabulary_ st0.1 ->
  cache !! String.length (String c new_suffix) = Some v ->
  cache !! String.length new_suffix = Some v' ->
  returns st0
    (generate_options prefix_proba prefix (String c new_suffix) optimism (Some cache))
    (map (deleted_child st0 prefix_proba prefix (String c new_suffix) optimism v)
         (LM.vocabulary_ st0.1) ++
     [kept_child st0 prefix_proba prefix new_suffix optimism v' c]).
Proof.
  intros Hin Hv Hv' st He. unfold generate_options.
  rewrite <- (lang_equiv_vocabulary _ _ (proj1 He)).
  apply (returns_generate_options_loop st0 prefix_proba prefix c new_suffix
           optimism cache v v' Hin Hv Hv' (LM.vocabulary_ st0.1) []); [|assumption].
  apply Forall_forall. auto.
Qed.

Lemma sorted_symbols_NoDup (s : gset ascii) : NoDup (sorted_symbols s).
Proof.
  unfold sorted_symbols.
  rewrite (merge_sort_Permutation ascii_le (elements s)).
  apply NoDup_elements.
Qed.

Lemma sorted_symbols_elem (s : gset ascii) c : c ∈ sorted_symbols s <-> c ∈ s.
Proof.
  unfold sorted_symbols.
  rewrite (merge_sort_Permutation ascii_le (elements s)).
  apply elem_of_elements.
Qed.

(** one round of the loop of [noisy_channel] on a node that is not a leaf *)
Lemma search_loop_expand freedom optimism cache attempts heap candidates best
    parent heap' :
  heappop heap = Some (parent, heap') ->
  h_suffix parent <> EmptyString ->
  search_loop freedom optimism cache (S attempts) heap candidates best =
  (new_options <-
     generate_options (h_proba parent - h_proba_suffix parent) (h_prefix parent)
       (h_suffix parent) optimism (Some cache) ;;
   search_loop freedom optimism cache attempts
     (push_options best freedom new_options heap') candidates best).
Proof.
  intros Hpop Hs. simpl. rewrite Hpop.
  destruct (h_suffix parent); [contradiction | reflexivity].
Qed.

(** ** C5 and C7: probabilities *)

Lemma Rltb_true x y : Rltb x y = true <-> (x < y)%R.
Proof. unfold Rltb. destruct (Rlt_dec x y); split; intros; try discriminate; tauto. Qed.

Lemma Rltb_false x y : Rltb x y = false <-> ~ (x < y)%R.
Proof. unfold Rltb. destruct (Rlt_dec x y); split; intros; try discriminate; tauto. Qed.

Lemma Rleb_true x y : Rleb x y = true <-> (x <= y)%R.
Proof. unfold Rleb. destruct (Rle_dec x y); split; intros; try discriminate; tauto. Qed.

Lemma Rleb_false x y : Rleb x y = false <-> ~ (x <= y)%R.
Proof. unfold Rleb. destruct (Rle_dec x y); split; intros; try discriminate; tauto. Qed.

Lemma positive_series_scale s k :
  positive_series s -> (0 < k)%R -> positive_series (series_scale s k).
Proof.
  unfold positive_series, series_scale. intros Hs Hk.
  induction Hs as [|[t v] s Hv Hs IH]; simpl; constructor; [|assumption].
  simpl in *. apply Rmult_lt_0_compat; assumption.
Qed.

Lemma positive_series_get s token v :
  positive_series s -> series_get s token = Ok v -> (0 < v)%R.
Proof.
  intros Hs Hg. apply series_get_ok_in in Hg.
  unfold positive_series in Hs. rewrite Forall_forall in Hs.
  apply (Hs (token, v)). assumption.
Qed.

Lemma positive_series_iadd s other :
  positive_series s -> positive_series other ->
  positive_series (series_iadd s other).
Proof.
  unfold series_iadd. intros Hs Ho.
  induction Hs as [|[t v] s Hv Hs IH]; simpl; constructor; [|assumption].
  simpl in *. destruct (series_get other t) as [w|e] eqn:E; [|assumption].
  pose proof (positive_series_get _ _ _ Ho E). lra.
Qed.

Lemma series_sum_cons t v (s : Series) :
  series_sum ((t, v) :: s) = (v + series_sum s)%R.
Proof. reflexivity. Qed.

Lemma positive_series_sum_nonneg s : positive_series s -> (0 <= series_sum s)%R.
Proof.
  intros Hs. induction Hs as [|[t v] s Hv Hs IH].
  - unfold series_sum. simpl. lra.
  - rewrite series_sum_cons. cbn [snd] in Hv. lra.
Qed.

Lemma positive_series_sum s : positive_series s -> s <> [] -> (0 < series_sum s)%R.
Proof.
  intros Hs Hne. destruct Hs as [|[t v] s Hv Hs]; [contradiction|].
  rewrite series_sum_cons. cbn [snd] in Hv.
  pose proof (positive_series_sum_nonneg s Hs). lra.
Qed.

Lemma series_sum_div s k : series_sum (series_div s k) = (series_sum s / k)%R.
Proof.
  induction s as [|[t v] s IH].
  - unfold series_sum. simpl. lra.
  - change (series_div ((t, v) :: s) k) with ((t, (v / k)%R) :: series_div s k).
    rewrite !series_sum_cons, IH. lra.
Qed.

Lemma positive_series_div s k :
  positive_series s -> (0 < k)%R -> positive_series (series_div s k).
Proof.
  unfold positive_series, series_div. intros Hs Hk.
  induction Hs as [|[t v] s Hv Hs IH]; simpl; constructor; [|assumption].
  simpl in *. apply Rdiv_lt_0_compat; assumption.
Qed.

(** the smoothed counts of a fitted model are strictly positive *)
Lemma fit_counts_positive s r corpus context :
  (0 < s)%R ->
  forall o, positive_series (LM.get_counts (LM.fit o s r corpus) context).1.
Proof.
  intros Hs o. induction o as [|o IH].
  - rewrite get_counts_eq. cbv zeta.
    destruct (lang_fit_fields 0 s r corpus) as (E1 & E2 & E3 & E4 & E5 & E6).
    rewrite E6. destruct (table_get _ _) as [fd ct]. cbn [fst].
    rewrite E2. apply Forall_forall. intros [t v] Hin.
    apply list_elem_of_fmap in Hin. destruct Hin as (a & [= -> ->] & _).
    cbn [snd]. pose proof (pos_INR (counter_get fd a)). lra.
  - rewrite get_counts_eq. cbv zeta.
    destruct (lang_fit_fields (S o) s r corpus) as (E1 & E2 & E3 & E4 & E5 & E6).
    rewrite E6, E1, E2, E3. destruct (table_get _ _) as [fd ct].
    assert (Hf : positive_series
                   (map (fun token => (token, (INR (counter_get fd token) + s)%R))
                        (LM.vocabulary_ (LM.fit (S o) s r corpus)))).
    { apply Forall_forall. intros [t v] Hin.
      apply list_elem_of_fmap in Hin. destruct Hin as (a & [= -> ->] & _).
      cbn [snd]. pose proof (pos_INR (counter_get fd a)). lra. }
    destruct (Rltb 0 r) eqn:Er; cbn [andb negb Nat.eqb]; [|exact Hf].
    destruct (LM.get_counts (LM.fit o s r corpus) context) as [counts c'].
    cbn [fst] in *. apply positive_series_iadd; [exact Hf|].
    apply positive_series_scale; [assumption|]. apply Rltb_true. assumption.
Qed.

(** *** The vocabulary of a fitted model *)

Lemma fit_loop_vocab corpus o tokens : forall i ct u (v : gset ascii) c,
  c ∈ (LM.fit_loop corpus o i tokens ct u v).2 <-> c ∈ v \/ c ∈ tokens.
Proof.
  induction tokens as [|t rest IH]; intros i ct u v c; simpl.
  - split; [auto | intros [H|H]; [assumption | inversion H]].
  - rewrite IH. rewrite elem_of_union, elem_of_singleton, elem_of_cons. tauto.
Qed.

Lemma fit_vocabulary_elem o s r corpus c :
  c ∈ LM.vocabulary_ (LM.fit o s r corpus) <-> c ∈ chars (drop_str o corpus).
Proof.
  rewrite lang_fit_vocabulary, sorted_symbols_elem, fit_loop_vocab.
  rewrite elem_of_empty. tauto.
Qed.

Lemma chars_drop_str_S o : forall corpus c,
  c ∈ chars (drop_str (S o) corpus) -> c ∈ chars (drop_str o corpus).
Proof.
  induction o as [|o IH]; intros corpus c.
  - destruct corpus as [|a corpus]; simpl; [auto|]. intros H. right. assumption.
  - destruct corpus as [|a corpus]; [simpl; auto|].
    change (drop_str (S (S o)) (String a corpus)) with (drop_str (S o) corpus).
    change (drop_str (S o) (String a corpus)) with (drop_str o corpus).
    apply IH.
Qed.

(** the index of the child's counts holds every label of the parent's *)
Lemma fit_child_vocabulary o s r corpus c :
  c ∈ LM.vocabulary_ (LM.fit (S o) s r corpus) ->
  c ∈ LM.vocabulary_ (LM.fit o s r corpus).
Proof. rewrite !fit_vocabulary_elem. apply chars_drop_str_S. Qed.

Lemma chars_drop_str_nonempty o : forall corpus,
  (o < String.length corpus)%nat -> chars (drop_str o corpus) <> [].
Proof.
  induction o as [|o IH]; intros corpus Hlen.
  - destruct corpus; simpl in *; [lia | discriminate].
  - destruct corpus as [|a corpus]; simpl in *; [lia|]. apply IH. lia.
Qed.

Lemma fit_vocabulary_nonempty o s r corpus :
  (o < String.length corpus)%nat -> LM.vocabulary_ (LM.fit o s r corpus) <> [].
Proof.
  intros Hlen Hnil. pose proof (chars_drop_str_nonempty o corpus Hlen) as Hne.
  destruct (chars (drop_str o corpus)) as [|c l] eqn:E; [contradiction|].
  assert (Hin : c ∈ LM.vocabulary_ (LM.fit o s r corpus)).
  { apply fit_vocabulary_elem. rewrite E. left. }
  rewrite Hnil in Hin. inversion Hin.
Qed.

Lemma map_fst_nil (s : Series) : map fst s = [] -> s = [].
Proof. destruct s; [reflexivity | discriminate]. Qed.

(** C5 (as amended). For a language model with [smoothing > 0] fitted on a
    corpus that has more symbols than [order], in the state left by any
    calls, and for every context: the values of [predict_proba(context)] sum
    to 1 and each of them is strictly positive. *)
Theorem C5_predict_proba_is_a_distribution :
  forall (o : nat) (s r : R) (corpus : string) (m : LM.t) (context : string),
    (0 < s)%R ->
    (o < String.length corpus)%nat ->
    lang_equiv (LM.fit o s r corpus) m ->
    series_sum (LM.predict_proba m context).1 = 1%R /\
    (forall token p, (token, p) ∈ (LM.predict_proba m context).1 -> (0 < p)%R) /\
    map fst (LM.predict_proba m context).1 = LM.vocabulary_ m.
Proof.
  intros o s r corpus m context Hs Hlen He.
  fold (lang_proba m context).
  rewrite <- (lang_proba_respects _ _ context He).
  rewrite <- (lang_equiv_vocabulary _ _ He).
  pose proof (fit_counts_positive s r corpus context Hs o) as Hpos.
  pose proof (fit_vocabulary_nonempty o s r corpus Hlen) as Hne.
  assert (Hne' : (LM.get_counts (LM.fit o s r corpus) context).1 <> []).
  { intros Hnil. apply Hne. rewrite <- (get_counts_labels _ context), Hnil.
    reflexivity. }
  pose proof (positive_series_sum _ Hpos Hne') as Hsum.
  split; [|split].
  - rewrite lang_proba_eq, series_sum_div. field. lra.
  - intros token p Hin. rewrite lang_proba_eq in Hin.
    pose proof (positive_series_div _ _ Hpos Hsum) as Hd.
    unfold positive_series in Hd. rewrite Forall_forall in Hd.
    apply (Hd (token, p)). assumption.
  - apply lang_proba_labels.
Qed.

Lemma C5_predict_proba_witness :
  series_sum (LM.predict_proba abracadabra_lang " bra").1 = 1%R.
Proof.
  apply (C5_predict_proba_is_a_distribution 1 1 (1/1000) " abracadabra "
           abracadabra_lang " bra").
  - lra.
  - vm_compute. lia.
  - apply lang_equiv_refl.
Defined.

(** C5 (counterexample). The model of order 1 (smoothing 1, no backoff)
    fitted on the one-symbol corpus ["a"] has an empty vocabulary:
    [predict_proba] returns an empty series, whose sum is 0. *)
Lemma C5_counterexample :
  "a"%string <> EmptyString /\
  series_sum (LM.predict_proba (LM.fit 1 1 0 "a") "").1 <> 1%R.
Proof.
  split; [discriminate|].
  fold (lang_proba (LM.fit 1 1 0 "a") "").
  assert (E : lang_proba (LM.fit 1 1 0 "a") "" = []).
  { apply map_fst_nil. rewrite lang_proba_labels, lang_fit_vocabulary.
    vm_compute. reflexivity. }
  rewrite E. unfold series_sum. simpl. lra.
Qed.

Lemma fit_proba_positive o s r corpus context token p :
  (0 < s)%R ->
  (token, p) ∈ lang_proba (LM.fit o s r corpus) context ->
  (0 < p)%R.
Proof.
  intros Hs Hin.
  pose proof (fit_counts_positive s r corpus context Hs o) as Hpos.
  rewrite lang_proba_eq in Hin.
  assert (Hne : (LM.get_counts (LM.fit o s r corpus) context).1 <> []).
  { intros Hnil. rewrite Hnil in Hin. inversion Hin. }
  pose proof (positive_series_sum _ Hpos Hne) as Hsum.
  pose proof (positive_series_div _ _ Hpos Hsum) as Hd.
  unfold positive_series in Hd. rewrite Forall_forall in Hd.
  apply (Hd (token, p)). assumption.
Qed.

Lemma fit_pair_missed_le_total original o letters : forall i missed total,
  missed_le_total missed total ->
  missed_le_total (MissingLetterModel.fit_pair original o i letters missed total).1
                  (MissingLetterModel.fit_pair original o i letters missed total).2.
Proof.
  induction letters as [|[ol obl] rest IH]; intros i missed total H; simpl.
  - assumption.
  - apply IH. intros key token. specialize (H key token).
    destruct (decide (obl = placeholder)).
    + rewrite !table_incr_count. lia.
    + rewrite table_incr_count. lia.
Qed.

Lemma fit_loop_missed_le_total o pairs : forall missed total,
  missed_le_total missed total ->
  missed_le_total (MissingLetterModel.fit_loop o pairs missed total).1
                  (MissingLetterModel.fit_loop o pairs missed total).2.
Proof.
  induction pairs as [|[original observed] rest IH]; intros missed total H; simpl.
  - assumption.
  - pose proof (fit_pair_missed_le_total original o
                  (zip (chars (drop_str o original)) (chars (drop_str o observed)))
                  0 missed total H) as H'.
    destruct (MissingLetterModel.fit_pair _ _ _ _ _ _) as [missed' total'].
    apply IH. assumption.
Qed.

Lemma positive_divisor o sm sa pairs m context letter :
  (0 < sa)%R ->
  missed_equiv (MissingLetterModel.fit o sm sa pairs) m ->
  (0 < total_freq m context letter)%R.
Proof.
  intros Hsa (_ & _ & Ht & _ & _).
  destruct (missed_fit_fields o sm sa pairs) as (_ & _ & Hf & _ & _).
  unfold total_freq. rewrite <- Ht, Hf.
  pose proof (pos_INR (table_count (MissingLetterModel.total_counter_ m)
                         (MissingLetterModel.local_context
                            (MissingLetterModel.order m) context) letter)).
  lra.
Qed.

Lemma fit_p_del_bounds o sm st pairs context letter :
  (0 < sm)%R -> (sm < st)%R ->
  (0 < p_del (MissingLetterModel.fit o sm st pairs) context letter < 1)%R.
Proof.
  intros H0 H1. rewrite p_del_fit.
  assert (Hle : missed_le_total (MissingLetterModel.fit_loop o pairs ∅ ∅).1
                                (MissingLetterModel.fit_loop o pairs ∅ ∅).2).
  { apply fit_loop_missed_le_total. intros key token. reflexivity. }
  specialize (Hle (MissingLetterModel.local_context o context) letter).
  apply le_INR in Hle.
  set (a := INR (table_count (MissingLetterModel.fit_loop o pairs ∅ ∅).1 _ _)) in *.
  set (b := INR (table_count (MissingLetterModel.fit_loop o pairs ∅ ∅).2 _ _)) in *.
  assert (Ha : (0 <= a)%R) by apply pos_INR.
  split.
  - apply Rdiv_lt_0_compat; lra.
  - unfold Rdiv. replace 1%R with ((b + st) * / (b + st))%R by (field; lra).
    apply Rmult_lt_compat_r; [apply Rinv_0_lt_compat|]; lra.
Qed.

(** C7 (as amended). With [smoothing > 0] in the language model and
    [0 < smoothing_missed < smoothing_total] in the missing-letter model,
    for fitted models in the state left by any calls, and with every
    estimate taken as the exact value of the expression the code evaluates:
    every entry of the language model's [predict_proba] is strictly
    positive; the divisor of the missing-letter model's [predict_proba] is
    strictly positive and its estimate lies strictly between 0 and 1; what
    either [single_proba] returns is strictly positive. So every logarithm
    of a cost, in [-log p], [-log p_del], [-log (1 - p_del)] and
    [-log single_proba], is taken at a strictly positive argument. Rounding
    is outside the statement: in floating point an estimate or a
    [single_proba] can still underflow to 0, and its cost be infinite. *)
Theorem C7_probabilities_positive_with_positive_smoothing :
  forall (o : nat) (s r : R) (corpus : string) (lang : LM.t)
         (o' : nat) (sm st : R) (pairs : list (string * string))
         (missed : MissingLetterModel.t),
    (0 < s)%R -> (0 < sm)%R -> (sm < st)%R ->
    lang_equiv (LM.fit o s r corpus) lang ->
    missed_equiv (MissingLetterModel.fit o' sm st pairs) missed ->
    (forall context token p,
       (token, p) ∈ (LM.predict_proba lang context).1 -> (0 < p)%R) /\
    (forall context letter,
       (0 < total_freq missed context letter)%R /\
       (0 < (MissingLetterModel.predict_proba missed context letter).1)%R /\
       (0 < 1 - (MissingLetterModel.predict_proba missed context letter).1)%R) /\
    (forall context continuation v,
       (LM.single_proba lang context continuation).1 = Ok v -> (0 < v)%R) /\
    (forall context continuation actual,
       (0 < (MissingLetterModel.single_proba missed context continuation
               actual).1)%R).
Proof.
  intros o s r corpus lang o' sm st pairs missed Hs Hsm Hst Hl Hm.
  split; [|split; [|split]].
  - intros context token p Hin. fold (lang_proba lang context) in Hin.
    rewrite <- (lang_proba_respects _ _ context Hl) in Hin.
    exact (fit_proba_positive o s r corpus context token p Hs Hin).
  - intros context letter. fold (p_del missed context letter).
    rewrite <- (p_del_equiv _ _ context letter Hm).
    pose proof (fit_p_del_bounds o' sm st pairs context letter Hsm Hst).
    pose proof (positive_divisor o' sm st pairs missed context letter
                  ltac:(lra) Hm).
    lra.
  - intros context continuation v Hv. rewrite single_proba_fst in Hv.
    destruct (lang_log_terms lang context (chars continuation) 0) as [l|e];
      [|discriminate].
    injection Hv as <-. apply exp_pos.
  - intros context continuation actual. unfold MissingLetterModel.single_proba.
    destruct (MissingLetterModel.single_log_proba missed context continuation
                actual) as [l m'].
    cbn [fst]. apply exp_pos.
Qed.

Lemma C7_probabilities_witness :
  (0 < total_freq abracadabra_missed "abr" "a")%R /\
  (0 < (MissingLetterModel.predict_proba abracadabra_missed "abr" "a").1)%R /\
  (0 < 1 - (MissingLetterModel.predict_proba abracadabra_missed "abr" "a").1)%R.
Proof.
  apply (C7_probabilities_positive_with_positive_smoothing
           1 1 (1/1000) " abracadabra " abracadabra_lang
           0 (3/10) 1 [("abracadabra"%string, "abr-c-d-br-"%string)]
           abracadabra_missed).
  - lra.
  - lra.
  - lra.
  - apply lang_equiv_refl.
  - apply missed_equiv_refl.
Defined.

(** C7 (counterexample). With [smoothing_missed = 0] a letter that was seen
    and never missed gets the estimate 0, which is not strictly positive;
    with [smoothing_missed = smoothing_total] a letter that was missed every
    time gets the estimate 1, and [1 - 1 = 0] is the argument of the
    logarithm for the letter kept. *)
Lemma C7_counterexample :
  ~ (0 < (MissingLetterModel.predict_proba
            (MissingLetterModel.fit 0 0 1 [("a"%string, "a"%string)]) "" "a").1)%R /\
  ~ (0 < 1 - (MissingLetterModel.predict_proba
                (MissingLetterModel.fit 0 1 1 [("a"%string, "-"%string)]) "" "a").1)%R.
Proof.
  split.
  - fold (p_del (MissingLetterModel.fit 0 0 1 [("a"%string, "a"%string)]) "" "a").
    rewrite p_del_fit.
    replace (table_count _ _ _) with 0%nat by (vm_compute; reflexivity).
    replace (table_count _ _ _) with 1%nat by (vm_compute; reflexivity).
    simpl INR. lra.
  - fold (p_del (MissingLetterModel.fit 0 1 1 [("a"%string, "-"%string)]) "" "a").
    rewrite p_del_fit.
    replace (table_count (MissingLetterModel.fit_loop _ _ _ _).1 _ _) with 1%nat
      by (vm_compute; reflexivity).
    replace (table_count (MissingLetterModel.fit_loop _ _ _ _).2 _ _) with 1%nat
      by (vm_compute; reflexivity).
    simpl INR. lra.
Qed.

(** ** Models fitted with positive smoothing *)

Lemma next_proba_get m context c :
  c ∈ LM.vocabulary_ m ->
  series_get (lang_proba m context) c = Ok (next_proba m context c).
Proof.
  intros Hin. unfold next_proba.
  rewrite <- (lang_proba_labels m context) in Hin.
  destruct (series_get_in _ _ Hin) as (v & -> & _). reflexivity.
Qed.

Lemma lang_value_ok st context continuation :
  Forall (fun c => c ∈ LM.vocabulary_ st.1) (chars continuation) ->
  lang_log_terms st.1 context (chars continuation) 0
  = Ok (lang_value st context continuation).
Proof.
  intros Hall. unfold lang_value.
  rewrite (proj1 (lang_single_log_proba_spec _ _ _)).
  destruct (lang_log_terms_ok st.1 (chars continuation) context 0%R Hall) as [v ->].
  reflexivity.
Qed.

Lemma positive_series_le_sum (s : Series) token p :
  positive_series s -> (token, p) ∈ s -> (p <= series_sum s)%R.
Proof.
  induction s as [|[t v] rest IH]; intros Hpos Hin; [inversion Hin|].
  inversion Hpos as [|? ? Hv Hrest]; subst. cbn [snd] in Hv.
  pose proof (positive_series_sum_nonneg rest Hrest) as Hnn.
  unfold series_sum in *. cbn [foldr snd].
  apply elem_of_cons in Hin. destruct Hin as [Heq|Hin].
  - injection Heq as -> ->. lra.
  - specialize (IH Hrest Hin). lra.
Qed.

Lemma fit_next_proba_bounds o s r corpus context c :
  (0 < s)%R ->
  c ∈ LM.vocabulary_ (LM.fit o s r corpus) ->
  (0 < next_proba (LM.fit o s r corpus) context c <= 1)%R.
Proof.
  intros Hs Hc.
  pose proof (next_proba_get _ context c Hc) as Hget.
  apply series_get_ok_in in Hget.
  split; [exact (fit_proba_positive o s r corpus context c _ Hs Hget)|].
  pose proof (fit_counts_positive s r corpus context Hs o) as Hpos.
  rewrite lang_proba_eq in Hget.
  assert (Hne : (LM.get_counts (LM.fit o s r corpus) context).1 <> []).
  { intros Hnil. rewrite Hnil in Hget. inversion Hget. }
  pose proof (positive_series_sum _ Hpos Hne) as Hsum.
  pose proof (positive_series_le_sum _ _ _
                (positive_series_div _ _ Hpos Hsum) Hget) as Hle.
  rewrite series_sum_div in Hle.
  replace (series_sum (LM.get_counts (LM.fit o s r corpus) context).1
           / series_sum (LM.get_counts (LM.fit o s r corpus) context).1)%R
    with 1%R in Hle by (field; lra).
  exact Hle.
Qed.

Lemma neg_ln_nonneg x : (0 < x <= 1)%R -> (0 <= - ln x)%R.
Proof.
  intros [Hpos Hle].
  destruct (Rle_lt_or_eq_dec _ _ Hle) as [Hlt| ->]; [|rewrite ln_1; lra].
  pose proof (ln_increasing x 1 Hpos Hlt) as H. rewrite ln_1 in H. lra.
Qed.

Section FittedStore.
Variables (o : nat) (s r : R) (corpus : string).
Variables (o' : nat) (sm sa : R) (pairs : list (string * string)).
Variable st : Store.
Hypothesis Hs : (0 < s)%R.
Hypothesis Hsm : (0 < sm)%R.
Hypothesis Hsa : (sm < sa)%R.
Hypothesis Hst :
  store_equiv (LM.fit o s r corpus, MissingLetterModel.fit o' sm sa pairs) st.

Lemma fitted_vocabulary c :
  c ∈ LM.vocabulary_ st.1 -> c ∈ LM.vocabulary_ (LM.fit o s r corpus).
Proof.
  pose proof (lang_equiv_vocabulary _ _ (proj1 Hst)) as Hv.
  cbn [fst] in Hv. rewrite Hv. auto.
Qed.

Lemma fitted_next_proba context c :
  c ∈ LM.vocabulary_ st.1 -> (0 < next_proba st.1 context c <= 1)%R.
Proof.
  intros Hc. unfold next_proba.
  pose proof (lang_proba_respects _ _ context (proj1 Hst)) as Hp.
  cbn [fst] in Hp. rewrite <- Hp.
  apply fit_next_proba_bounds; [assumption | apply fitted_vocabulary, Hc].
Qed.

Lemma fitted_p_del context c : (0 < p_del st.2 context c < 1)%R.
Proof.
  pose proof (p_del_equiv _ _ context c (proj2 Hst)) as Hp.
  cbn [snd] in Hp. rewrite <- Hp.
  apply fit_p_del_bounds; assumption.
Qed.

Lemma fitted_edge_cost prefix c d :
  c ∈ LM.vocabulary_ st.1 -> (0 <= edge_cost st prefix c d)%R.
Proof.
  intros Hc.
  pose proof (neg_ln_nonneg _ (fitted_next_proba prefix c Hc)) as Hn.
  pose proof (fitted_p_del prefix c) as Hp.
  unfold edge_cost, deletion_cost, keep_cost. destruct d.
  - pose proof (neg_ln_nonneg (p_del st.2 prefix c) ltac:(lra)). lra.
  - pose proof (neg_ln_nonneg (1 - p_del st.2 prefix c) ltac:(lra)). lra.
Qed.

Lemma fitted_path_cost : forall (al : alignment) prefix,
  Forall (fun c => c ∈ LM.vocabulary_ st.1) (symbols_of al) ->
  (0 <= path_cost st prefix al)%R.
Proof.
  induction al as [|[c d] rest IH]; intros prefix Hall; simpl; [lra|].
  inversion Hall as [|? ? Hc Hrest]; subst.
  pose proof (fitted_edge_cost prefix c d Hc).
  pose proof (IH (snoc_str prefix c) Hrest). lra.
Qed.

Lemma fitted_lang_terms : forall tokens context res v,
  lang_log_terms st.1 context tokens res = Ok v -> (v <= res)%R.
Proof.
  induction tokens as [|t rest IH]; intros context res v H; simpl in H.
  - injection H as <-. lra.
  - destruct (series_get (lang_proba st.1 context) t) as [p|e] eqn:E;
      [|discriminate].
    apply IH in H.
    assert (Ht : t ∈ LM.vocabulary_ st.1).
    { apply series_get_ok_in in E.
      rewrite <- (lang_proba_labels st.1 context).
      apply list_elem_of_fmap. exists (t, p). split; [reflexivity | assumption]. }
    pose proof (fitted_next_proba context t Ht) as Hb.
    unfold next_proba in Hb. rewrite E in Hb.
    pose proof (neg_ln_nonneg p Hb). lra.
Qed.

Lemma fitted_missed_terms : forall tokens context res,
  (missed_log_terms st.2 context tokens res <= res)%R.
Proof.
  induction tokens as [|[t a] rest IH]; intros context res; simpl; [lra|].
  pose proof (fitted_p_del context t) as Hp.
  eapply Rle_trans; [apply IH|].
  case_decide.
  - pose proof (neg_ln_nonneg (1 - p_del st.2 context t) ltac:(lra)). lra.
  - pose proof (neg_ln_nonneg (p_del st.2 context t) ltac:(lra)). lra.
Qed.

Lemma fitted_baseline context continuation :
  Forall (fun c => c ∈ LM.vocabulary_ st.1) (chars continuation) ->
  (0 <= - lang_value st context continuation
        + - missed_value st context continuation)%R.
Proof.
  intros Hall.
  pose proof (fitted_lang_terms _ _ _ _ (lang_value_ok st context continuation Hall)).
  unfold missed_value.
  rewrite (proj1 (missed_single_log_proba_spec _ _ _ _)).
  pose proof (fitted_missed_terms
                (zip (chars continuation)
                   (chars (if MissingLetterModel.truthy None
                           then default continuation None else continuation)))
                context 0%R).
  lra.
Qed.

Lemma fitted_leaf word c :
  Forall (fun a => a ∈ LM.vocabulary_ st.1) (chars (snoc_str word space)) ->
  path_leaf st word c -> (0 <= h_proba c)%R.
Proof.
  intros Hall [[_ ->] | (al & Hvoc & _ & _ & ->)].
  - apply fitted_baseline. assumption.
  - apply fitted_path_cost. assumption.
Qed.
End FittedStore.

(** ** C3: the children of a node, for fitted models *)

(** C3. For models fitted with [smoothing > 0] and
    [0 < smoothing_missed < smoothing_total], in the state left by any
    calls, and a node with prefix [P] and suffix [c S'], [generate_options]
    returns one child for every symbol [a] of the vocabulary, in its order,
    with prefix [P + a], the suffix unchanged and score
    [prefix_proba - log p_del(P, a) - log P(a | P) + cache[len(c S')] * optimism],
    followed by one child with prefix [P + c], suffix [S'] and score
    [prefix_proba - log (1 - p_del(P, c)) - log P(c | P) + cache[len(S')] * optimism];
    the models keep their data. The heuristic component is the entry the
    cache holds under the length of the child's suffix, for any cache that
    has the two entries. Every logarithm is taken of a probability: the
    deletion estimate lies strictly between 0 and 1 (its denominator is not
    zero) and the estimate of the next symbol is positive and at most 1.
    The loop of [noisy_channel] calls [generate_options] with
    [prefix_proba] = the score of the node minus its heuristic component, and
    the vocabulary of a fitted model has no repeated symbol. *)
Theorem C3_generate_options_children :
  forall (o : nat) (s r : R) (corpus : string)
         (o' : nat) (sm sa : R) (pairs : list (string * string))
         (st : Store) (parent : hypothesis) (c : ascii) (rest : string)
         (optimism : R) (cache : Cache) (v v' : R),
    (0 < s)%R -> (0 < sm)%R -> (sm < sa)%R ->
    store_equiv (LM.fit o s r corpus, MissingLetterModel.fit o' sm sa pairs) st ->
    h_suffix parent = String c rest ->
    c ∈ LM.vocabulary_ st.1 ->
    cache !! String.length (String c rest) = Some v ->
    cache !! String.length rest = Some v' ->
    (exists st',
       generate_options (h_proba parent - h_proba_suffix parent)
         (h_prefix parent) (h_suffix parent) optimism (Some cache) st
       = (Ok (map (fun a =>
                     Hyp (h_proba parent - h_proba_suffix parent
                          + (- ln (p_del st.2 (h_prefix parent) a)
                             - ln (next_proba st.1 (h_prefix parent) a))
                          + v * optimism)
                         (snoc_str (h_prefix parent) a) (String c rest)
                         (Some (String a EmptyString)) (v * optimism))
                  (LM.vocabulary_ st.1)
              ++ [Hyp (h_proba parent - h_proba_suffix parent
                       + (- ln (1 - p_del st.2 (h_prefix parent) c)
                          - ln (next_proba st.1 (h_prefix parent) c))
                       + v' * optimism)
                      (snoc_str (h_prefix parent) c) rest
                      (Some EmptyString) (v' * optimism)]),
          st')
       /\ store_equiv st st') /\
    (forall a, a ∈ LM.vocabulary_ st.1 ->
       (0 < p_del st.2 (h_prefix parent) a < 1)%R /\
       (0 < total_freq st.2 (h_prefix parent) a)%R /\
       (0 < next_proba st.1 (h_prefix parent) a <= 1)%R) /\
    (forall freedom attempts heap heap' candidates best,
       heappop heap = Some (parent, heap') ->
       search_loop freedom optimism cache (S attempts) heap candidates best =
       (new_options <-
          generate_options (h_proba parent - h_proba_suffix parent)
            (h_prefix parent) (h_suffix parent) optimism (Some cache) ;;
        search_loop freedom optimism cache attempts
          (push_options best freedom new_options heap') candidates best)) /\
    (forall k s0 r0 text, NoDup (LM.vocabulary_ (LM.fit k s0 r0 text))).
Proof.
  intros o s r corpus o' sm sa pairs st parent c rest optimism cache v v'
         Hs Hsm Hsa Hst Hsuf Hin Hv Hv'.
  split; [|split; [|split]].
  - rewrite Hsuf.
    destruct (returns_generate_options st (h_proba parent - h_proba_suffix parent)
                (h_prefix parent) c rest optimism cache v v' Hin Hv Hv' st
                (store_equiv_refl st)) as (st' & E & He).
    exists st'. split; [exact E | exact He].
  - intros a Ha. split; [|split].
    + exact (fitted_p_del o s r corpus o' sm sa pairs st Hsm Hsa Hst
               (h_prefix parent) a).
    + apply (positive_divisor o' sm sa pairs); [lra | exact (proj2 Hst)].
    + exact (fitted_next_proba o s r corpus o' sm sa pairs st Hs Hst
               (h_prefix parent) a Ha).
  - intros freedom attempts heap heap' candidates best Hpop.
    apply search_loop_expand; [assumption|]. rewrite Hsuf. discriminate.
  - intros k s0 r0 text. rewrite lang_fit_vocabulary. apply sorted_symbols_NoDup.
Qed.

Lemma C3_generate_options_witness :
  exists st',
    generate_options (3 - 1) " " "brac " (1/2)
      (Some (<[5%nat := 7%R]> (<[4%nat := 5%R]> (∅ : Cache)))) abracadabra_store
    = (Ok (map (fun a =>
                  Hyp (3 - 1
                       + (- ln (p_del abracadabra_missed " " a)
                          - ln (next_proba abracadabra_lang " " a))
                       + 7 * (1/2))
                      (snoc_str " " a) "brac "
                      (Some (String a EmptyString)) (7 * (1/2)))
               [" "; "a"; "b"; "c"; "d"; "r"]%char
           ++ [Hyp (3 - 1
                    + (- ln (1 - p_del abracadabra_missed " " "b")
                       - ln (next_proba abracadabra_lang " " "b"))
                    + 5 * (1/2))
                   " b" "rac " (Some EmptyString) (5 * (1/2))]),
       st').
Proof.
  destruct (C3_generate_options_children
              1 1 (1/1000) " abracadabra "
              0 (3/10) 1 [("abracadabra"%string, "abr-c-d-br-"%string)]
              abracadabra_store
              (Hyp 3 " " "brac " (Some EmptyString) 1) "b"%char "rac " (1/2)
              (<[5%nat := 7%R]> (<[4%nat := 5%R]> (∅ : Cache))) 7 5)
    as [(st' & E & _) _].
  - lra.
  - lra.
  - lra.
  - apply store_equiv_refl.
  - reflexivity.
  - unfold abracadabra_store. cbn [fst]. rewrite abracadabra_vocabulary.
    right. right. left.
  - cbn [String.length]. rewrite lookup_insert_eq. reflexivity.
  - cbn [String.length]. rewrite lookup_insert_ne by lia.
    rewrite lookup_insert_eq. reflexivity.
  - exists st'. cbn [h_proba h_proba_suffix h_prefix h_suffix] in E.
    unfold abracadabra_store in E at 2 3 4 5 6. cbn [fst snd] in E.
    rewrite abracadabra_vocabulary in E. exact E.
Defined.

(** ** C8: what a search does to the models *)

Section Preserves.

(** A relation between the store before and after, kept by every method of
    the two models that the search calls. *)
Variable Rel : Store -> Store -> Prop.
Hypothesis Rel_refl : forall st, Rel st st.
Hypothesis Rel_trans : forall st1 st2 st3, Rel st1 st2 -> Rel st2 st3 -> Rel st1 st3.

Definition preserves {A} (c : M A) : Prop := forall st, Rel st (c st).2.

Hypothesis preserves_lang_single_log_proba : forall context continuation,
  preserves (with_lang (fun m => LM.single_log_proba m context continuation)).
Hypothesis preserves_lang_single_proba : forall context continuation,
  preserves (with_lang (fun m => LM.single_proba m context continuation)).
Hypothesis preserves_missed_predict_proba : forall context letter,
  preserves (with_missed (fun m => MissingLetterModel.predict_proba m context letter)).
Hypothesis preserves_missed_single_log_proba : forall context continuation actual,
  preserves (with_missed (fun m =>
    MissingLetterModel.single_log_proba m context continuation actual)).

Lemma preserves_ret {A} (a : A) : preserves (ret a).
Proof. intros st. apply Rel_refl. Qed.

Lemma preserves_raise {A} e : preserves (@raise A e).
Proof. intros st. apply Rel_refl. Qed.

(** the state after [bind c k] comes after the state after [c] *)
Lemma bind_after {A B} (c : M A) (k : A -> M B) :
  (forall a, preserves (k a)) ->
  forall st, Rel (c st).2 (bind c k st).2.
Proof.
  intros Hk st. unfold bind. destruct (c st) as [[a|e] st1]; cbn [snd].
  - apply Hk.
  - apply Rel_refl.
Qed.

Lemma preserves_bind {A B} (c : M A) (k : A -> M B) :
  preserves c -> (forall a, preserves (k a)) -> preserves (bind c k).
Proof.
  intros Hc Hk st. eapply Rel_trans; [apply Hc | apply bind_after; assumption].
Qed.

Lemma preserves_cache_get cache n : preserves (cache_get cache n).
Proof.
  unfold cache_get. destruct (cache !! n); [apply preserves_ret | apply preserves_raise].
Qed.

Ltac preserves_step :=
  first [ apply preserves_bind; [| intros ?]
        | apply preserves_ret
        | apply preserves_raise
        | apply preserves_cache_get
        | apply preserves_lang_single_log_proba
        | apply preserves_lang_single_proba
        | apply preserves_missed_predict_proba
        | apply preserves_missed_single_log_proba ].

Lemma preserves_generate_option prefix_proba prefix suffix optimism cache letter :
  preserves (generate_option prefix_proba prefix suffix optimism cache letter).
Proof.
  unfold generate_option. apply preserves_bind.
  - destruct letter as [c|]; [|destruct suffix]; repeat preserves_step.
  - intros [[[[next_letter new_suffix] new_prefix] letter_str] pms].
    apply preserves_bind; [preserves_step|]. intros p_next.
    apply preserves_bind; [|intros ?; preserves_step].
    destruct (cache_truthy cache); repeat preserves_step.
Qed.

Lemma preserves_generate_options_loop prefix_proba prefix suffix optimism cache letters :
  forall options,
  preserves (generate_options_loop prefix_proba prefix suffix optimism cache
               letters options).
Proof.
  induction letters as [|letter rest IH]; intros options; simpl.
  - apply preserves_ret.
  - apply preserves_bind; [apply preserves_generate_option | intros o; apply IH].
Qed.

Lemma preserves_generate_options prefix_proba prefix suffix optimism cache :
  preserves (generate_options prefix_proba prefix suffix optimism cache).
Proof. intros st. unfold generate_options. apply preserves_generate_options_loop. Qed.

Lemma preserves_search_loop freedom optimism cache attempts :
  forall heap candidates best_logprob,
  preserves (search_loop freedom optimism cache attempts heap candidates best_logprob).
Proof.
  induction attempts as [|n IH]; intros heap candidates best; simpl.
  - apply preserves_ret.
  - destruct (heappop heap) as [[next_best heap']|]; [|apply preserves_ret].
    destruct (is_empty_str (h_suffix next_best)).
    + destruct (Rleb _ _); apply IH.
    + apply preserves_bind; [apply preserves_generate_options|].
      intros new_options. apply IH.
Qed.

Lemma preserves_build_cache query indices :
  forall cache, preserves (build_cache query indices cache).
Proof.
  induction indices as [|i rest IH]; intros cache; simpl.
  - apply preserves_ret.
  - repeat preserves_step. apply IH.
Qed.

Lemma preserves_noisy_channel_rest query freedom max_attempts optimism best_logprob :
  preserves
    (cache <- build_cache query (seq 0 (String.length query + 1)) ∅ ;;
     final <- search_loop freedom optimism cache max_attempts
                [Hyp (best_logprob * optimism) (String space EmptyString) query
                     (Some EmptyString) (best_logprob * optimism)]
                [Hyp best_logprob (String space EmptyString ++ query)%string
                     EmptyString None 0]
                best_logprob ;;
     let '(_, candidates', best_logprob') := final in
     ret (collect best_logprob' freedom candidates')).
Proof.
  apply preserves_bind; [apply preserves_build_cache|]. intros cache.
  apply preserves_bind; [apply preserves_search_loop|].
  intros [[heap' candidates'] best']. apply preserves_ret.
Qed.

Lemma preserves_noisy_channel word freedom max_attempts optimism :
  preserves (noisy_channel word freedom max_attempts optimism).
Proof.
  unfold noisy_channel. apply preserves_bind.
  - unfold baseline. repeat preserves_step.
  - intros best. apply preserves_noisy_channel_rest.
Qed.

(** the state after the whole call comes after the state left by the first
    method call, the language model's [single_log_proba(' ', query)] *)
Lemma noisy_channel_after_first word freedom max_attempts optimism st :
  Rel (with_lang (fun m =>
         LM.single_log_proba m (String space EmptyString) (snoc_str word space)) st).2
      (noisy_channel word freedom max_attempts optimism st).2.
Proof.
  unfold noisy_channel.
  eapply Rel_trans; [|apply bind_after; intros best; apply preserves_noisy_channel_rest].
  unfold baseline. apply bind_after. intros l. repeat preserves_step.
Qed.

End Preserves.

Lemma store_equiv_lang_single_log_proba context continuation :
  preserves store_equiv
    (with_lang (fun m => LM.single_log_proba m context continuation)).
Proof.
  intros st. rewrite with_lang_snd. split; cbn [fst snd].
  - apply lang_single_log_proba_spec.
  - apply missed_equiv_refl.
Qed.

Lemma store_equiv_lang_single_proba context continuation :
  preserves store_equiv
    (with_lang (fun m => LM.single_proba m context continuation)).
Proof.
  intros st. rewrite with_lang_snd, single_proba_snd. split; cbn [fst snd].
  - apply lang_single_log_proba_spec.
  - apply missed_equiv_refl.
Qed.

Lemma store_equiv_missed_predict_proba context letter :
  preserves store_equiv
    (with_missed (fun m => MissingLetterModel.predict_proba m context letter)).
Proof.
  intros st. rewrite with_missed_eq. split; cbn [fst snd].
  - apply lang_equiv_refl.
  - apply missed_predict_proba_equiv.
Qed.

Lemma store_equiv_missed_single_log_proba context continuation actual :
  preserves store_equiv
    (with_missed (fun m =>
       MissingLetterModel.single_log_proba m context continuation actual)).
Proof.
  intros st. rewrite with_missed_eq. split; cbn [fst snd].
  - apply lang_equiv_refl.
  - apply missed_single_log_proba_spec.
Qed.

(** C8 (as amended). A call of [noisy_channel], whether it returns or
    raises, leaves in both models the constructor arguments, the vocabulary,
    the unigram counts and every count of the tables as they were, along the
    whole backoff chain, and so every value of their [predict_proba]; the
    tables themselves may have gained empty counters for contexts that were
    looked up and had not been seen ([store_equiv] compares the tables by
    the counts they hold). *)
Theorem C8_noisy_channel_keeps_the_counts :
  forall (word : string) (freedom : R) (max_attempts : nat) (optimism : R)
         (st : Store),
    let st' := (noisy_channel word freedom max_attempts optimism st).2 in
    store_equiv st st' /\
    LM.order st'.1 = LM.order st.1 /\
    LM.smoothing st'.1 = LM.smoothing st.1 /\
    LM.recursive st'.1 = LM.recursive st.1 /\
    LM.vocabulary_ st'.1 = LM.vocabulary_ st.1 /\
    LM.unigrams_ st'.1 = LM.unigrams_ st.1 /\
    (forall key token,
       table_count (LM.counter_ st'.1) key token
       = table_count (LM.counter_ st.1) key token) /\
    (forall key token,
       table_count (MissingLetterModel.missed_counter_ st'.2) key token
       = table_count (MissingLetterModel.missed_counter_ st.2) key token) /\
    (forall key token,
       table_count (MissingLetterModel.total_counter_ st'.2) key token
       = table_count (MissingLetterModel.total_counter_ st.2) key token) /\
    (forall context,
       (LM.predict_proba st'.1 context).1 = (LM.predict_proba st.1 context).1) /\
    (forall context letter,
       (MissingLetterModel.predict_proba st'.2 context letter).1
       = (MissingLetterModel.predict_proba st.2 context letter).1).
Proof.
  intros word freedom max_attempts optimism st st'.
  assert (He : store_equiv st st').
  { apply (preserves_noisy_channel store_equiv store_equiv_refl store_equiv_trans
             store_equiv_lang_single_log_proba store_equiv_lang_single_proba
             store_equiv_missed_predict_proba store_equiv_missed_single_log_proba). }
  split; [exact He|].
  destruct He as [Hl Hm].
  pose proof Hl as Hl'. apply lang_equiv_unfold in Hl'.
  destruct Hl' as (A1 & A2 & A3 & A4 & A5 & A6 & _).
  destruct Hm as (B1 & B2 & B3 & B4 & B5).
  repeat split; try (symmetry; assumption).
  - intros key token. symmetry. apply A6.
  - intros key token. symmetry. apply B4.
  - intros key token. symmetry. apply B5.
  - intros context. symmetry. apply (lang_proba_respects _ _ context Hl).
  - intros context letter. symmetry.
    apply (p_del_equiv st.2 st'.2 context letter).
    repeat split; assumption.
Qed.

Lemma keys_incl_refl st : keys_incl st st.
Proof. intros key H. assumption. Qed.

Lemma keys_incl_trans st1 st2 st3 :
  keys_incl st1 st2 -> keys_incl st2 st3 -> keys_incl st1 st3.
Proof. intros H1 H2 key H. apply H2, H1, H. Qed.

Lemma get_counts_counter m context :
  LM.counter_ (LM.get_counts m context).2
  = (table_get (LM.counter_ m) (LM.local_context (LM.order m) context)).2.
Proof.
  rewrite get_counts_eq. cbv zeta.
  destruct (table_get _ _) as [fd ct].
  destruct (LM.child_ m) as [c|]; [|reflexivity].
  destruct (Rltb 0 (LM.recursive m) && negb (Nat.eqb (LM.order m) 0)); [|reflexivity].
  destruct (LM.get_counts c context). reflexivity.
Qed.

Lemma lang_loop_keys tokens : forall m context res key,
  is_Some (LM.counter_ m !! key) ->
  is_Some (LM.counter_ (LM.single_log_proba_loop m context tokens res).2 !! key).
Proof.
  induction tokens as [|token rest IH]; intros m context res key Hk; simpl.
  - assumption.
  - pose proof (predict_proba_state m context) as Hs.
    destruct (LM.predict_proba m context) as [proba m1]. cbn [snd] in Hs.
    assert (Hk1 : is_Some (LM.counter_ m1 !! key)).
    { rewrite Hs, get_counts_counter. apply table_get_keys. assumption. }
    destruct (series_get proba token); [apply IH|]; assumption.
Qed.

(** the first lookup of [single_log_proba] leaves an entry for its context *)
Lemma lang_loop_touches token rest m context res :
  is_Some (LM.counter_ (LM.single_log_proba_loop m context (token :: rest) res).2
             !! LM.local_context (LM.order m) context).
Proof.
  simpl.
  pose proof (predict_proba_state m context) as Hs.
  destruct (LM.predict_proba m context) as [proba m1]. cbn [snd] in Hs.
  assert (Hk1 : is_Some (LM.counter_ m1 !! LM.local_context (LM.order m) context)).
  { rewrite Hs, get_counts_counter. apply table_get_touched. }
  destruct (series_get proba token); [apply lang_loop_keys|]; assumption.
Qed.

Lemma keys_incl_lang_single_log_proba context continuation :
  preserves keys_incl
    (with_lang (fun m => LM.single_log_proba m context continuation)).
Proof.
  intros st key Hk. rewrite with_lang_snd. cbn [fst].
  apply lang_loop_keys. assumption.
Qed.

Lemma keys_incl_lang_single_proba context continuation :
  preserves keys_incl
    (with_lang (fun m => LM.single_proba m context continuation)).
Proof.
  intros st key Hk. rewrite with_lang_snd, single_proba_snd. cbn [fst].
  apply lang_loop_keys. assumption.
Qed.

Lemma keys_incl_with_missed {A} (f : MissingLetterModel.t -> A * MissingLetterModel.t) :
  preserves keys_incl (with_missed f).
Proof. intros st key Hk. rewrite with_missed_eq. assumption. Qed.

(** C8 (counterexample). The first lookup of the search, for the context
    [" "], goes to the table of an order-2 model, whose keys are contexts of
    two symbols: the [defaultdict] inserts an empty counter for [" "], and
    the table after the call differs from the table before. *)
Lemma C8_counterexample :
  (noisy_channel "brc" 2 1000 (1/2) (abracadabra_lang2, abracadabra_missed)).2
  <> (abracadabra_lang2, abracadabra_missed).
Proof.
  intros Heq.
  assert (Hbefore : LM.counter_ abracadabra_lang2 !! " "%string = None).
  { unfold abracadabra_lang2.
    destruct (lang_fit_fields 2 1 (1/1000) " abracadabra ") as (_ & _ & _ & -> & _).
    vm_compute. reflexivity. }
  assert (Hafter : is_Some
            (LM.counter_
               (noisy_channel "brc" 2 1000 (1/2)
                  (abracadabra_lang2, abracadabra_missed)).2.1 !! " "%string)).
  { apply (noisy_channel_after_first keys_incl keys_incl_refl keys_incl_trans
             keys_incl_lang_single_log_proba keys_incl_lang_single_proba
             (fun c l => keys_incl_with_missed _)
             (fun c k a => keys_incl_with_missed _)
             "brc" 2 1000 (1/2) (abracadabra_lang2, abracadabra_missed)).
    rewrite with_lang_snd. cbn [fst snd].
    unfold LM.single_log_proba.
    change (chars (snoc_str "brc" space)) with ["b"; "r"; "c"; " "]%char.
    pose proof (lang_loop_touches "b" ["r"; "c"; " "]%char abracadabra_lang2
                  (String space EmptyString) 0) as Ht.
    replace (LM.local_context (LM.order abracadabra_lang2) (String space EmptyString))
      with " "%string in Ht; [exact Ht|].
    unfold abracadabra_lang2.
    destruct (lang_fit_fields 2 1 (1/1000) " abracadabra ") as (-> & _).
    reflexivity. }
  rewrite Heq in Hafter. cbn [fst] in Hafter. rewrite Hbefore in Hafter.
  destruct Hafter as [x Hx]. discriminate.
Qed.

(** ** C4: the suffix cache *)

Lemma chars_take_str n : forall s, chars (take_str n s) = take n (chars s).
Proof.
  induction n as [|n IH]; intros s; [reflexivity|].
  destruct s as [|c s]; simpl; [reflexivity|]. rewrite IH. reflexivity.
Qed.

Lemma length_chars s : length (chars s) = String.length s.
Proof. induction s as [|c s IH]; simpl; [reflexivity | rewrite IH; reflexivity]. Qed.

Lemma length_take_str n s : String.length (take_str n s) = Nat.min n (String.length s).
Proof.
  rewrite <- !length_chars, chars_take_str, length_take. reflexivity.
Qed.

Lemma returns_lang_value st0 context continuation :
  Forall (fun c => c ∈ LM.vocabulary_ st0.1) (chars continuation) ->
  returns st0
    (with_lang (fun m => LM.single_log_proba m context continuation))
    (lang_value st0 context continuation).
Proof.
  intros Hall. apply returns_lang_single_log_proba.
  unfold lang_value. rewrite (proj1 (lang_single_log_proba_spec _ _ _)).
  destruct (lang_log_terms_ok st0.1 (chars continuation) context 0%R Hall) as [v ->].
  reflexivity.
Qed.

Lemma returns_build_cache st0 query :
  Forall (fun c => c ∈ LM.vocabulary_ st0.1) (chars query) ->
  forall indices cache,
  returns st0 (build_cache query indices cache)
    (cache_after st0 query indices cache).
Proof.
  intros Hall. induction indices as [|i rest IH]; intros cache; simpl.
  - apply returns_ret.
  - eapply returns_bind.
    { apply returns_lang_value. rewrite chars_take_str. apply Forall_take, Hall. }
    eapply returns_bind.
    { apply returns_missed_single_log_proba. }
    eapply returns_bind.
    { apply returns_cache_get. apply lookup_insert_eq. }
    rewrite insert_insert_eq. apply IH.
Qed.

Lemma cache_after_snoc st query indices i cache :
  cache_after st query (indices ++ [i]) cache
  = <[String.length (take_str i query) := unconditional_cost st (take_str i query)]>
      (cache_after st query indices cache).
Proof. unfold cache_after. rewrite foldl_app. reflexivity. Qed.

(** the entry of the cache for a length [n] up to the length of the query *)
Lemma cache_after_lookup st query n :
  (n <= String.length query)%nat ->
  cache_after st query (seq 0 (String.length query + 1)) ∅ !! n
  = Some (unconditional_cost st (take_str n query)).
Proof.
  intros Hn.
  assert (H : forall m, (n < m)%nat -> (m <= String.length query + 1)%nat ->
            cache_after st query (seq 0 m) ∅ !! n
            = Some (unconditional_cost st (take_str n query))).
  { induction m as [|m IH]; intros Hlt Hle; [lia|].
    rewrite seq_S, cache_after_snoc. simpl.
    rewrite length_take_str, Nat.min_l by lia.
    destruct (decide (m = n)) as [->|Hne].
    - apply lookup_insert_eq.
    - rewrite lookup_insert_ne by assumption. apply IH; lia. }
  apply H; lia.
Qed.

(** the counts of a model without a child *)
Lemma get_counts_no_child m context :
  LM.child_ m = None ->
  (LM.get_counts m context).1 =
  map (fun token =>
         (token, (INR (table_count (LM.counter_ m)
                         (LM.local_context (LM.order m) context) token)
                  + LM.smoothing m)%R))
      (LM.vocabulary_ m).
Proof.
  intros Hc. rewrite get_counts_eq. cbv zeta. rewrite Hc.
  pose proof (table_get_counter (LM.counter_ m)
                (LM.local_context (LM.order m) context)) as H.
  destruct (table_get _ _) as [fd ct]. cbn [fst] in *.
  apply map_ext. intros a. rewrite H. reflexivity.
Qed.

Lemma small_lang_vocabulary : LM.vocabulary_ small_lang = [" "; "a"]%char.
Proof. unfold small_lang. rewrite lang_fit_vocabulary. vm_compute. reflexivity. Qed.

Lemma small_lang_counts context :
  (LM.get_counts small_lang context).1 = [(" "%char, 2%R); ("a"%char, 3%R)].
Proof.
  rewrite get_counts_no_child.
  2:{ unfold small_lang.
      destruct (lang_fit_fields 0 1 0 " aa") as (_ & _ & _ & _ & _ & ->).
      reflexivity. }
  rewrite small_lang_vocabulary. unfold small_lang.
  destruct (lang_fit_fields 0 1 0 " aa") as (-> & -> & _ & -> & _).
  cbn [map LM.local_context].
  replace (table_count _ _ " "%char) with 1%nat by (vm_compute; reflexivity).
  replace (table_count _ _ "a"%char) with 2%nat by (vm_compute; reflexivity).
  simpl INR. repeat f_equal; lra.
Qed.

Lemma small_lang_proba context :
  lang_proba small_lang context = [(" "%char, (2/5)%R); ("a"%char, (3/5)%R)].
Proof.
  rewrite lang_proba_eq, small_lang_counts.
  unfold series_div, series_sum. cbn [map foldr fst snd].
  repeat f_equal; lra.
Qed.

Lemma small_next_proba_space context : next_proba small_lang context " " = (2/5)%R.
Proof.
  unfold next_proba. rewrite small_lang_proba. cbn [series_get].
  rewrite decide_True by reflexivity. reflexivity.
Qed.

Lemma small_next_proba_a context : next_proba small_lang context "a" = (3/5)%R.
Proof.
  unfold next_proba. rewrite small_lang_proba. cbn [series_get].
  rewrite decide_False by discriminate.
  rewrite decide_True by reflexivity. reflexivity.
Qed.

Lemma small_p_del context letter :
  letter = " "%char \/ letter = "a"%char ->
  p_del small_missed context letter = (3/20)%R.
Proof.
  intros H. unfold small_missed. rewrite p_del_fit.
  destruct H as [-> | ->].
  - replace (table_count (MissingLetterModel.fit_loop _ _ _ _).1 _ _) with 0%nat
      by (vm_compute; reflexivity).
    replace (table_count (MissingLetterModel.fit_loop _ _ _ _).2 _ _) with 1%nat
      by (vm_compute; reflexivity).
    simpl INR. lra.
  - replace (table_count (MissingLetterModel.fit_loop _ _ _ _).1 _ _) with 0%nat
      by (vm_compute; reflexivity).
    replace (table_count (MissingLetterModel.fit_loop _ _ _ _).2 _ _) with 1%nat
      by (vm_compute; reflexivity).
    simpl INR. lra.
Qed.

Lemma lang_value_one st context c :
  c ∈ LM.vocabulary_ st.1 ->
  lang_value st context (String c EmptyString)
  = (0 + ln (next_proba st.1 context c))%R.
Proof.
  intros Hin. unfold lang_value.
  rewrite (proj1 (lang_single_log_proba_spec _ _ _)).
  rewrite (lang_one_symbol _ _ _ Hin). reflexivity.
Qed.

Lemma missed_value_one st context c :
  c <> placeholder ->
  missed_value st context (String c EmptyString)
  = (0 + ln (p_del st.2 context c))%R.
Proof.
  intros Hc. unfold missed_value.
  rewrite (proj1 (missed_single_log_proba_spec _ _ _ _)).
  cbn [MissingLetterModel.truthy chars zip zip_with missed_log_terms].
  rewrite decide_False by assumption. reflexivity.
Qed.

Lemma ln_sum_neq (a b c d : R) :
  (0 < a)%R -> (0 < b)%R -> (0 < c)%R -> (0 < d)%R ->
  (a * b <> c * d)%R ->
  (- ln a - ln b <> - ln c - ln d)%R.
Proof.
  intros Ha Hb Hc Hd Hne Heq.
  assert (H : ln (a * b) = ln (c * d)).
  { rewrite !ln_mult by assumption. lra. }
  apply ln_inv in H; [contradiction | |]; apply Rmult_lt_0_compat; assumption.
Qed.

(** C4 (defect of the code). The loop that fills the cache takes
    [future_suffix = query[:i]], the first [i] symbols of the query, where
    the cache is read with the length of the remaining suffix, its last
    symbols. For the word ["a"] the query is ["a "]; the entry for length 1 is
    the cost of ["a"], not of the remaining suffix [" "]. On the small models
    the entry is [- ln (3/5) - ln (3/20)]; the cost of [" "] is
    [- ln (2/5) - ln (3/20)] as the code scores it and
    [- ln (2/5) - ln (1 - 3/20)] with the probability of no deletion. *)
Theorem C4_cache_holds_costs_of_prefixes :
  exists cache st',
    build_cache "a " (seq 0 (String.length "a " + 1)) ∅ small_store
      = (Ok cache, st') /\
    cache !! 1%nat = Some (unconditional_cost small_store (take_str 1 "a ")) /\
    take_str 1 "a " = "a"%string /\
    drop_str (String.length "a " - 1) "a " = " "%string /\
    unconditional_cost small_store "a" = (- ln (3/5) - ln (3/20))%R /\
    unconditional_cost small_store " " = (- ln (2/5) - ln (3/20))%R /\
    (- ln (next_proba small_lang "" " ") - ln (1 - p_del small_missed "" " ")
     = - ln (2/5) - ln (17/20))%R /\
    (- ln (3/5) - ln (3/20) <> - ln (2/5) - ln (3/20))%R /\
    (- ln (3/5) - ln (3/20) <> - ln (2/5) - ln (17/20))%R.
Proof.
  assert (Hall : Forall (fun c => c ∈ LM.vocabulary_ small_store.1) (chars "a ")).
  { unfold small_store. cbn [fst]. rewrite small_lang_vocabulary.
    repeat constructor. }
  destruct (returns_build_cache small_store "a " Hall
              (seq 0 (String.length "a " + 1)) ∅ small_store
              (store_equiv_refl _)) as (st' & E & _).
  exists (cache_after small_store "a " (seq 0 (String.length "a " + 1)) ∅), st'.
  split; [exact E|].
  split; [apply cache_after_lookup; simpl; lia|].
  split; [reflexivity|]. split; [reflexivity|].
  assert (Ha : "a"%char ∈ LM.vocabulary_ small_store.1).
  { unfold small_store. cbn [fst]. rewrite small_lang_vocabulary. right. left. }
  assert (Hs : " "%char ∈ LM.vocabulary_ small_store.1).
  { unfold small_store. cbn [fst]. rewrite small_lang_vocabulary. left. }
  split; [|split; [|split; [|split]]].
  - unfold unconditional_cost.
    rewrite (lang_value_one _ _ _ Ha), missed_value_one by discriminate.
    unfold small_store. cbn [fst snd].
    rewrite small_next_proba_a, small_p_del by auto. lra.
  - unfold unconditional_cost.
    rewrite (lang_value_one _ _ _ Hs), missed_value_one by discriminate.
    unfold small_store. cbn [fst snd].
    rewrite small_next_proba_space, small_p_del by auto. lra.
  - rewrite small_next_proba_space, small_p_del by auto.
    replace (1 - 3/20)%R with (17/20)%R by lra. reflexivity.
  - apply ln_sum_neq; lra.
  - apply ln_sum_neq; lra.
Qed.

(** ** C2: the seeded candidate *)

Lemma length_snoc_str w c : String.length (snoc_str w c) = S (String.length w).
Proof. induction w as [|a w IH]; simpl; [reflexivity|]. unfold snoc_str in IH. rewrite IH. reflexivity. Qed.

Lemma take_str_snoc w c : take_str (String.length w) (snoc_str w c) = w.
Proof. induction w as [|a w IH]; simpl; [reflexivity|]. unfold snoc_str in IH. rewrite IH. reflexivity. Qed.

(** the key under which the seeded candidate is stored is the word *)
Lemma strip_ends_padded word :
  strip_ends (String space EmptyString ++ snoc_str word space)%string = word.
Proof.
  change (String space EmptyString ++ snoc_str word space)%string
    with (String space (snoc_str word space)).
  unfold strip_ends. cbn [String.length drop_str].
  rewrite length_snoc_str.
  replace (S (S (String.length word)) - 2)%nat with (String.length word) by lia.
  apply take_str_snoc.
Qed.

Lemma collect_step best freedom candidates : forall (res : gmap string R) key,
  is_Some (res !! key) ->
  is_Some (fold_left
             (fun res candidate =>
                if Rleb (h_proba candidate) (best + freedom)
                then <[strip_ends (h_prefix candidate) := h_proba candidate]> res
                else res)
             candidates res !! key).
Proof.
  induction candidates as [|c rest IH]; intros res key Hk; simpl; [assumption|].
  apply IH. destruct (Rleb _ _); [|assumption].
  destruct (decide (strip_ends (h_prefix c) = key)) as [->|Hne].
  - rewrite lookup_insert_eq. eauto.
  - rewrite lookup_insert_ne by assumption. assumption.
Qed.

Lemma collect_head best freedom c rest :
  (h_proba c <= best + freedom)%R ->
  is_Some (collect best freedom (c :: rest) !! strip_ends (h_prefix c)).
Proof.
  intros Hle. unfold collect. simpl.
  rewrite (proj2 (Rleb_true _ _) Hle).
  apply collect_step. rewrite lookup_insert_eq. eauto.
Qed.

Lemma collect_head_rejected best freedom c :
  ~ (h_proba c <= best + freedom)%R ->
  collect best freedom [c] = ∅.
Proof.
  intros Hn. unfold collect. simpl.
  rewrite (proj2 (Rleb_false _ _) Hn). reflexivity.
Qed.

(** the loop only appends to the candidates and only lowers the best score *)
Lemma search_loop_candidates freedom optimism cache attempts :
  forall heap candidates best st heap' candidates' best' st',
  search_loop freedom optimism cache attempts heap candidates best st
    = (Ok (heap', candidates', best'), st') ->
  (exists extra, candidates' = candidates ++ extra) /\ (best' <= best)%R.
Proof.
  induction attempts as [|n IH];
    intros heap candidates best st heap' candidates' best' st' H; simpl in H.
  - injection H as <- <- <- <-. split; [exists []; rewrite app_nil_r; reflexivity | lra].
  - destruct (heappop heap) as [[next_best heap1]|].
    2:{ injection H as <- <- <- <-.
        split; [exists []; rewrite app_nil_r; reflexivity | lra]. }
    destruct (is_empty_str (h_suffix next_best)).
    + destruct (Rleb _ _).
      * apply IH in H. destruct H as [[extra ->] Hb]. split.
        -- exists (next_best :: extra). rewrite <- app_assoc. reflexivity.
        -- destruct (Rltb (h_proba next_best) best) eqn:E; [|assumption].
           apply Rltb_true in E. lra.
      * apply IH in H. assumption.
    + unfold bind in H.
      destruct (generate_options _ _ _ _ _ st) as [[new_options|e] st1];
        [|discriminate].
      apply IH in H. assumption.
Qed.

(** First half of C2: whenever [noisy_channel] returns, the result has the
    word itself as a key provided the score it was seeded with is within
    [freedom] of the final best score. *)
Lemma noisy_channel_result_has_word word freedom max_attempts optimism st res st' :
  noisy_channel word freedom max_attempts optimism st = (Ok res, st') ->
  exists b st1 cache st2 heap' candidates' best',
    baseline (snoc_str word space) st = (Ok b, st1) /\
    build_cache (snoc_str word space)
      (seq 0 (String.length (snoc_str word space) + 1)) ∅ st1 = (Ok cache, st2) /\
    search_loop freedom optimism cache max_attempts
      [Hyp (b * optimism) (String space EmptyString) (snoc_str word space)
           (Some EmptyString) (b * optimism)]
      [Hyp b (String space EmptyString ++ snoc_str word space)%string
           EmptyString None 0]
      b st2 = (Ok (heap', candidates', best'), st') /\
    res = collect best' freedom candidates' /\
    (best' <= b)%R /\
    ((b <= best' + freedom)%R -> is_Some (res !! word)).
Proof.
  unfold noisy_channel, bind at 1. intros H.
  destruct (baseline (snoc_str word space) st) as [[b|e] st1] eqn:E1; [|discriminate].
  unfold bind at 1 in H.
  destruct (build_cache _ _ _ st1) as [[cache|e] st2] eqn:E2; [|discriminate].
  unfold bind at 1 in H.
  destruct (search_loop _ _ _ _ _ _ _ st2) as [[[[heap' candidates'] best']|e] st3] eqn:E;
    [|discriminate].
  injection H as <- <-.
  exists b, st1, cache, st2, heap', candidates', best'.
  split; [reflexivity|]. split; [exact E2|]. split; [exact E|].
  split; [reflexivity|].
  apply search_loop_candidates in E. destruct E as [[extra ->] Hb].
  split; [assumption|]. intros Hle.
  pose proof (collect_head best' freedom
           (Hyp b (String space EmptyString ++ snoc_str word space)%string
                EmptyString None 0) extra Hle) as Hc.
  cbn [h_prefix] in Hc. rewrite strip_ends_padded in Hc. exact Hc.
Qed.

(** ** The search returns on words over the vocabulary *)

Lemma extract_min_Forall (P : hypothesis -> Prop) h : forall x,
  P x -> Forall P h ->
  P (extract_min x h).1 /\ Forall P (extract_min x h).2.
Proof.
  induction h as [|y h IH]; intros x Hx Hh; simpl.
  - split; [assumption | constructor].
  - inversion Hh as [|? ? Hy Hh']; subst.
    destruct (IH y Hy Hh') as [Hm Hr].
    destruct (extract_min y h) as [m rest]. cbn [fst snd] in *.
    destruct (hyp_ltb m x); cbn [fst snd].
    + split; [assumption | constructor; assumption].
    + split; [assumption | constructor; assumption].
Qed.

Lemma heappop_Forall (P : hypothesis -> Prop) heap next_best heap' :
  Forall P heap -> heappop heap = Some (next_best, heap') ->
  P next_best /\ Forall P heap'.
Proof.
  destruct heap as [|x h]; [discriminate|]. intros Hall [= E].
  inversion Hall as [|? ? Hx Hh]; subst.
  pose proof (extract_min_Forall P h x Hx Hh) as H. rewrite E in H. exact H.
Qed.

Lemma push_options_Forall (P : hypothesis -> Prop) best freedom new_options :
  Forall P new_options -> forall heap, Forall P heap ->
  Forall P (push_options best freedom new_options heap).
Proof.
  unfold push_options. intros Hn.
  induction Hn as [|o os Ho Hos IH]; intros heap Hh; simpl; [assumption|].
  apply IH. destruct (Rltb _ _); [constructor|]; assumption.
Qed.

Lemma children_ok st0 cache prefix_proba prefix c rest optimism v v' :
  node_ok st0 cache (Hyp 0 prefix (String c rest) None 0) ->
  Forall (node_ok st0 cache)
    (map (deleted_child st0 prefix_proba prefix (String c rest) optimism v)
         (LM.vocabulary_ st0.1) ++
     [kept_child st0 prefix_proba prefix rest optimism v' c]).
Proof.
  intros [Hv Hc]. cbn [h_suffix] in *. apply Forall_app. split.
  - apply Forall_forall. intros h Hin.
    apply list_elem_of_fmap in Hin. destruct Hin as (a & -> & _).
    split; assumption.
  - constructor; [|constructor]. split; cbn [h_suffix kept_child].
    + simpl in Hv. inversion Hv. assumption.
    + intros n Hn. apply Hc. simpl. lia.
Qed.

Lemma search_loop_returns st0 freedom optimism cache attempts :
  forall heap candidates best,
  Forall (node_ok st0 cache) heap ->
  forall st, store_equiv st0 st ->
  exists final st',
    search_loop freedom optimism cache attempts heap candidates best st
      = (Ok final, st') /\ store_equiv st0 st'.
Proof.
  induction attempts as [|n IH]; intros heap candidates best Hh st He.
  - simpl. eexists _, st. split; [reflexivity | assumption].
  - destruct (heappop heap) as [[next_best heap']|] eqn:Hpop.
    2:{ simpl. rewrite Hpop. eexists _, st. split; [reflexivity | assumption]. }
    destruct (heappop_Forall _ _ _ _ Hh Hpop) as [Hnb Hh'].
    destruct (h_suffix next_best) as [|c rest] eqn:Hs.
    + simpl. rewrite Hpop, Hs. cbn [is_empty_str].
      destruct (Rleb _ _); apply IH; assumption.
    + rewrite (search_loop_expand _ _ _ _ _ _ _ _ _ Hpop)
        by (rewrite Hs; discriminate).
      destruct Hnb as [Hv Hc]. rewrite Hs in Hv, Hc.
      assert (Hin : c ∈ LM.vocabulary_ st0.1) by (simpl in Hv; inversion Hv; assumption).
      destruct (Hc (String.length (String c rest)) (le_n _)) as [v Ev].
      destruct (Hc (String.length rest)) as [v' Ev']; [simpl; lia|].
      rewrite Hs.
      destruct (returns_generate_options st0
                  (h_proba next_best - h_proba_suffix next_best)
                  (h_prefix next_best) c rest optimism cache v v' Hin Ev Ev' st He)
        as (st1 & E1 & He1).
      rewrite (bind_ok _ _ _ _ _ E1).
      apply IH; [|assumption].
      apply push_options_Forall; [|assumption].
      apply (children_ok st0 cache _ (h_prefix next_best) c rest optimism v v').
      split; assumption.
Qed.

Lemma returns_baseline st0 query :
  Forall (fun c => c ∈ LM.vocabulary_ st0.1) (chars query) ->
  returns st0 (baseline query)
    (- lang_value st0 (String space EmptyString) query
     + - missed_value st0 (String space EmptyString) query)%R.
Proof.
  intros Hall. unfold baseline.
  eapply returns_bind; [apply returns_lang_value, Hall|].
  eapply returns_bind; [apply returns_missed_single_log_proba|].
  apply returns_ret.
Qed.

(** On a word whose symbols, and the space, are in the vocabulary of the
    language model, [noisy_channel] returns a result mapping. *)
Lemma noisy_channel_returns st word freedom max_attempts optimism :
  Forall (fun c => c ∈ LM.vocabulary_ st.1) (chars word) ->
  space ∈ LM.vocabulary_ st.1 ->
  exists res st',
    noisy_channel word freedom max_attempts optimism st = (Ok res, st') /\
    store_equiv st st'.
Proof.
  intros Hw Hsp.
  assert (Hall : Forall (fun c => c ∈ LM.vocabulary_ st.1)
                   (chars (snoc_str word space))).
  { rewrite chars_snoc. apply Forall_app. split; [assumption|].
    constructor; [assumption | constructor]. }
  unfold noisy_channel.
  destruct (returns_baseline st _ Hall st (store_equiv_refl st)) as (st1 & E1 & He1).
  rewrite (bind_ok _ _ _ _ _ E1).
  destruct (returns_build_cache st _ Hall
              (seq 0 (String.length (snoc_str word space) + 1)) ∅ st1 He1)
    as (st2 & E2 & He2).
  rewrite (bind_ok _ _ _ _ _ E2).
  set (b := (- lang_value st (String space EmptyString) (snoc_str word space)
             + - missed_value st (String space EmptyString) (snoc_str word space))%R).
  destruct (search_loop_returns st freedom optimism
              (cache_after st (snoc_str word space)
                 (seq 0 (String.length (snoc_str word space) + 1)) ∅)
              max_attempts
              [Hyp (b * optimism) (String space EmptyString) (snoc_str word space)
                   (Some EmptyString) (b * optimism)]
              [Hyp b (String space EmptyString ++ snoc_str word space)%string
                   EmptyString None 0]
              b) with (st := st2) as ([[heap' candidates'] best'] & st3 & E3 & He3).
  { constructor; [|constructor]. split; cbn [h_suffix]; [assumption|].
    intros n Hn. rewrite cache_after_lookup by assumption. eauto. }
  { assumption. }
  rewrite (bind_ok _ _ _ _ _ E3).
  eexists _, st3. split; [reflexivity | assumption].
Qed.

Lemma small_lang_value_a_space :
  lang_value small_store " " "a " = (0 + ln (3/5) + ln (2/5))%R.
Proof.
  unfold lang_value. rewrite (proj1 (lang_single_log_proba_spec _ _ _)).
  unfold small_store. cbn [fst chars lang_log_terms].
  rewrite !small_lang_proba. cbn [series_get].
  rewrite decide_False by discriminate.
  rewrite decide_True by reflexivity.
  cbn [lang_log_terms series_get].
  rewrite decide_True by reflexivity. reflexivity.
Qed.

Lemma small_missed_value_a_space :
  missed_value small_store " " "a " = (0 + ln (3/20) + ln (3/20))%R.
Proof.
  unfold missed_value. rewrite (proj1 (missed_single_log_proba_spec _ _ _ _)).
  unfold small_store.
  cbn [snd MissingLetterModel.truthy chars zip zip_with missed_log_terms].
  rewrite !decide_False by discriminate.
  rewrite !small_p_del by auto. reflexivity.
Qed.

(** C2 (defect of the code). The score that seeds the search and the
    candidate for the word itself is computed with the missing-letter
    model's [single_log_proba(' ', query)], which scores a kept letter with
    [log p_del] instead of [log (1 - p_del)] (the defect of C1). For the word
    ["a"] on the small models the seed is
    [- ln (3/5) - ln (2/5) - ln (3/20) - ln (3/20)], while the path that
    consumes ["a "] with no deletion costs
    [- ln (17/20) - ln (3/5) - ln (17/20) - ln (2/5)], which is smaller. *)
Theorem C2_baseline_is_not_the_zero_deletion_cost :
  exists b st1,
    baseline "a " small_store = (Ok b, st1) /\
    b = (- ln (3/5) - ln (2/5) - ln (3/20) - ln (3/20))%R /\
    zero_deletion_cost small_store " " (chars "a ")
      = (- ln (17/20) - ln (3/5) - ln (17/20) - ln (2/5))%R /\
    (zero_deletion_cost small_store " " (chars "a ") < b)%R.
Proof.
  assert (Hall : Forall (fun c => c ∈ LM.vocabulary_ small_store.1) (chars "a ")).
  { unfold small_store. cbn [fst]. rewrite small_lang_vocabulary.
    repeat constructor. }
  destruct (returns_baseline small_store "a " Hall small_store
              (store_equiv_refl _)) as (st1 & E & _).
  eexists _, st1. split; [exact E|].
  change (String space EmptyString) with " "%string.
  rewrite small_lang_value_a_space, small_missed_value_a_space.
  assert (Hz : zero_deletion_cost small_store " " (chars "a ")
               = (- ln (17/20) - ln (3/5) - ln (17/20) - ln (2/5))%R).
  { cbn [chars zero_deletion_cost]. unfold keep_cost, small_store. cbn [fst snd].
    rewrite small_next_proba_a, small_next_proba_space.
    rewrite !small_p_del by auto.
    replace (1 - 3/20)%R with (17/20)%R by lra. lra. }
  split; [lra|]. split; [exact Hz|].
  rewrite Hz.
  assert (Hlt : (ln (3/20) < ln (17/20))%R) by (apply ln_increasing; lra).
  lra.
Qed.

(** ** C6: the role of [freedom] *)

(** *** One round of the loop at a time *)

Lemma returns_search_stop st0 freedom optimism cache heap candidates best :
  returns st0 (search_loop freedom optimism cache 0 heap candidates best)
    (heap, candidates, best).
Proof. apply returns_ret. Qed.

Lemma returns_search_empty st0 freedom optimism cache attempts candidates best :
  returns st0 (search_loop freedom optimism cache (S attempts) [] candidates best)
    ([], candidates, best).
Proof. apply returns_ret. Qed.

Lemma returns_search_leaf_best st0 freedom optimism cache attempts heap candidates
    best next_best heap' final :
  heappop heap = Some (next_best, heap') ->
  h_suffix next_best = EmptyString ->
  (h_proba next_best <= best + freedom)%R ->
  (h_proba next_best < best)%R ->
  returns st0
    (search_loop freedom optimism cache attempts heap'
       (candidates ++ [next_best]) (h_proba next_best)) final ->
  returns st0
    (search_loop freedom optimism cache (S attempts) heap candidates best) final.
Proof.
  intros Hpop Hs Hle Hlt H. simpl. rewrite Hpop, Hs. cbn [is_empty_str].
  rewrite (proj2 (Rleb_true _ _) Hle), (proj2 (Rltb_true _ _) Hlt). exact H.
Qed.

Lemma returns_search_expand st0 freedom optimism cache attempts heap candidates
    best parent heap' c rest v v' final :
  heappop heap = Some (parent, heap') ->
  h_suffix parent = String c rest ->
  c ∈ LM.vocabulary_ st0.1 ->
  cache !! String.length (String c rest) = Some v ->
  cache !! String.length rest = Some v' ->
  returns st0
    (search_loop freedom optimism cache attempts
       (push_options best freedom
          (map (deleted_child st0 (h_proba parent - h_proba_suffix parent)
                  (h_prefix parent) (String c rest) optimism v)
               (LM.vocabulary_ st0.1) ++
           [kept_child st0 (h_proba parent - h_proba_suffix parent)
              (h_prefix parent) rest optimism v' c])
          heap')
       candidates best) final ->
  returns st0
    (search_loop freedom optimism cache (S attempts) heap candidates best) final.
Proof.
  intros Hpop Hs Hin Hv Hv' H.
  rewrite (search_loop_expand _ _ _ _ _ _ _ _ _ Hpop) by (rewrite Hs; discriminate).
  eapply returns_bind; [|exact H].
  rewrite Hs. apply returns_generate_options; assumption.
Qed.

(** the whole call, from the result of the loop *)
Lemma returns_noisy_channel st0 word freedom max_attempts optimism heap' candidates' best' :
  Forall (fun c => c ∈ LM.vocabulary_ st0.1) (chars (snoc_str word space)) ->
  (let b := (- lang_value st0 (String space EmptyString) (snoc_str word space)
             + - missed_value st0 (String space EmptyString) (snoc_str word space))%R in
   returns st0
     (search_loop freedom optimism
        (cache_after st0 (snoc_str word space)
           (seq 0 (String.length (snoc_str word space) + 1)) ∅)
        max_attempts
        [Hyp (b * optimism) (String space EmptyString) (snoc_str word space)
             (Some EmptyString) (b * optimism)]
        [Hyp b (String space EmptyString ++ snoc_str word space)%string
             EmptyString None 0]
        b)
     (heap', candidates', best')) ->
  returns st0 (noisy_channel word freedom max_attempts optimism)
    (collect best' freedom candidates').
Proof.
  intros Hall H. unfold noisy_channel.
  eapply returns_bind; [apply returns_baseline, Hall|].
  eapply returns_bind; [apply returns_build_cache, Hall|].
  eapply returns_bind; [exact H|]. apply returns_ret.
Qed.

(** *** A pair of models on which the result is not monotone *)

Lemma tiny_vocabulary : LM.vocabulary_ tiny_lang = [" "; "a"]%char.
Proof. unfold tiny_lang. rewrite lang_fit_vocabulary. vm_compute. reflexivity. Qed.

Lemma tiny_counts context n_space n_a :
  table_count (LM.fit_loop " a a" 1 0 (chars (drop_str 1 " a a")) ∅ ∅ ∅).1.1
    (LM.local_context 1 context) " " = n_space ->
  table_count (LM.fit_loop " a a" 1 0 (chars (drop_str 1 " a a")) ∅ ∅ ∅).1.1
    (LM.local_context 1 context) "a" = n_a ->
  (LM.get_counts tiny_lang context).1
  = [(" "%char, (INR n_space + 1)%R); ("a"%char, (INR n_a + 1)%R)].
Proof.
  intros H1 H2. rewrite get_counts_no_child.
  2:{ unfold tiny_lang.
      destruct (lang_fit_fields 1 1 0 " a a") as (_ & _ & _ & _ & _ & ->).
      destruct (Rltb 0 0) eqn:E; [|reflexivity].
      apply Rltb_true in E. lra. }
  rewrite tiny_vocabulary. unfold tiny_lang.
  destruct (lang_fit_fields 1 1 0 " a a") as (-> & -> & _ & -> & _).
  cbn [map]. rewrite H1, H2. reflexivity.
Qed.

Lemma tiny_proba_after_nothing :
  lang_proba tiny_lang "" = [(" "%char, (1/2)%R); ("a"%char, (1/2)%R)].
Proof.
  rewrite lang_proba_eq.
  rewrite (tiny_counts "" 0 0) by (vm_compute; reflexivity).
  unfold series_div, series_sum. cbn [map foldr fst snd INR].
  repeat f_equal; lra.
Qed.

Lemma tiny_proba_after_space :
  lang_proba tiny_lang " " = [(" "%char, (1/4)%R); ("a"%char, (3/4)%R)].
Proof.
  rewrite lang_proba_eq.
  rewrite (tiny_counts " " 0 2) by (vm_compute; reflexivity).
  unfold series_div, series_sum. cbn [map foldr fst snd]. simpl INR.
  repeat f_equal; lra.
Qed.

Lemma tiny_proba_after_a :
  lang_proba tiny_lang " a" = [(" "%char, (2/3)%R); ("a"%char, (1/3)%R)].
Proof.
  rewrite lang_proba_eq.
  rewrite (tiny_counts " a" 1 0) by (vm_compute; reflexivity).
  unfold series_div, series_sum. cbn [map foldr fst snd]. simpl INR.
  repeat f_equal; lra.
Qed.

Lemma tiny_p_del_space context : p_del tiny_missed context " " = (3/20)%R.
Proof.
  unfold tiny_missed. rewrite p_del_fit.
  replace (table_count (MissingLetterModel.fit_loop _ _ _ _).1 _ _) with 0%nat
    by (vm_compute; reflexivity).
  replace (table_count (MissingLetterModel.fit_loop _ _ _ _).2 _ _) with 1%nat
    by (vm_compute; reflexivity).
  simpl INR. lra.
Qed.

Lemma tiny_p_del_a context : p_del tiny_missed context "a" = (13/20)%R.
Proof.
  unfold tiny_missed. rewrite p_del_fit.
  replace (table_count (MissingLetterModel.fit_loop _ _ _ _).1 _ _) with 1%nat
    by (vm_compute; reflexivity).
  replace (table_count (MissingLetterModel.fit_loop _ _ _ _).2 _ _) with 1%nat
    by (vm_compute; reflexivity).
  simpl INR. lra.
Qed.

Ltac tiny_lookup :=
  unfold next_proba;
  rewrite ?tiny_proba_after_nothing, ?tiny_proba_after_space, ?tiny_proba_after_a;
  cbn [series_get];
  repeat first [ rewrite decide_True by reflexivity
               | rewrite decide_False by discriminate ];
  try reflexivity.

Lemma tiny_next_nothing_space : next_proba tiny_lang "" " " = (1/2)%R.
Proof. tiny_lookup. Qed.
Lemma tiny_next_space_space : next_proba tiny_lang " " " " = (1/4)%R.
Proof. tiny_lookup. Qed.
Lemma tiny_next_space_a : next_proba tiny_lang " " "a" = (3/4)%R.
Proof. tiny_lookup. Qed.
Lemma tiny_next_a_space : next_proba tiny_lang " a" " " = (2/3)%R.
Proof. tiny_lookup. Qed.
Lemma tiny_next_a_a : next_proba tiny_lang " a" "a" = (1/3)%R.
Proof. tiny_lookup. Qed.

(** *** Comparing scores *)

Lemma ln_monotone x y : (0 < x)%R -> (x <= y)%R -> (ln x <= ln y)%R.
Proof.
  intros Hx [Hlt | ->]; [left; apply ln_increasing; assumption | right; reflexivity].
Qed.

(** [ln (11/10) < 1/10 < ln (10/9)] *)
Lemma ln_11_10 : (ln (11/10) < 1/10)%R.
Proof.
  assert (H : (ln (11/10) < ln (exp (1/10)))%R).
  { apply ln_increasing; [lra|]. pose proof (exp_ineq1 (1/10)). lra. }
  rewrite ln_exp in H. exact H.
Qed.

Lemma ln_10_9 : (1/10 < ln (10/9))%R.
Proof.
  assert (H : (ln (9/10) < - (1/10))%R).
  { assert (H : (ln (9/10) < ln (exp (- (1/10))))%R).
    { apply ln_increasing; [lra|]. pose proof (exp_ineq1 (- (1/10))). lra. }
    rewrite ln_exp in H. exact H. }
  assert (E : (ln (9/10) + ln (10/9) = 0)%R).
  { rewrite <- ln_mult by lra. replace (9/10 * (10/9))%R with 1%R by lra. apply ln_1. }
  lra.
Qed.

(** a greater probability is a smaller cost *)
Lemma cost_lt q1 q2 : (0 < q2)%R -> (q2 < q1)%R -> (- ln q1 < - ln q2)%R.
Proof. intros H0 H. pose proof (ln_increasing q2 q1 H0 H). lra. Qed.

Lemma cost_le q1 q2 : (0 < q2)%R -> (q2 <= q1)%R -> (- ln q1 <= - ln q2)%R.
Proof. intros H0 H. pose proof (ln_monotone q2 q1 H0 H). lra. Qed.

(** within [1/10] of a cost, and not *)
Lemma cost_lt_tenth q1 q2 :
  (0 < q1)%R -> (0 < q2)%R -> (q2 <= 11/10 * q1)%R ->
  (- ln q1 < - ln q2 + 1/10)%R.
Proof.
  intros H1 H2 H. pose proof (ln_monotone q2 (11/10 * q1) H2 H) as Hm.
  rewrite ln_mult in Hm by lra. pose proof ln_11_10. lra.
Qed.

Lemma cost_not_le_tenth q1 q2 :
  (0 < q1)%R -> (0 < q2)%R -> (10/9 * q1 <= q2)%R ->
  ~ (- ln q1 <= - ln q2 + 1/10)%R.
Proof.
  intros H1 H2 H. assert (H3 : (0 < 10/9 * q1)%R) by lra.
  pose proof (ln_monotone (10/9 * q1) q2 H3 H) as Hm.
  rewrite ln_mult in Hm by lra. pose proof ln_10_9. lra.
Qed.

Lemma cost_not_lt_tenth q1 q2 :
  (0 < q1)%R -> (0 < q2)%R -> (10/9 * q1 <= q2)%R ->
  ~ (- ln q1 < - ln q2 + 1/10)%R.
Proof.
  intros H1 H2 H Hlt. apply (cost_not_le_tenth q1 q2 H1 H2 H). lra.
Qed.

Lemma Reqb_false x y : x <> y -> Reqb x y = false.
Proof. intros H. unfold Reqb. destruct (Req_dec_T x y); [contradiction | reflexivity]. Qed.

(** the entries of the cache for the query [" "] *)
Lemma tiny_cache_0 :
  cache_after tiny_store " " (seq 0 (String.length " " + 1)) ∅ !! 0%nat = Some 0%R.
Proof.
  rewrite cache_after_lookup by (simpl; lia).
  f_equal. unfold unconditional_cost, lang_value, missed_value. simpl. lra.
Qed.

Lemma tiny_cache_1 :
  cache_after tiny_store " " (seq 0 (String.length " " + 1)) ∅ !! 1%nat
  = Some (- ln (1/2 * (3/20)))%R.
Proof.
  rewrite cache_after_lookup by (simpl; lia).
  f_equal. change (take_str 1 " ") with " "%string.
  assert (Hs : " "%char ∈ LM.vocabulary_ tiny_store.1).
  { unfold tiny_store. cbn [fst]. rewrite tiny_vocabulary. left. }
  unfold unconditional_cost.
  rewrite (lang_value_one _ _ _ Hs), missed_value_one by discriminate.
  unfold tiny_store. cbn [fst snd].
  rewrite tiny_next_nothing_space, tiny_p_del_space.
  rewrite ln_mult by lra. lra.
Qed.

(** the score the search starts from, for the empty word *)
Lemma tiny_baseline :
  (- lang_value tiny_store " " " " + - missed_value tiny_store " " " "
   = - ln (1/4 * (3/20)))%R.
Proof.
  assert (Hs : " "%char ∈ LM.vocabulary_ tiny_store.1).
  { unfold tiny_store. cbn [fst]. rewrite tiny_vocabulary. left. }
  rewrite (lang_value_one _ _ _ Hs), missed_value_one by discriminate.
  unfold tiny_store. cbn [fst snd].
  rewrite tiny_next_space_space, tiny_p_del_space.
  rewrite ln_mult by lra. lra.
Qed.

Ltac tiny_values :=
  unfold deleted_child, kept_child, deletion_cost, keep_cost, tiny_store;
  cbn [fst snd snoc_str String.append];
  rewrite ?tiny_next_space_space, ?tiny_next_space_a, ?tiny_next_a_space,
    ?tiny_next_a_a, ?tiny_p_del_space, ?tiny_p_del_a.

Lemma tiny_root_children pp :
  pp = 0%R ->
  map (deleted_child tiny_store pp " " " " 1 (- ln (1/2 * (3/20))))
      [" "; "a"]%char ++
  [kept_child tiny_store pp " " "" 1 0 " "]
  = [Hyp (- ln (3/20 * (1/4) * (1/2 * (3/20)))) "  " " " (Some " "%string)
         (- ln (1/2 * (3/20)));
     Hyp (- ln (13/20 * (3/4) * (1/2 * (3/20)))) " a" " " (Some "a"%string)
         (- ln (1/2 * (3/20)));
     Hyp (- ln (17/20 * (1/4))) "  " "" (Some EmptyString) 0].
Proof.
  intros ->. cbn [map app]. tiny_values.
  replace (1 - 3/20)%R with (17/20)%R by lra.
  repeat f_equal; rewrite ?ln_mult by lra; lra.
Qed.

Lemma tiny_a_children pp :
  pp = (- ln (13/20 * (3/4)))%R ->
  map (deleted_child tiny_store pp " a" " " 1 (- ln (1/2 * (3/20))))
      [" "; "a"]%char ++
  [kept_child tiny_store pp " a" "" 1 0 " "]
  = [Hyp (- ln (13/20 * (3/4) * (3/20 * (2/3)) * (1/2 * (3/20)))) " a " " "
         (Some " "%string) (- ln (1/2 * (3/20)));
     Hyp (- ln (13/20 * (3/4) * (13/20 * (1/3)) * (1/2 * (3/20)))) " aa" " "
         (Some "a"%string) (- ln (1/2 * (3/20)));
     Hyp (- ln (13/20 * (3/4) * (17/20 * (2/3)))) " a " "" (Some EmptyString) 0].
Proof.
  intros ->. cbn [map app]. tiny_values.
  replace (1 - 3/20)%R with (17/20)%R by lra.
  repeat f_equal; rewrite ?ln_mult by lra; lra.
Qed.

Ltac rltb_is b tac :=
  match goal with
  | |- context [Rltb ?s ?t] =>
      let H := fresh in
      assert (H : Rltb s t = b) by tac; rewrite H; clear H
  end.

Lemma heappop_two x y :
  (h_proba x < h_proba y)%R -> heappop [x; y] = Some (x, [y]).
Proof.
  intros H. unfold heappop. cbn [extract_min]. unfold hyp_ltb.
  rewrite (proj2 (Rltb_false (h_proba y) (h_proba x))) by lra.
  rewrite Reqb_false by lra. reflexivity.
Qed.

Ltac tiny_children lem :=
  cbn [h_proba h_proba_suffix h_prefix];
  replace (LM.vocabulary_ tiny_store.1) with [" "; "a"]%char
    by (unfold tiny_store; cbn [fst]; rewrite tiny_vocabulary; reflexivity);
  rewrite lem by (rewrite ?ln_mult by lra; lra);
  unfold push_options; cbn [fold_left h_proba heappush].

Ltac within_tenth := apply Rltb_true, cost_lt_tenth; lra.
Ltac beyond_tenth := apply Rltb_false, cost_not_lt_tenth; lra.

Lemma tiny_space_in_vocabulary : " "%char ∈ LM.vocabulary_ tiny_store.1.
Proof. unfold tiny_store. cbn [fst]. rewrite tiny_vocabulary. left. Qed.

(** the search for the empty word with [freedom = 1/10]: the node that
    assumes a deleted ["a"] is pushed too, and leads to the better leaf
    [" a "] *)
Lemma tiny_search_wide n :
  returns tiny_store
    (search_loop (1/10) 1 tiny_cache (4 + n)
       [Hyp (- ln (1/4 * (3/20)) * 1) " " " " (Some EmptyString)
            (- ln (1/4 * (3/20)) * 1)]
       [Hyp (- ln (1/4 * (3/20))) "  " "" None 0]
       (- ln (1/4 * (3/20))))
    ([],
     [Hyp (- ln (1/4 * (3/20))) "  " "" None 0;
      Hyp (- ln (17/20 * (1/4))) "  " "" (Some EmptyString) 0;
      Hyp (- ln (13/20 * (3/4) * (17/20 * (2/3)))) " a " "" (Some EmptyString) 0],
     (- ln (13/20 * (3/4) * (17/20 * (2/3))))%R).
Proof.
  cbn [Nat.add].
  (* the root is expanded: the child that assumes a deleted "a" and the
     leaf "  " are pushed *)
  eapply (returns_search_expand tiny_store _ _ _ _ _ _ _ _ _ " "%char "");
    [reflexivity | reflexivity | exact tiny_space_in_vocabulary
    | exact tiny_cache_1 | exact tiny_cache_0 |].
  tiny_children tiny_root_children.
  rltb_is false beyond_tenth.
  rltb_is true within_tenth.
  rltb_is true within_tenth.
  (* the leaf "  " is accepted and becomes the best *)
  eapply returns_search_leaf_best;
    [ apply heappop_two; cbn [h_proba]; apply cost_lt; lra
    | reflexivity
    | cbn [h_proba]; left; apply cost_lt_tenth; lra
    | cbn [h_proba]; apply cost_lt; lra |].
  cbn [h_proba app].
  (* the node " a" is expanded: its leaf " a " is pushed *)
  eapply (returns_search_expand tiny_store _ _ _ _ _ _ _ _ _ " "%char "");
    [reflexivity | reflexivity | exact tiny_space_in_vocabulary
    | exact tiny_cache_1 | exact tiny_cache_0 |].
  tiny_children tiny_a_children.
  rltb_is false beyond_tenth.
  rltb_is false beyond_tenth.
  rltb_is true within_tenth.
  (* the leaf " a " is accepted and becomes the best *)
  eapply returns_search_leaf_best;
    [ reflexivity
    | reflexivity
    | cbn [h_proba]; left; apply cost_lt_tenth; lra
    | cbn [h_proba]; apply cost_lt; lra |].
  cbn [h_proba app].
  destruct n; [apply returns_search_stop | apply returns_search_empty].
Qed.

Lemma cost_lt_zero q1 q2 : (0 < q2)%R -> (q2 < q1)%R -> (- ln q1 < - ln q2 + 0)%R.
Proof. intros H0 H. pose proof (cost_lt q1 q2 H0 H). lra. Qed.

Lemma cost_not_lt_zero q1 q2 :
  (0 < q1)%R -> (q1 <= q2)%R -> ~ (- ln q1 < - ln q2 + 0)%R.
Proof. intros H0 H. pose proof (cost_le q2 q1 H0 H). lra. Qed.

Lemma cost_not_le_zero q1 q2 :
  (0 < q1)%R -> (q1 < q2)%R -> ~ (- ln q1 <= - ln q2 + 0)%R.
Proof. intros H0 H. pose proof (cost_lt q2 q1 H0 H). lra. Qed.

Ltac within_zero := apply Rltb_true, cost_lt_zero; lra.
Ltac beyond_zero := apply Rltb_false, cost_not_lt_zero; lra.

(** the search for the empty word with [freedom = 0]: only the leaf ["  "]
    is pushed, and it is accepted *)
Lemma tiny_search_narrow n :
  returns tiny_store
    (search_loop 0 1 tiny_cache (3 + n)
       [Hyp (- ln (1/4 * (3/20)) * 1) " " " " (Some EmptyString)
            (- ln (1/4 * (3/20)) * 1)]
       [Hyp (- ln (1/4 * (3/20))) "  " "" None 0]
       (- ln (1/4 * (3/20))))
    ([],
     [Hyp (- ln (1/4 * (3/20))) "  " "" None 0;
      Hyp (- ln (17/20 * (1/4))) "  " "" (Some EmptyString) 0],
     (- ln (17/20 * (1/4)))%R).
Proof.
  cbn [Nat.add].
  eapply (returns_search_expand tiny_store _ _ _ _ _ _ _ _ _ " "%char "");
    [reflexivity | reflexivity | exact tiny_space_in_vocabulary
    | exact tiny_cache_1 | exact tiny_cache_0 |].
  tiny_children tiny_root_children.
  rltb_is false beyond_zero.
  rltb_is false beyond_zero.
  rltb_is true within_zero.
  eapply returns_search_leaf_best;
    [ reflexivity
    | reflexivity
    | cbn [h_proba]; left; apply cost_lt_zero; lra
    | cbn [h_proba]; apply cost_lt; lra |].
  cbn [h_proba app].
  apply returns_search_empty.
Qed.

Lemma tiny_noisy_channel freedom max_attempts heap' candidates' best' :
  returns tiny_store
    (search_loop freedom 1 tiny_cache max_attempts
       [Hyp (- ln (1/4 * (3/20)) * 1) " " " " (Some EmptyString)
            (- ln (1/4 * (3/20)) * 1)]
       [Hyp (- ln (1/4 * (3/20))) "  " "" None 0]
       (- ln (1/4 * (3/20))))
    (heap', candidates', best') ->
  returns tiny_store (noisy_channel "" freedom max_attempts 1)
    (collect best' freedom candidates').
Proof.
  intros H. apply (returns_noisy_channel tiny_store "" freedom max_attempts 1
                     heap' candidates' best').
  - change (chars (snoc_str "" space)) with [" "%char].
    constructor; [exact tiny_space_in_vocabulary | constructor].
  - cbv zeta.
    change (snoc_str "" space) with " "%string.
    change (String space EmptyString) with " "%string.
    rewrite tiny_baseline. exact H.
Qed.

(** *** The final filter *)

Lemma collect_fold_monotone best f1 f2 candidates :
  (f1 <= f2)%R ->
  forall (res1 res2 : gmap string R),
  (forall key, is_Some (res1 !! key) -> is_Some (res2 !! key)) ->
  forall key,
  is_Some (fold_left
             (fun res candidate =>
                if Rleb (h_proba candidate) (best + f1)
                then <[strip_ends (h_prefix candidate) := h_proba candidate]> res
                else res)
             candidates res1 !! key) ->
  is_Some (fold_left
             (fun res candidate =>
                if Rleb (h_proba candidate) (best + f2)
                then <[strip_ends (h_prefix candidate) := h_proba candidate]> res
                else res)
             candidates res2 !! key).
Proof.
  intros Hf. induction candidates as [|c rest IH]; intros res1 res2 Hincl key; simpl.
  - apply Hincl.
  - apply IH. clear key. intros key.
    destruct (Rleb (h_proba c) (best + f1)) eqn:E1.
    + apply Rleb_true in E1.
      rewrite (proj2 (Rleb_true (h_proba c) (best + f2))) by lra.
      destruct (decide (strip_ends (h_prefix c) = key)) as [->|Hne].
      * rewrite !lookup_insert_eq. eauto.
      * rewrite !lookup_insert_ne by assumption. apply Hincl.
    + intros Hk. apply Hincl in Hk.
      destruct (Rleb (h_proba c) (best + f2)); [|assumption].
      destruct (decide (strip_ends (h_prefix c) = key)) as [->|Hne].
      * rewrite lookup_insert_eq. eauto.
      * rewrite lookup_insert_ne by assumption. assumption.
Qed.

(** C6 (as amended). On the same candidates and the same best score, the
    final filter of [noisy_channel], [candidate[0] <= best_logprob + freedom],
    accepts with a smaller [freedom] a subset of the phrases it accepts with
    a larger one. *)
Theorem C6_final_filter_is_monotone_in_freedom :
  forall (best f1 f2 : R) (candidates : list hypothesis) (key : string),
    (f1 <= f2)%R ->
    is_Some (collect best f1 candidates !! key) ->
    is_Some (collect best f2 candidates !! key).
Proof.
  intros best f1 f2 candidates key Hf. unfold collect.
  apply collect_fold_monotone; [assumption | auto].
Qed.

Lemma C6_final_filter_witness :
  is_Some (collect 0 1 [Hyp 0 " a " "" (Some EmptyString) 0] !! "a"%string).
Proof.
  apply (C6_final_filter_is_monotone_in_freedom 0 0 1
           [Hyp 0 " a " "" (Some EmptyString) 0] "a").
  - lra.
  - apply (collect_head 0 0 (Hyp 0 " a " "" (Some EmptyString) 0) []).
    simpl. lra.
Defined.

Ltac rleb_is b tac :=
  match goal with
  | |- context [Rleb ?s ?t] =>
      let H := fresh in
      assert (H : Rleb s t = b) by tac; rewrite H; clear H
  end.

(** C6 (counterexample). On the tiny models, for the empty word, with
    [optimism = 1] and the default [max_attempts = 1000]: with
    [freedom = 0] the search returns the empty phrase; with [freedom = 1/10]
    it also explores the node that assumes a deleted ["a"], finds the better
    leaf [" a "], and the final filter, now relative to that better score,
    drops the empty phrase. The result for the smaller [freedom] is not a
    subset of the result for the larger one. *)
Lemma C6_counterexample :
  exists res1 res2 st1 st2,
    (0 < 1/10)%R /\
    noisy_channel "" 0 1000 1 tiny_store = (Ok res1, st1) /\
    noisy_channel "" (1/10) 1000 1 tiny_store = (Ok res2, st2) /\
    is_Some (res1 !! ""%string) /\
    res2 !! ""%string = None.
Proof.
  destruct (tiny_noisy_channel 0 (3 + 997) _ _ _ (tiny_search_narrow 997)
              tiny_store (store_equiv_refl _)) as (st1 & E1 & _).
  destruct (tiny_noisy_channel (1/10) (4 + 996) _ _ _ (tiny_search_wide 996)
              tiny_store (store_equiv_refl _)) as (st2 & E2 & _).
  eexists _, _, st1, st2.
  split; [lra|]. split; [exact E1|]. split; [exact E2|]. split.
  - unfold collect. cbn [fold_left h_proba h_prefix].
    rleb_is false ltac:(apply Rleb_false, cost_not_le_zero; lra).
    rleb_is true ltac:(apply Rleb_true; lra).
    change (strip_ends "  ") with ""%string.
    rewrite lookup_insert_eq. eauto.
  - unfold collect. cbn [fold_left h_proba h_prefix].
    rleb_is false ltac:(apply Rleb_false, cost_not_le_tenth; lra).
    rleb_is false ltac:(apply Rleb_false, cost_not_le_tenth; lra).
    rleb_is true ltac:(apply Rleb_true; lra).
    change (strip_ends " a ") with "a"%string.
    rewrite lookup_insert_ne by discriminate. apply lookup_empty.
Qed.

(** * Further properties of the code *)

(** ** Fitting the language model *)

Lemma lang_fit_unigrams o s r corpus :
  LM.unigrams_ (LM.fit o s r corpus)
  = (LM.fit_loop corpus o 0 (chars (drop_str o corpus)) ∅ ∅ ∅).1.2.
Proof.
  destruct o; simpl;
    destruct (LM.fit_loop corpus _ 0 _ ∅ ∅ ∅) as [[? ?] ?]; reflexivity.
Qed.

Lemma fit_loop_counts corpus o tokens : forall i ct u v context token,
  table_count (LM.fit_loop corpus o i tokens ct u v).1.1 context token
  = (table_count ct context token
     + length (followers corpus o i tokens context token))%nat.
Proof.
  unfold followers.
  induction tokens as [|t rest IH]; intros i ct u v context token; simpl.
  - lia.
  - rewrite IH, table_incr_count, filter_cons. cbn [fst snd].
    repeat case_decide; simpl; try lia; tauto.
Qed.

Lemma fit_loop_unigrams corpus o tokens : forall i ct (u : Counter) v token,
  counter_get (LM.fit_loop corpus o i tokens ct u v).1.2 token
  = (counter_get u token + length (filter (fun t => t = token) tokens))%nat.
Proof.
  induction tokens as [|t rest IH]; intros i ct u v token; simpl.
  - lia.
  - rewrite IH. unfold counter_incr. rewrite counter_get_insert, filter_cons.
    repeat case_decide; subst; simpl; try lia; congruence.
Qed.

(** X1. [fit] of the language model, the vocabulary: the symbols of
    [corpus[order:]], each once, in ascending order of code points. *)
Theorem lang_fit_vocabulary_sorted_set :
  forall (o : nat) (s r : R) (corpus : string),
    Sorted ascii_le (LM.vocabulary_ (LM.fit o s r corpus)) /\
    NoDup (LM.vocabulary_ (LM.fit o s r corpus)) /\
    (forall c, c ∈ LM.vocabulary_ (LM.fit o s r corpus)
               <-> c ∈ chars (drop_str o corpus)).
Proof.
  intros o s r corpus. split; [|split].
  - rewrite lang_fit_vocabulary. unfold sorted_symbols.
    apply Sorted_merge_sort. apply _.
  - rewrite lang_fit_vocabulary. apply sorted_symbols_NoDup.
  - intros c. apply fit_vocabulary_elem.
Qed.

(** X2. [fit] of the language model, the counts: [counter_[context][token]] is
    the number of positions [i] of [corpus[order:]] whose token is [token]
    and for which [corpus[i:i+order]] is [context]; [unigrams_[token]] is the
    number of occurrences of [token] in [corpus[order:]]. Contexts and
    tokens that were not seen count 0. *)
Theorem lang_fit_counts :
  forall (o : nat) (s r : R) (corpus : string) (context : string) (token : ascii),
    table_count (LM.counter_ (LM.fit o s r corpus)) context token
    = length (followers corpus o 0 (chars (drop_str o corpus)) context token) /\
    counter_get (LM.unigrams_ (LM.fit o s r corpus)) token
    = length (filter (fun t => t = token) (chars (drop_str o corpus))).
Proof.
  intros o s r corpus context token. split.
  - destruct (lang_fit_fields o s r corpus) as (_ & _ & _ & -> & _).
    rewrite fit_loop_counts. unfold table_count. rewrite lookup_empty. lia.
  - rewrite lang_fit_unigrams, fit_loop_unigrams.
    unfold counter_get. rewrite lookup_empty. simpl. lia.
Qed.

Lemma lang_chain_eq m :
  lang_chain m = m :: match LM.child_ m with
                      | Some c => lang_chain c
                      | None => []
                      end.
Proof. destruct m; reflexivity. Qed.

(** X3. [fit] of the language model, the backoff chain: with [recursive > 0] the
    model of order [o] owns the chain of the models of orders [o - 1], ...,
    [0], each the fit of that order on the same corpus with the same
    smoothing and coefficient; otherwise it has no child. *)
Theorem lang_fit_backoff_chain :
  forall (o : nat) (s r : R) (corpus : string),
    lang_chain (LM.fit o s r corpus)
    = if Rltb 0 r
      then map (fun k => LM.fit k s r corpus) (rev (seq 0 (S o)))
      else [LM.fit o s r corpus].
Proof.
  intros o s r corpus. destruct (Rltb 0 r) eqn:Er.
  - induction o as [|o IH].
    + rewrite lang_chain_eq.
      destruct (lang_fit_fields 0 s r corpus) as (_ & _ & _ & _ & _ & ->).
      reflexivity.
    + rewrite lang_chain_eq.
      destruct (lang_fit_fields (S o) s r corpus) as (_ & _ & _ & _ & _ & ->).
      rewrite Er, IH. rewrite (seq_S (S o)), rev_app_distr. reflexivity.
  - rewrite lang_chain_eq.
    destruct (lang_fit_fields o s r corpus) as (_ & _ & _ & _ & _ & ->).
    destruct o; [reflexivity | rewrite Er; reflexivity].
Qed.

(** *** The counts of a model with backoff *)

Lemma series_get_labelled (f : ascii -> R) labels token :
  series_get (map (fun t => (t, f t)) labels) token
  = if decide (token ∈ labels) then Ok (f token) else Raise KeyError.
Proof.
  induction labels as [|t rest IH]; cbn [map series_get].
  - destruct (decide (token ∈ [])) as [H|H]; [inversion H | reflexivity].
  - destruct (decide (t = token)) as [->|Hne].
    + destruct (decide (token ∈ token :: rest)) as [H|H];
        [reflexivity | exfalso; apply H; left].
    + rewrite IH.
      destruct (decide (token ∈ rest)) as [Hin|Hn],
               (decide (token ∈ t :: rest)) as [Hin'|Hn']; try reflexivity.
      * exfalso. apply Hn'. right. assumption.
      * exfalso. apply elem_of_cons in Hin'. destruct Hin'; [congruence | contradiction].
Qed.

Lemma series_get_scale (s : Series) k token :
  series_get (series_scale s k) token
  = match series_get s token with
    | Ok v => Ok (v * k)%R
    | Raise e => Raise e
    end.
Proof.
  induction s as [|[t v] s IH]; simpl; [reflexivity|].
  destruct (decide (t = token)); [reflexivity | exact IH].
Qed.

Lemma series_get_iadd (s other : Series) token :
  series_get (series_iadd s other) token
  = match series_get s token with
    | Ok v => Ok (match series_get other token with
                  | Ok w => (v + w)%R
                  | Raise _ => v
                  end)
    | Raise e => Raise e
    end.
Proof.
  induction s as [|[t v] s IH]; simpl; [reflexivity|].
  destruct (decide (t = token)) as [->|Hne]; [reflexivity | exact IH].
Qed.

(** X4. [get_counts] with backoff: for a fitted model of order [o + 1] with
    [recursive > 0] and a symbol of its vocabulary, the child has a count
    for the symbol (the aligned sum never meets a missing label), and the
    count of the model is its own smoothed count plus [recursive] times the
    count of the child. *)
Theorem lang_get_counts_backoff :
  forall (o : nat) (s r : R) (corpus context : string) (token : ascii),
    (0 < r)%R ->
    token ∈ LM.vocabulary_ (LM.fit (S o) s r corpus) ->
    exists v,
      series_get (LM.get_counts (LM.fit o s r corpus) context).1 token = Ok v /\
      series_get (LM.get_counts (LM.fit (S o) s r corpus) context).1 token
      = Ok (INR (table_count (LM.counter_ (LM.fit (S o) s r corpus))
                   (LM.local_context (S o) context) token) + s + v * r)%R.
Proof.
  intros o s r corpus context token Hr Hin.
  pose proof (fit_child_vocabulary o s r corpus token Hin) as Hin'.
  rewrite <- (get_counts_labels (LM.fit o s r corpus) context) in Hin'.
  destruct (series_get_in _ _ Hin') as (v & Hv & _).
  exists v. split; [exact Hv|].
  rewrite (get_counts_eq (LM.fit (S o) s r corpus)). cbv zeta.
  pose proof (table_get_counter (LM.counter_ (LM.fit (S o) s r corpus))
                (LM.local_context (LM.order (LM.fit (S o) s r corpus)) context)) as Hc.
  destruct (table_get _ _) as [fd ct]. cbn [fst] in Hc.
  destruct (lang_fit_fields (S o) s r corpus) as (E1 & E2 & E3 & _ & _ & E6).
  rewrite E6, E3, E1, E2 in *. rewrite (proj2 (Rltb_true 0 r) Hr).
  cbn [andb negb Nat.eqb].
  destruct (LM.get_counts (LM.fit o s r corpus) context) as [counts c'].
  cbn [fst] in *.
  rewrite series_get_iadd, series_get_labelled, decide_True by exact Hin.
  rewrite series_get_scale, Hv, Hc. reflexivity.
Qed.

Lemma lang_get_counts_backoff_witness :
  exists v,
    series_get (LM.get_counts (LM.fit 0 1 (1/1000) " abracadabra ") " bra").1 "a"
      = Ok v /\
    series_get (LM.get_counts (LM.fit 1 1 (1/1000) " abracadabra ") " bra").1 "a"
    = Ok (INR (table_count (LM.counter_ (LM.fit 1 1 (1/1000) " abracadabra "))
                 (LM.local_context 1 " bra") "a") + 1 + v * (1/1000))%R.
Proof.
  apply (lang_get_counts_backoff 0 1 (1/1000) " abracadabra " " bra" "a").
  - lra.
  - fold abracadabra_lang. rewrite abracadabra_vocabulary. right. left.
Defined.

(** ** Scoring a continuation with the language model *)

Lemma str_app_assoc (a b c : string) : ((a ++ b) ++ c = a ++ (b ++ c))%string.
Proof.
  induction a as [|x a IH]; [reflexivity|].
  change (String x ((a ++ b) ++ c) = String x (a ++ (b ++ c)))%string.
  f_equal. exact IH.
Qed.

Lemma str_app_nil_r (a : string) : (a ++ "" = a)%string.
Proof.
  induction a as [|x a IH]; [reflexivity|].
  change (String x (a ++ "") = String x a)%string. f_equal. exact IH.
Qed.

Lemma snoc_str_app (a b : string) c :
  (snoc_str (a ++ b) c = a ++ snoc_str b c)%string.
Proof. unfold snoc_str. apply str_app_assoc. Qed.

Lemma snoc_str_then (a : string) c (b : string) :
  (snoc_str a c ++ b = a ++ String c b)%string.
Proof. unfold snoc_str. rewrite str_app_assoc. reflexivity. Qed.

Lemma chars_app (a b : string) : chars (a ++ b) = chars a ++ chars b.
Proof.
  induction a as [|x a IH]; [reflexivity|].
  change (x :: chars (a ++ b) = x :: (chars a ++ chars b)). f_equal. exact IH.
Qed.

(** X5. [single_log_proba] of the language model raises exactly when the
    continuation holds a symbol outside the vocabulary, and then raises
    [KeyError]; so does [single_proba]. In both cases the model keeps its
    data. *)
Theorem lang_single_log_proba_raises_iff :
  forall (m : LM.t) (context continuation : string),
    ((LM.single_log_proba m context continuation).1 = Raise KeyError
     <-> exists c, c ∈ chars continuation /\ c ∉ LM.vocabulary_ m) /\
    ((exists v, (LM.single_log_proba m context continuation).1 = Ok v)
     <-> forall c, c ∈ chars continuation -> c ∈ LM.vocabulary_ m) /\
    ((LM.single_proba m context continuation).1 = Raise KeyError
     <-> exists c, c ∈ chars continuation /\ c ∉ LM.vocabulary_ m) /\
    lang_equiv m (LM.single_log_proba m context continuation).2 /\
    lang_equiv m (LM.single_proba m context continuation).2.
Proof.
  intros m context continuation.
  rewrite single_proba_fst, single_proba_snd.
  rewrite (proj1 (lang_single_log_proba_spec m context continuation)).
  assert (Hdec : Forall (fun c => c ∈ LM.vocabulary_ m) (chars continuation) \/
                 ~ Forall (fun c => c ∈ LM.vocabulary_ m) (chars continuation)).
  { destruct (decide (Forall (fun c => c ∈ LM.vocabulary_ m) (chars continuation)));
      [left | right]; assumption. }
  assert (Hex : ~ Forall (fun c => c ∈ LM.vocabulary_ m) (chars continuation)
                <-> exists c, c ∈ chars continuation /\ c ∉ LM.vocabulary_ m).
  { split.
    - intros Hn. apply not_Forall_Exists in Hn; [|apply _].
      apply Exists_exists in Hn. exact Hn.
    - intros (c & Hin & Hout) Hall. rewrite Forall_forall in Hall. auto. }
  split; [|split; [|split; [|split]]].
  - rewrite <- Hex. split.
    + intros Hr Hall.
      destruct (lang_log_terms_ok m _ context 0%R Hall) as [v Hv]. congruence.
    + apply lang_log_terms_raises.
  - rewrite <- Forall_forall. split.
    + intros [v Hv]. destruct Hdec as [H|H]; [assumption|].
      rewrite (lang_log_terms_raises m _ context 0%R H) in Hv. discriminate.
    + apply lang_log_terms_ok.
  - rewrite <- Hex. split.
    + intros Hr Hall.
      destruct (lang_log_terms_ok m _ context 0%R Hall) as [v Hv].
      rewrite Hv in Hr. discriminate.
    + intros Hn. rewrite (lang_log_terms_raises m _ context 0%R Hn). reflexivity.
  - apply lang_single_log_proba_spec.
  - apply lang_single_log_proba_spec.
Qed.

Lemma lang_log_terms_shift m tokens : forall context res,
  lang_log_terms m context tokens res
  = match lang_log_terms m context tokens 0 with
    | Ok v => Ok (res + v)%R
    | Raise e => Raise e
    end.
Proof.
  induction tokens as [|t rest IH]; intros context res; simpl.
  - f_equal. lra.
  - destruct (series_get (lang_proba m context) t) as [p|e]; [|reflexivity].
    rewrite (IH _ (res + ln p)%R), (IH _ (0 + ln p)%R).
    destruct (lang_log_terms m (snoc_str context t) rest 0); [|reflexivity].
    f_equal. lra.
Qed.

Lemma lang_log_terms_app m s1 : forall context tokens res,
  lang_log_terms m context (chars s1 ++ tokens) res
  = match lang_log_terms m context (chars s1) res with
    | Ok v => lang_log_terms m (context ++ s1) tokens v
    | Raise e => Raise e
    end.
Proof.
  induction s1 as [|c s1 IH]; intros context tokens res; simpl.
  - rewrite str_app_nil_r. reflexivity.
  - destruct (series_get (lang_proba m context) c) as [p|e]; [|reflexivity].
    rewrite IH, snoc_str_then. reflexivity.
Qed.

(** X6. [single_log_proba] of the language model composes along the
    continuation: scoring [s1 + s2] after [context] is scoring [s1] after
    [context], then [s2] after [context + s1], and adding the two; an
    exception of either part is the exception of the whole. *)
Theorem lang_single_log_proba_app :
  forall (m : LM.t) (context s1 s2 : string),
    (LM.single_log_proba m context (s1 ++ s2)).1
    = match (LM.single_log_proba m context s1).1 with
      | Ok v1 =>
          match (LM.single_log_proba m (context ++ s1) s2).1 with
          | Ok v2 => Ok (v1 + v2)%R
          | Raise e => Raise e
          end
      | Raise e => Raise e
      end.
Proof.
  intros m context s1 s2.
  rewrite !(proj1 (lang_single_log_proba_spec _ _ _)).
  rewrite chars_app, lang_log_terms_app.
  destruct (lang_log_terms m context (chars s1) 0) as [v1|e]; [|reflexivity].
  apply lang_log_terms_shift.
Qed.

Lemma lang_log_terms_positions m context c : forall pre res,
  Forall (fun t => t ∈ LM.vocabulary_ m) (chars c) ->
  lang_log_terms m (context ++ pre) (chars c) res
  = Ok (res + sum_list_R
                (imap (fun i t => ln (next_proba m (context ++ pre ++ take_str i c) t))
                      (chars c)))%R.
Proof.
  induction c as [|x c IH]; intros pre res Hall.
  - simpl. f_equal. unfold sum_list_R. simpl. lra.
  - cbn [chars] in *. inversion Hall as [|? ? Hx Hrest]; subst.
    cbn [lang_log_terms]. rewrite (next_proba_get _ _ _ Hx).
    rewrite snoc_str_app, (IH _ _ Hrest). f_equal.
    cbn [imap]. unfold sum_list_R. cbn [foldr].
    change (take_str 0 (String x c)) with EmptyString.
    rewrite str_app_nil_r.
    rewrite (imap_ext
               (fun i t => ln (next_proba m (context ++ snoc_str pre x ++ take_str i c) t))
               ((fun i t => ln (next_proba m (context ++ pre ++ take_str i (String x c)) t)) ∘ S)).
    + lra.
    + intros i t _. cbn [compose take_str]. rewrite snoc_str_then. reflexivity.
Qed.

Lemma exp_sum_ln (l : list ascii) : forall (f : nat -> ascii -> R),
  (forall i t, l !! i = Some t -> (0 < f i t)%R) ->
  exp (sum_list_R (imap (fun i t => ln (f i t)) l)) = prod_list_R (imap f l).
Proof.
  unfold sum_list_R, prod_list_R.
  induction l as [|x l IH]; intros f Hpos.
  - simpl. apply exp_0.
  - cbn [imap foldr]. rewrite exp_plus, exp_ln by (apply (Hpos 0%nat); reflexivity).
    f_equal. apply (IH (f ∘ S)). intros i t Hi. apply (Hpos (S i)). exact Hi.
Qed.

(** X7. [single_proba] of the language model is the product of the entries of
    [predict_proba] along the continuation: the entry for the symbol at
    position [i], read after [context + continuation[:i]]. Stated for a
    fitted model with [smoothing > 0], in the state left by any calls, and a
    continuation over its vocabulary. *)
Theorem lang_single_proba_is_product :
  forall (o : nat) (s r : R) (corpus : string) (m : LM.t)
         (context continuation : string),
    (0 < s)%R ->
    lang_equiv (LM.fit o s r corpus) m ->
    Forall (fun t => t ∈ LM.vocabulary_ m) (chars continuation) ->
    (LM.single_proba m context continuation).1
    = Ok (prod_list_R
            (imap (fun i t => next_proba m (context ++ take_str i continuation) t)
                  (chars continuation))).
Proof.
  intros o s r corpus m context continuation Hs He Hall.
  rewrite single_proba_fst.
  pose proof (lang_log_terms_positions m context continuation EmptyString 0%R Hall) as H.
  rewrite str_app_nil_r in H. rewrite H. f_equal.
  rewrite Rplus_0_l.
  rewrite (exp_sum_ln (chars continuation)
             (fun i t => next_proba m (context ++ "" ++ take_str i continuation) t)).
  - reflexivity.
  - intros i t Hi.
    assert (Hin : t ∈ LM.vocabulary_ m).
    { rewrite Forall_forall in Hall. apply Hall.
      eapply list_elem_of_lookup_2. exact Hi. }
    pose proof (next_proba_get m (context ++ "" ++ take_str i continuation) t Hin) as Hg.
    apply series_get_ok_in in Hg.
    rewrite <- (lang_proba_respects _ _ _ He) in Hg.
    exact (fit_proba_positive o s r corpus _ t _ Hs Hg).
Qed.

Lemma lang_single_proba_is_product_witness :
  (LM.single_proba abracadabra_lang " " "bra").1
  = Ok (prod_list_R
          (imap (fun i t => next_proba abracadabra_lang (" " ++ take_str i "bra") t)
                (chars "bra"))).
Proof.
  apply (lang_single_proba_is_product 1 1 (1/1000) " abracadabra "
           abracadabra_lang " " "bra").
  - lra.
  - apply lang_equiv_refl.
  - rewrite abracadabra_vocabulary. cbn [chars].
    repeat (constructor; [repeat (first [left | right]) |]). constructor.
Defined.

(** ** Fitting the missing-letter model *)

Lemma fit_pair_counts original o letters : forall i missed total context letter,
  table_count (MissingLetterModel.fit_pair original o i letters missed total).2
    context letter
  = (table_count total context letter
     + length (filter (fun it : nat * (ascii * ascii) =>
                         slice it.1 (it.1 + o) original = context /\ it.2.1 = letter)
                      (zip (seq i (length letters)) letters)))%nat /\
  table_count (MissingLetterModel.fit_pair original o i letters missed total).1
    context letter
  = (table_count missed context letter
     + length (filter (fun it : nat * (ascii * ascii) => it.2.2 = placeholder)
                 (filter (fun it : nat * (ascii * ascii) =>
                            slice it.1 (it.1 + o) original = context /\ it.2.1 = letter)
                         (zip (seq i (length letters)) letters))))%nat.
Proof.
  induction letters as [|[ol obl] rest IH]; intros i missed total context letter.
  - simpl. split; lia.
  - cbn [MissingLetterModel.fit_pair length seq zip zip_with].
    destruct (IH (S i)
                (if decide (obl = placeholder)
                 then table_incr missed (slice i (i + o) original) ol else missed)
                (table_incr total (slice i (i + o) original) ol) context letter)
      as [-> ->].
    rewrite !filter_cons. cbn [fst snd].
    destruct (decide (obl = placeholder)) as [Hp|Hp];
      rewrite ?table_incr_count;
      repeat (first [ rewrite filter_cons | case_decide ]);
      cbn [length fst snd] in *; subst;
      try (split; lia); try tauto; try congruence.
Qed.

Lemma sum_list_cons x l : sum_list (x :: l) = (x + sum_list l)%nat.
Proof. reflexivity. Qed.

Lemma fit_loop_pairs_counts o pairs : forall missed total context letter,
  table_count (MissingLetterModel.fit_loop o pairs missed total).2 context letter
  = (table_count total context letter
     + sum_list (map (fun pair => length (seen_positions o pair context letter)) pairs))%nat /\
  table_count (MissingLetterModel.fit_loop o pairs missed total).1 context letter
  = (table_count missed context letter
     + sum_list (map (fun pair => length (missed_positions o pair context letter)) pairs))%nat.
Proof.
  induction pairs as [|[original observed] rest IH]; intros missed total context letter.
  - simpl. split; lia.
  - cbn [MissingLetterModel.fit_loop map]. rewrite !sum_list_cons.
    pose proof (fit_pair_counts original o
                  (zip (chars (drop_str o original)) (chars (drop_str o observed)))
                  0 missed total context letter) as [H2 H1].
    change (table_count
              (MissingLetterModel.fit_pair original o 0
                 (zip (chars (drop_str o original)) (chars (drop_str o observed)))
                 missed total).2 context letter
            = (table_count total context letter
               + length (seen_positions o (original, observed) context letter))%nat)
      in H2.
    change (table_count
              (MissingLetterModel.fit_pair original o 0
                 (zip (chars (drop_str o original)) (chars (drop_str o observed)))
                 missed total).1 context letter
            = (table_count missed context letter
               + length (missed_positions o (original, observed) context letter))%nat)
      in H1.
    destruct (MissingLetterModel.fit_pair _ _ _ _ _ _) as [missed' total'].
    cbn [fst snd] in H1, H2.
    destruct (IH missed' total' context letter) as [-> ->].
    rewrite H1, H2. split; lia.
Qed.

(** X8. [fit] of the missing-letter model, the counts: [total_counter_] holds,
    for a context and a letter, the number of positions over all pairs at
    which the letter of the original stands after that context, and
    [missed_counter_] the number of those at which the observed symbol is
    ['-']. The positions of a pair are those of
    [zip(original[order:], observed[order:])]: a longer string is cut to the
    shorter one. *)
Theorem missed_fit_counts :
  forall (o : nat) (sm st : R) (pairs : list (string * string))
         (context : string) (letter : ascii),
    table_count (MissingLetterModel.total_counter_ (MissingLetterModel.fit o sm st pairs))
      context letter
    = sum_list (map (fun pair => length (seen_positions o pair context letter)) pairs) /\
    table_count (MissingLetterModel.missed_counter_ (MissingLetterModel.fit o sm st pairs))
      context letter
    = sum_list (map (fun pair => length (missed_positions o pair context letter)) pairs).
Proof.
  intros o sm st pairs context letter.
  destruct (missed_fit_fields o sm st pairs) as (_ & _ & _ & -> & ->).
  destruct (fit_loop_pairs_counts o pairs ∅ ∅ context letter) as [-> ->].
  unfold table_count. rewrite lookup_empty. split; reflexivity.
Qed.

(** X9. [fit] of the missing-letter model counts a letter as missed only where
    it counts it as seen; so with [0 <= smoothing_missed <= smoothing_total]
    and [smoothing_total > 0] the estimate of [predict_proba] lies between 0
    and 1. *)
Theorem missed_predict_proba_between_0_and_1 :
  forall (o : nat) (sm st : R) (pairs : list (string * string))
         (context : string) (letter : ascii),
    (0 <= sm)%R -> (sm <= st)%R -> (0 < st)%R ->
    (forall key token,
       (table_count (MissingLetterModel.missed_counter_
                       (MissingLetterModel.fit o sm st pairs)) key token
        <= table_count (MissingLetterModel.total_counter_
                          (MissingLetterModel.fit o sm st pairs)) key token)%nat) /\
    (0 <= (MissingLetterModel.predict_proba
             (MissingLetterModel.fit o sm st pairs) context letter).1 <= 1)%R.
Proof.
  intros o sm st pairs context letter H0 H1 H2.
  assert (Hle : missed_le_total (MissingLetterModel.fit_loop o pairs ∅ ∅).1
                                (MissingLetterModel.fit_loop o pairs ∅ ∅).2).
  { apply fit_loop_missed_le_total. intros key token. reflexivity. }
  split.
  - intros key token.
    destruct (missed_fit_fields o sm st pairs) as (_ & _ & _ & -> & ->). apply Hle.
  - fold (p_del (MissingLetterModel.fit o sm st pairs) context letter).
    rewrite p_del_fit.
    specialize (Hle (MissingLetterModel.local_context o context) letter).
    apply le_INR in Hle.
    set (a := INR (table_count (MissingLetterModel.fit_loop o pairs ∅ ∅).1 _ _)) in *.
    set (b := INR (table_count (MissingLetterModel.fit_loop o pairs ∅ ∅).2 _ _)) in *.
    assert (Ha : (0 <= a)%R) by apply pos_INR.
    split.
    + apply Rmult_le_pos; [lra|]. left. apply Rinv_0_lt_compat. lra.
    + unfold Rdiv. replace 1%R with ((b + st) * / (b + st))%R by (field; lra).
      apply Rmult_le_compat_r; [left; apply Rinv_0_lt_compat|]; lra.
Qed.

Lemma missed_predict_proba_between_0_and_1_witness :
  (0 <= (MissingLetterModel.predict_proba
           (MissingLetterModel.fit 0 0 1 [("a"%string, "-"%string)]) "" "a").1 <= 1)%R.
Proof.
  apply (missed_predict_proba_between_0_and_1 0 0 1 [("a"%string, "-"%string)] "" "a");
    lra.
Defined.

(** X10. [predict_proba] of the missing-letter model for a letter that was never
    seen after the context: with [smoothing_total] not zero the divisor is
    [smoothing_total], so the division is defined, and the estimate is the
    prior rate [smoothing_missed / smoothing_total]. *)
Theorem missed_predict_proba_unseen :
  forall (o : nat) (sm st : R) (pairs : list (string * string))
         (context : string) (letter : ascii),
    (st <> 0)%R ->
    table_count (MissingLetterModel.total_counter_
                   (MissingLetterModel.fit o sm st pairs))
      (MissingLetterModel.local_context o context) letter = 0%nat ->
    total_freq (MissingLetterModel.fit o sm st pairs) context letter = st /\
    (MissingLetterModel.predict_proba
       (MissingLetterModel.fit o sm st pairs) context letter).1 = (sm / st)%R.
Proof.
  intros o sm st pairs context letter Hst Hz.
  assert (Hle : missed_le_total (MissingLetterModel.fit_loop o pairs ∅ ∅).1
                                (MissingLetterModel.fit_loop o pairs ∅ ∅).2).
  { apply fit_loop_missed_le_total. intros key token. reflexivity. }
  destruct (missed_fit_fields o sm st pairs) as (Eo & _ & Es & _ & Et).
  split.
  { unfold total_freq. rewrite Eo, Es, Hz. simpl INR. lra. }
  fold (p_del (MissingLetterModel.fit o sm st pairs) context letter).
  rewrite p_del_fit.
  rewrite Et in Hz.
  specialize (Hle (MissingLetterModel.local_context o context) letter).
  rewrite Hz in Hle. rewrite Hz.
  replace (table_count (MissingLetterModel.fit_loop o pairs ∅ ∅).1
             (MissingLetterModel.local_context o context) letter) with 0%nat by lia.
  simpl INR. f_equal; lra.
Qed.

Lemma missed_predict_proba_unseen_witness :
  total_freq abracadabra_missed "abr" "z" = 1%R /\
  (MissingLetterModel.predict_proba abracadabra_missed "abr" "z").1 = (3/10 / 1)%R.
Proof.
  apply (missed_predict_proba_unseen 0 (3/10) 1
           [("abracadabra"%string, "abr-c-d-br-"%string)] "abr" "z").
  - lra.
  - destruct (missed_fit_fields 0 (3/10) 1
                [("abracadabra"%string, "abr-c-d-br-"%string)])
      as (_ & _ & _ & _ & ->).
    vm_compute. reflexivity.
Defined.

(** ** Scoring a continuation with the missing-letter model *)

Lemma missed_log_terms_positions m context c : forall (actual : list ascii) pre res,
  missed_log_terms m (context ++ pre) (zip (chars c) actual) res
  = (res + sum_list_R
             (imap (fun i (oa : ascii * ascii) =>
                      ln (if decide (oa.2 = placeholder)
                          then 1 - p_del m (context ++ pre ++ take_str i c) oa.1
                          else p_del m (context ++ pre ++ take_str i c) oa.1))
                   (zip (chars c) actual)))%R.
Proof.
  induction c as [|x c IH]; intros actual pre res.
  - simpl. unfold sum_list_R. simpl. lra.
  - destruct actual as [|a actual].
    + simpl. unfold sum_list_R. simpl. lra.
    + cbn [chars zip zip_with missed_log_terms imap].
      rewrite snoc_str_app, IH.
      unfold sum_list_R. cbn [foldr fst snd].
      change (take_str 0 (String x c)) with EmptyString.
      rewrite str_app_nil_r.
      rewrite (imap_ext
                 (fun i (oa : ascii * ascii) =>
                    ln (if decide (oa.2 = placeholder)
                        then 1 - p_del m (context ++ snoc_str pre x ++ take_str i c) oa.1
                        else p_del m (context ++ snoc_str pre x ++ take_str i c) oa.1))
                 ((fun i (oa : ascii * ascii) =>
                     ln (if decide (oa.2 = placeholder)
                         then 1 - p_del m (context ++ pre ++ take_str i (String x c)) oa.1
                         else p_del m (context ++ pre ++ take_str i (String x c)) oa.1))
                  ∘ S)).
      * lra.
      * intros i oa _. cbn [compose take_str]. rewrite snoc_str_then. reflexivity.
Qed.

(** X11. [single_log_proba] of the missing-letter model, for a model fitted
    with [0 < smoothing_missed < smoothing_total] in the state left by any
    calls: every division of [predict_proba] has a positive divisor and
    every estimate lies strictly between 0 and 1, and the value returned is
    the sum, over the positions [i] of [zip(continuation, actual)], of the
    logarithm of [predict_proba] of the letter [continuation[i]] after
    [context + continuation[:i]] where [actual[i]] is not ['-'], and of one
    minus it where [actual[i]] is ['-']. An [actual] that is [None] or ['']
    is replaced by [continuation]; of two strings of different lengths only
    the common positions are scored. The model keeps its data. *)
Theorem missed_single_log_proba_formula :
  forall (o : nat) (sm sa : R) (pairs : list (string * string))
         (m : MissingLetterModel.t) (context continuation : string)
         (actual : option string),
    (0 < sm)%R -> (sm < sa)%R ->
    missed_equiv (MissingLetterModel.fit o sm sa pairs) m ->
    let actual' :=
      match actual with
      | Some (String a rest) => String a rest
      | _ => continuation
      end in
    (forall prefix letter,
       (0 < total_freq m prefix letter)%R /\
       (0 < (MissingLetterModel.predict_proba m prefix letter).1 < 1)%R) /\
    (MissingLetterModel.single_log_proba m context continuation actual).1
    = sum_list_R
        (imap (fun i (oa : ascii * ascii) =>
                 ln (if decide (oa.2 = placeholder)
                     then 1 - (MissingLetterModel.predict_proba m
                                 (context ++ take_str i continuation) oa.1).1
                     else (MissingLetterModel.predict_proba m
                             (context ++ take_str i continuation) oa.1).1))
              (zip (chars continuation) (chars actual'))) /\
    missed_equiv m
      (MissingLetterModel.single_log_proba m context continuation actual).2.
Proof.
  intros o sm sa pairs m context continuation actual Hsm Hsa Hm actual'.
  destruct (missed_single_log_proba_spec m context continuation actual) as [Hv He].
  split; [|split; [|exact He]].
  { intros prefix letter. split.
    - apply (positive_divisor o sm sa pairs); [lra | exact Hm].
    - fold (p_del m prefix letter).
      rewrite <- (p_del_equiv _ _ prefix letter Hm).
      apply fit_p_del_bounds; assumption. }
  rewrite Hv.
  assert (Ha : (if MissingLetterModel.truthy actual
                then default continuation actual else continuation) = actual').
  { unfold actual'. destruct actual as [[|a rest]|]; reflexivity. }
  rewrite Ha.
  pose proof (missed_log_terms_positions m context continuation (chars actual')
                EmptyString 0%R) as H.
  rewrite str_app_nil_r in H. rewrite H, Rplus_0_l. reflexivity.
Qed.

Lemma missed_single_log_proba_formula_witness :
  (MissingLetterModel.single_log_proba abracadabra_missed "" "abra"
     (Some "abr-"%string)).1
  = sum_list_R
      (imap (fun i (oa : ascii * ascii) =>
               ln (if decide (oa.2 = placeholder)
                   then 1 - (MissingLetterModel.predict_proba abracadabra_missed
                               ("" ++ take_str i "abra") oa.1).1
                   else (MissingLetterModel.predict_proba abracadabra_missed
                           ("" ++ take_str i "abra") oa.1).1))
            (zip (chars "abra") (chars "abr-"))).
Proof.
  apply (missed_single_log_proba_formula 0 (3/10) 1
           [("abracadabra"%string, "abr-c-d-br-"%string)]
           abracadabra_missed "" "abra" (Some "abr-"%string)).
  - lra.
  - lra.
  - apply missed_equiv_refl.
Defined.

(** ** The cache of [noisy_channel] *)

Lemma cache_after_beyond st query n : forall m,
  (m <= String.length query + 1)%nat -> (m <= n)%nat ->
  cache_after st query (seq 0 m) ∅ !! n = None.
Proof.
  induction m as [|m IH]; intros Hm Hn.
  - apply lookup_empty.
  - rewrite seq_S, cache_after_snoc. simpl.
    rewrite length_take_str, Nat.min_l by lia.
    rewrite lookup_insert_ne by lia. apply IH; lia.
Qed.

Lemma unconditional_cost_empty st : unconditional_cost st EmptyString = 0%R.
Proof. unfold unconditional_cost, lang_value, missed_value. simpl. lra. Qed.

(** X12. The loop of [noisy_channel] that fills the cache, for models fitted
    with [smoothing > 0] and [0 < smoothing_missed < smoothing_total] and a
    query over the vocabulary of the language model: it does not raise and
    leaves the data of the models as they were; the cache has exactly the
    keys [0] to [len(query)]; the entry for [n] is the cost of [query[:n]]
    scored with no context, by the language model plus by the
    missing-letter model; no entry is negative, and the entry for [0] is
    [0]. *)
Theorem build_cache_entries :
  forall (o : nat) (s r : R) (corpus : string)
         (o' : nat) (sm sa : R) (pairs : list (string * string))
         (st : Store) (query : string),
    (0 < s)%R -> (0 < sm)%R -> (sm < sa)%R ->
    store_equiv (LM.fit o s r corpus, MissingLetterModel.fit o' sm sa pairs) st ->
    Forall (fun c => c ∈ LM.vocabulary_ st.1) (chars query) ->
    exists cache st',
      build_cache query (seq 0 (String.length query + 1)) ∅ st = (Ok cache, st') /\
      store_equiv st st' /\
      (forall n, (n <= String.length query)%nat ->
         cache !! n
         = Some (- match (LM.single_log_proba st.1 "" (take_str n query)).1 with
                   | Ok v => v
                   | Raise _ => 0
                   end
                 + - (MissingLetterModel.single_log_proba st.2 "" (take_str n query)
                        None).1)%R) /\
      (forall n, (String.length query < n)%nat -> cache !! n = None) /\
      (forall n v, cache !! n = Some v -> (0 <= v)%R) /\
      cache !! 0%nat = Some 0%R.
Proof.
  intros o s r corpus o' sm sa pairs st query Hs Hsm Hsa Hst Hall.
  destruct (returns_build_cache st query Hall
              (seq 0 (String.length query + 1)) ∅ st (store_equiv_refl st))
    as (st' & E & He).
  exists (cache_after st query (seq 0 (String.length query + 1)) ∅), st'.
  split; [exact E|]. split; [exact He|]. split; [|split; [|split]].
  - intros n Hn. rewrite cache_after_lookup by assumption. reflexivity.
  - intros n Hn. apply cache_after_beyond; lia.
  - intros n v Hv.
    destruct (le_lt_dec n (String.length query)) as [Hn|Hn].
    + rewrite cache_after_lookup in Hv by assumption. injection Hv as <-.
      apply (fitted_baseline o s r corpus o' sm sa pairs st Hs Hsm Hsa Hst).
      rewrite chars_take_str. apply Forall_take. exact Hall.
    + rewrite cache_after_beyond in Hv by lia. discriminate.
  - rewrite cache_after_lookup by lia.
    change (take_str 0 query) with EmptyString.
    rewrite unconditional_cost_empty. reflexivity.
Qed.

Lemma build_cache_entries_witness :
  exists cache st',
    build_cache "a " (seq 0 (String.length "a " + 1)) ∅ small_store = (Ok cache, st') /\
    cache !! 0%nat = Some 0%R /\ cache !! 3%nat = None.
Proof.
  destruct (build_cache_entries 0 1 0 " aa" 0 (3/10) 1
              [("a "%string, "a "%string)] small_store "a ")
    as (cache & st' & E & _ & _ & Hb & _ & H0).
  - lra.
  - lra.
  - lra.
  - apply store_equiv_refl.
  - unfold small_store. cbn [fst]. rewrite small_lang_vocabulary.
    repeat constructor.
  - exists cache, st'. split; [exact E|]. split; [exact H0|].
    apply Hb. simpl. lia.
Defined.

(** ** [generate_options] without a cache *)

Lemma returns_generate_option_nocache st0 prefix_proba prefix suffix optimism
    cache letter c new_suffix missing :
  cache_truthy cache = None ->
  c ∈ LM.vocabulary_ st0.1 ->
  Forall (fun t => t ∈ LM.vocabulary_ st0.1) (chars new_suffix) ->
  match letter with
  | Some a => a = c /\ new_suffix = suffix /\ missing = p_del st0.2 prefix c
  | None => suffix = String c new_suffix /\ missing = (1 - p_del st0.2 prefix c)%R
  end ->
  returns st0
    (generate_option prefix_proba prefix suffix optimism cache letter)
    (Hyp (prefix_proba + (- ln missing - ln (next_proba st0.1 prefix c))
          + - lang_value st0 (snoc_str prefix c) new_suffix * optimism)
         (snoc_str prefix c) new_suffix
         (Some match letter with Some a => String a EmptyString | None => EmptyString end)
         (- lang_value st0 (snoc_str prefix c) new_suffix * optimism)).
Proof.
  intros Hc Hin Hall Hl. unfold generate_option.
  destruct letter as [a|].
  - destruct Hl as (-> & -> & ->).
    eapply returns_bind.
    { eapply returns_bind; [apply returns_predict_missed | apply returns_ret]. }
    cbv beta iota.
    eapply returns_bind.
    { apply returns_lang_single_proba, lang_one_symbol, Hin. }
    rewrite Hc.
    eapply returns_bind.
    { eapply returns_bind;
        [apply returns_lang_single_proba, lang_value_ok, Hall | apply returns_ret]. }
    match goal with
    | |- returns _ (ret ?h) ?h' => replace h' with h; [apply returns_ret|]
    end.
    rewrite !ln_exp. f_equal. lra.
  - destruct Hl as (-> & ->).
    eapply returns_bind.
    { eapply returns_bind; [apply returns_predict_missed | apply returns_ret]. }
    cbv beta iota.
    eapply returns_bind.
    { apply returns_lang_single_proba, lang_one_symbol, Hin. }
    rewrite Hc.
    eapply returns_bind.
    { eapply returns_bind;
        [apply returns_lang_single_proba, lang_value_ok, Hall | apply returns_ret]. }
    match goal with
    | |- returns _ (ret ?h) ?h' => replace h' with h; [apply returns_ret|]
    end.
    rewrite !ln_exp. f_equal. lra.
Qed.

Lemma returns_generate_options_loop_nocache st0 prefix_proba prefix c rest optimism cache :
  cache_truthy cache = None ->
  Forall (fun t => t ∈ LM.vocabulary_ st0.1) (chars (String c rest)) ->
  forall letters options,
  Forall (fun a => a ∈ LM.vocabulary_ st0.1) letters ->
  returns st0
    (generate_options_loop prefix_proba prefix (String c rest) optimism cache
       (map Some letters ++ [None]) options)
    (options ++
     map (fun a =>
            Hyp (prefix_proba
                 + (- ln (p_del st0.2 prefix a) - ln (next_proba st0.1 prefix a))
                 + - lang_value st0 (snoc_str prefix a) (String c rest) * optimism)
                (snoc_str prefix a) (String c rest) (Some (String a EmptyString))
                (- lang_value st0 (snoc_str prefix a) (String c rest) * optimism))
         letters ++
     [Hyp (prefix_proba
           + (- ln (1 - p_del st0.2 prefix c) - ln (next_proba st0.1 prefix c))
           + - lang_value st0 (snoc_str prefix c) rest * optimism)
          (snoc_str prefix c) rest (Some EmptyString)
          (- lang_value st0 (snoc_str prefix c) rest * optimism)]).
Proof.
  intros Hc Hall.
  assert (Hin : c ∈ LM.vocabulary_ st0.1) by (inversion Hall; assumption).
  assert (Hrest : Forall (fun t => t ∈ LM.vocabulary_ st0.1) (chars rest))
    by (inversion Hall; assumption).
  induction letters as [|a letters IH]; intros options Hl.
  - simpl. eapply returns_bind; [|apply returns_ret].
    apply (returns_generate_option_nocache st0 prefix_proba prefix (String c rest)
             optimism cache None c rest (1 - p_del st0.2 prefix c)); auto.
  - inversion Hl as [|? ? Ha Hl']; subst. simpl.
    eapply returns_bind.
    + apply (returns_generate_option_nocache st0 prefix_proba prefix (String c rest)
               optimism cache (Some a) a (String c rest) (p_del st0.2 prefix a)); auto.
    + cbv beta.
      match goal with
      | |- returns _ _ (options ++ ?h :: ?l) =>
          replace (options ++ h :: l) with ((options ++ [h]) ++ l)
            by (rewrite <- app_assoc; reflexivity)
      end.
      apply IH. assumption.
Qed.

(** X13. [generate_options] called without a cache ([cache=None], the default,
    or an empty dict), for models fitted with [smoothing > 0] and
    [0 < smoothing_missed < smoothing_total] and a suffix [c S'] over the
    vocabulary: it returns the same children as with a cache, except that
    the heuristic component of a child is
    [-log single_proba(new_prefix, new_suffix) * optimism], the cost under
    the language model of the child's own remaining suffix after the
    child's own prefix; the models keep their data. Every division has a
    positive divisor and every logarithm is taken of a probability.
    Rounding is ignored: in floating point the [exp] of [single_proba] can
    underflow for a long suffix. *)
Theorem generate_options_without_cache :
  forall (o : nat) (s r : R) (corpus : string)
         (o' : nat) (sm sa : R) (pairs : list (string * string))
         (st : Store) (prefix_proba : R) (prefix : string) (c : ascii)
         (rest : string) (optimism : R) (cache : option Cache),
    (0 < s)%R -> (0 < sm)%R -> (sm < sa)%R ->
    store_equiv (LM.fit o s r corpus, MissingLetterModel.fit o' sm sa pairs) st ->
    cache = None \/ cache = Some ∅ ->
    Forall (fun t => t ∈ LM.vocabulary_ st.1) (chars (String c rest)) ->
    (exists st',
       generate_options prefix_proba prefix (String c rest) optimism cache st
       = (Ok (map (fun a =>
                     Hyp (prefix_proba
                          + (- ln (MissingLetterModel.predict_proba st.2 prefix a).1
                             - ln (next_proba st.1 prefix a))
                          + - lang_value st (snoc_str prefix a) (String c rest) * optimism)
                         (snoc_str prefix a) (String c rest)
                         (Some (String a EmptyString))
                         (- lang_value st (snoc_str prefix a) (String c rest) * optimism))
                  (LM.vocabulary_ st.1)
              ++ [Hyp (prefix_proba
                       + (- ln (1 - (MissingLetterModel.predict_proba st.2 prefix c).1)
                          - ln (next_proba st.1 prefix c))
                       + - lang_value st (snoc_str prefix c) rest * optimism)
                      (snoc_str prefix c) rest (Some EmptyString)
                      (- lang_value st (snoc_str prefix c) rest * optimism)]),
          st') /\
       store_equiv st st') /\
    (forall a, a ∈ LM.vocabulary_ st.1 ->
       (0 < total_freq st.2 prefix a)%R /\
       (0 < (MissingLetterModel.predict_proba st.2 prefix a).1 < 1)%R /\
       (0 < next_proba st.1 prefix a <= 1)%R).
Proof.
  intros o s r corpus o' sm sa pairs st prefix_proba prefix c rest optimism cache
         Hs Hsm Hsa Hst Hc Hall.
  split.
  - assert (Hc' : cache_truthy cache = None).
    { destruct Hc as [-> | ->]; [reflexivity|].
      unfold cache_truthy. rewrite decide_True by reflexivity. reflexivity. }
    unfold generate_options.
    apply (returns_generate_options_loop_nocache st prefix_proba prefix c rest
             optimism cache Hc' Hall (LM.vocabulary_ st.1) []).
    + apply Forall_forall. auto.
    + apply store_equiv_refl.
  - intros a Ha. split; [|split].
    + apply (positive_divisor o' sm sa pairs); [lra | exact (proj2 Hst)].
    + exact (fitted_p_del o s r corpus o' sm sa pairs st Hsm Hsa Hst prefix a).
    + exact (fitted_next_proba o s r corpus o' sm sa pairs st Hs Hst prefix a Ha).
Qed.

Lemma generate_options_without_cache_witness :
  exists st' options,
    generate_options 0 " " "brac " (1/2) None abracadabra_store = (Ok options, st') /\
    length options = 7%nat.
Proof.
  destruct (generate_options_without_cache
              1 1 (1/1000) " abracadabra "
              0 (3/10) 1 [("abracadabra"%string, "abr-c-d-br-"%string)]
              abracadabra_store 0 " " "b" "rac " (1/2) None)
    as [(st' & E & _) _].
  - lra.
  - lra.
  - lra.
  - apply store_equiv_refl.
  - left. reflexivity.
  - unfold abracadabra_store. cbn [fst chars]. rewrite abracadabra_vocabulary.
    repeat (constructor; [repeat (first [left | right]) |]). constructor.
  - eexists st', _. split; [exact E|].
    rewrite length_app, length_map.
    unfold abracadabra_store. cbn [fst]. rewrite abracadabra_vocabulary. reflexivity.
Defined.

(** ** The result of [noisy_channel] *)

Lemma chars_cons_of_snoc word c :
  exists x rest, snoc_str word c = String x rest.
Proof. destruct word as [|a w]; simpl; eauto. Qed.

Lemma collect_single best freedom c :
  (h_proba c <= best + freedom)%R ->
  collect best freedom [c] = {[ strip_ends (h_prefix c) := h_proba c ]}.
Proof.
  intros H. unfold collect. simpl. rewrite (proj2 (Rleb_true _ _) H). reflexivity.
Qed.

Lemma noisy_channel_one_attempt st word freedom max_attempts optimism :
  Forall (fun c => c ∈ LM.vocabulary_ st.1) (chars word) ->
  space ∈ LM.vocabulary_ st.1 ->
  (0 <= freedom)%R ->
  (max_attempts <= 1)%nat ->
  exists st',
    noisy_channel word freedom max_attempts optimism st
    = (Ok {[ word := (- lang_value st " " (snoc_str word space)
                      + - missed_value st " " (snoc_str word space))%R ]}, st') /\
    store_equiv st st'.
Proof.
  intros Hw Hsp Hf Hn.
  assert (Hall : Forall (fun c => c ∈ LM.vocabulary_ st.1)
                   (chars (snoc_str word space))).
  { rewrite chars_snoc. apply Forall_app. split; [assumption|].
    constructor; [assumption | constructor]. }
  set (b := (- lang_value st " " (snoc_str word space)
             + - missed_value st " " (snoc_str word space))%R).
  set (base := Hyp b (String space EmptyString ++ snoc_str word space)%string
                   EmptyString None 0).
  assert (Hres : collect b freedom [base] = {[ word := b ]}).
  { rewrite collect_single by (cbn [h_proba base]; lra).
    cbn [h_prefix h_proba base]. rewrite strip_ends_padded. reflexivity. }
  rewrite <- Hres.
  assert (Hrun : exists heap',
             returns st
               (search_loop freedom optimism
                  (cache_after st (snoc_str word space)
                     (seq 0 (String.length (snoc_str word space) + 1)) ∅)
                  max_attempts
                  [Hyp (b * optimism) (String space EmptyString) (snoc_str word space)
                       (Some EmptyString) (b * optimism)]
                  [base] b)
               (heap', [base], b)).
  { destruct max_attempts as [|[|n]]; [| |lia].
    - eexists. apply returns_search_stop.
    - destruct (chars_cons_of_snoc word space) as (x & rest & Eq).
      assert (Hx : x ∈ LM.vocabulary_ st.1).
      { rewrite Eq in Hall. simpl in Hall. inversion Hall. assumption. }
      eexists.
      eapply (returns_search_expand st _ _ _ _ _ _ _ _ _ x rest);
        [reflexivity | exact Eq | exact Hx | | | apply returns_search_stop].
      + rewrite <- Eq. apply cache_after_lookup. lia.
      + apply cache_after_lookup. rewrite Eq. simpl. lia. }
  destruct Hrun as [heap' Hrun].
  apply (returns_noisy_channel st word freedom max_attempts optimism heap' [base] b
           Hall Hrun st (store_equiv_refl st)).
Qed.

(** X14. With a budget of 0 or 1 attempts no leaf is reached: for models fitted
    with [smoothing > 0] and [0 < smoothing_missed < smoothing_total], a
    word over the vocabulary (the space included) and [freedom >= 0],
    [noisy_channel] returns the mapping with the word itself as its only
    key, scored with the seeded score
    [- lang_model.single_log_proba(' ', query) - missed_model.single_log_proba(' ', query)],
    which is not negative; the models keep their data. *)
Theorem noisy_channel_with_no_budget :
  forall (o : nat) (s r : R) (corpus : string)
         (o' : nat) (sm sa : R) (pairs : list (string * string))
         (st : Store) (word : string) (freedom : R) (max_attempts : nat)
         (optimism : R),
    (0 < s)%R -> (0 < sm)%R -> (sm < sa)%R ->
    store_equiv (LM.fit o s r corpus, MissingLetterModel.fit o' sm sa pairs) st ->
    Forall (fun c => c ∈ LM.vocabulary_ st.1) (chars word) ->
    space ∈ LM.vocabulary_ st.1 ->
    (0 <= freedom)%R ->
    (max_attempts <= 1)%nat ->
    (exists st',
       noisy_channel word freedom max_attempts optimism st
       = (Ok {[ word := (- lang_value st " " (snoc_str word space)
                         + - missed_value st " " (snoc_str word space))%R ]}, st') /\
       store_equiv st st') /\
    (0 <= - lang_value st " " (snoc_str word space)
          + - missed_value st " " (snoc_str word space))%R.
Proof.
  intros o s r corpus o' sm sa pairs st word freedom max_attempts optimism
         Hs Hsm Hsa Hst Hw Hsp Hf Hn.
  split.
  - apply noisy_channel_one_attempt; assumption.
  - apply (fitted_baseline o s r corpus o' sm sa pairs st Hs Hsm Hsa Hst).
    rewrite chars_snoc. apply Forall_app. split; [assumption|].
    constructor; [assumption | constructor].
Qed.

Lemma noisy_channel_with_no_budget_witness :
  exists st',
    noisy_channel "brc" 2 1 (1/2) abracadabra_store
    = (Ok {[ "brc"%string :=
               (- lang_value abracadabra_store " " (snoc_str "brc" space)
                + - missed_value abracadabra_store " " (snoc_str "brc" space))%R ]},
       st') /\
    store_equiv abracadabra_store st'.
Proof.
  apply (noisy_channel_with_no_budget
           1 1 (1/1000) " abracadabra "
           0 (3/10) 1 [("abracadabra"%string, "abr-c-d-br-"%string)]
           abracadabra_store "brc" 2 1 (1/2)).
  - lra.
  - lra.
  - lra.
  - apply store_equiv_refl.
  - unfold abracadabra_store. cbn [fst chars]. rewrite abracadabra_vocabulary.
    repeat (constructor; [repeat (first [left | right]) |]). constructor.
  - unfold abracadabra_store. cbn [fst]. rewrite abracadabra_vocabulary. left.
  - lra.
  - lia.
Defined.

(** *** What a run that returns went through *)

Lemma bind_inv {A B} (c : M A) (k : A -> M B) st b st' :
  bind c k st = (Ok b, st') ->
  exists a st1, c st = (Ok a, st1) /\ k a st1 = (Ok b, st').
Proof.
  unfold bind. destruct (c st) as [[a|e] st1]; [|discriminate].
  intros H. exists a, st1. split; [reflexivity | exact H].
Qed.

Lemma generate_option_child prefix_proba prefix suffix optimism cache letter st h st' :
  generate_option prefix_proba prefix suffix optimism cache letter st = (Ok h, st') ->
  child_of prefix suffix h.
Proof.
  unfold generate_option. intros H.
  apply bind_inv in H. destruct H as (branch & st1 & Hb & H).
  destruct branch as [[[[next_letter new_suffix] new_prefix] letter_str] pms].
  apply bind_inv in H. destruct H as (p_next & st2 & _ & H).
  apply bind_inv in H. destruct H as (ps & st3 & _ & H).
  injection H as <- _.
  destruct letter as [c|].
  - apply bind_inv in Hb. destruct Hb as (p & st4 & _ & Hb).
    injection Hb as <- <- <- <- _ _. left. exists c. split; reflexivity.
  - destruct suffix as [|c rest]; [discriminate|].
    apply bind_inv in Hb. destruct Hb as (p & st4 & _ & Hb).
    injection Hb as <- <- <- <- _ _. right. exists c. split; reflexivity.
Qed.

Lemma generate_options_loop_children prefix_proba prefix suffix optimism cache letters :
  forall options st out st',
  generate_options_loop prefix_proba prefix suffix optimism cache letters options st
    = (Ok out, st') ->
  Forall (child_of prefix suffix) options ->
  Forall (child_of prefix suffix) out.
Proof.
  induction letters as [|letter rest IH]; intros options st out st' H Ho; simpl in H.
  - injection H as <- _. assumption.
  - apply bind_inv in H. destruct H as (o & st1 & Hg & H).
    apply IH in H; [assumption|].
    apply Forall_app. split; [assumption|].
    constructor; [|constructor]. eapply generate_option_child. eassumption.
Qed.

Lemma generate_options_children prefix_proba prefix suffix optimism cache st out st' :
  generate_options prefix_proba prefix suffix optimism cache st = (Ok out, st') ->
  Forall (child_of prefix suffix) out.
Proof.
  unfold generate_options. intros H.
  eapply generate_options_loop_children; [exact H | constructor].
Qed.

Lemma chars_empty s : chars s = [] -> s = EmptyString.
Proof. destruct s; [reflexivity | discriminate]. Qed.

Lemma child_spells word parent h :
  spells word parent ->
  h_suffix parent <> EmptyString ->
  child_of (h_prefix parent) (h_suffix parent) h ->
  spells word h.
Proof.
  intros (consumed & p & Hp & Hq & Hsub & _) Hne [(c & Hpre & Hsuf) | (c & Hsuf & Hpre)].
  - exists consumed, (p ++ [c]). rewrite Hpre, Hsuf, chars_snoc, Hp.
    split; [reflexivity|]. split; [assumption|]. split.
    + apply sublist_inserts_r. assumption.
    + intros He. contradiction.
  - exists (consumed ++ [c]), (p ++ [c]). rewrite Hpre, chars_snoc, Hp.
    rewrite Hsuf in Hq. cbn [chars] in Hq.
    split; [reflexivity|]. split; [rewrite <- app_assoc; exact Hq|]. split.
    + apply sublist_app; [assumption | reflexivity].
    + intros He. rewrite He in Hq. cbn [chars] in Hq.
      apply app_inj_tail in Hq. destruct Hq as [<- <-].
      exists p. split; [reflexivity | assumption].
Qed.

Lemma chars_drop_str n : forall s, chars (drop_str n s) = drop n (chars s).
Proof.
  induction n as [|n IH]; intros s; [reflexivity|].
  destruct s as [|c s]; [reflexivity|]. simpl. apply IH.
Qed.

Lemma chars_strip_ends s a l b :
  chars s = a :: l ++ [b] -> chars (strip_ends s) = l.
Proof.
  intros H. unfold strip_ends.
  rewrite chars_take_str, chars_drop_str, <- length_chars, H.
  cbn [drop length]. rewrite length_app. cbn [length].
  replace (S (length l + 1) - 2)%nat with (length l) by lia.
  apply take_app_length.
Qed.

Lemma leaf_key_ok word h :
  spells word h -> h_suffix h = EmptyString -> key_ok word h.
Proof.
  intros (consumed & p & Hp & _ & _ & Hleaf) He.
  destruct (Hleaf He) as (p' & -> & Hsub).
  unfold key_ok. rewrite (chars_strip_ends _ _ _ _ Hp). assumption.
Qed.

Lemma is_empty_str_true s : is_empty_str s = true -> s = EmptyString.
Proof. destruct s; [reflexivity | discriminate]. Qed.

Lemma search_loop_keys word freedom optimism cache attempts :
  forall heap candidates best st heap' candidates' best' st',
  search_loop freedom optimism cache attempts heap candidates best st
    = (Ok (heap', candidates', best'), st') ->
  Forall (spells word) heap ->
  Forall (key_ok word) candidates ->
  Forall (key_ok word) candidates'.
Proof.
  induction attempts as [|n IH];
    intros heap candidates best st heap' candidates' best' st' H Hh Hc; simpl in H.
  - injection H as _ <- _ _. assumption.
  - destruct (heappop heap) as [[next_best heap1]|] eqn:Hpop.
    2:{ injection H as _ <- _ _. assumption. }
    destruct (heappop_Forall _ _ _ _ Hh Hpop) as [Hnb Hh1].
    destruct (is_empty_str (h_suffix next_best)) eqn:Es.
    + destruct (Rleb _ _).
      * eapply IH; [exact H | assumption|].
        apply Forall_app. split; [assumption|].
        constructor; [|constructor].
        apply leaf_key_ok; [assumption | apply is_empty_str_true, Es].
      * eapply IH; eassumption.
    + apply bind_inv in H. destruct H as (new_options & st1 & Hg & H).
      eapply IH; [exact H | | assumption].
      apply push_options_Forall; [|assumption].
      apply generate_options_children in Hg.
      eapply Forall_impl; [exact Hg|]. intros h Hch.
      eapply child_spells; [exact Hnb | apply is_empty_str_false, Es | exact Hch].
Qed.

Lemma collect_fold_lookup best freedom candidates : forall (res0 : gmap string R) key v,
  fold_left
    (fun res candidate =>
       if Rleb (h_proba candidate) (best + freedom)
       then <[strip_ends (h_prefix candidate) := h_proba candidate]> res
       else res)
    candidates res0 !! key = Some v ->
  res0 !! key = Some v \/
  exists c, c ∈ candidates /\ key = strip_ends (h_prefix c) /\ v = h_proba c /\
            (h_proba c <= best + freedom)%R.
Proof.
  induction candidates as [|c rest IH]; intros res0 key v H; simpl in H.
  - left. assumption.
  - apply IH in H. destruct H as [H | (c' & Hin & Hk & Hv & Hle)].
    + destruct (Rleb (h_proba c) (best + freedom)) eqn:E; [|left; assumption].
      destruct (decide (strip_ends (h_prefix c) = key)) as [Hk|Hne].
      * rewrite Hk, lookup_insert_eq in H. injection H as <-.
        right. exists c. split; [left|]. split; [symmetry; assumption|].
        split; [reflexivity | apply Rleb_true; assumption].
      * rewrite lookup_insert_ne in H by assumption. left. assumption.
    + right. exists c'. split; [right; assumption | auto].
Qed.

Lemma collect_lookup best freedom candidates key v :
  collect best freedom candidates !! key = Some v ->
  exists c, c ∈ candidates /\ key = strip_ends (h_prefix c) /\ v = h_proba c /\
            (h_proba c <= best + freedom)%R.
Proof.
  intros H. apply collect_fold_lookup in H. destruct H as [H|H]; [|exact H].
  rewrite lookup_empty in H. discriminate.
Qed.

Lemma root_spells word b1 b2 :
  spells word (Hyp b1 (String space EmptyString) (snoc_str word space)
                   (Some EmptyString) b2).
Proof.
  exists [], []. cbn [h_prefix h_suffix chars]. rewrite chars_snoc.
  split; [reflexivity|]. split; [reflexivity|]. split; [constructor|].
  intros He. apply (f_equal chars) in He. rewrite chars_snoc in He.
  destruct (chars word); discriminate.
Qed.

Lemma seeded_key_ok word b :
  key_ok word (Hyp b (String space EmptyString ++ snoc_str word space)%string
                   EmptyString None 0).
Proof. unfold key_ok. cbn [h_prefix]. rewrite strip_ends_padded. reflexivity. Qed.

(** X15. Every phrase of the result holds the symbols of the word, in order:
    removing symbols from a returned phrase gives the word back. *)
Theorem noisy_channel_phrases_contain_the_word :
  forall (st : Store) (word : string) (freedom : R) (max_attempts : nat)
         (optimism : R) (res : gmap string R) (st' : Store) (key : string),
    noisy_channel word freedom max_attempts optimism st = (Ok res, st') ->
    is_Some (res !! key) ->
    chars word `sublist_of` chars key.
Proof.
  intros st word freedom max_attempts optimism res st' key H [v Hv].
  apply noisy_channel_result_has_word in H.
  destruct H as (b & st1 & cache & st2 & heap' & candidates' & best'
                 & _ & _ & Hloop & -> & _ & _).
  apply (search_loop_keys word) in Hloop.
  - apply collect_lookup in Hv. destruct Hv as (c & Hin & -> & _ & _).
    rewrite Forall_forall in Hloop. apply (Hloop c Hin).
  - constructor; [apply root_spells | constructor].
  - constructor; [apply seeded_key_ok | constructor].
Qed.

Lemma tiny_wide_phrase :
  collect (- ln (13/20 * (3/4) * (17/20 * (2/3)))) (1/10)
    [Hyp (- ln (1/4 * (3/20))) "  " "" None 0;
     Hyp (- ln (17/20 * (1/4))) "  " "" (Some EmptyString) 0;
     Hyp (- ln (13/20 * (3/4) * (17/20 * (2/3)))) " a " "" (Some EmptyString) 0]
    !! "a"%string
  = Some (- ln (13/20 * (3/4) * (17/20 * (2/3))))%R.
Proof.
  unfold collect. cbn [fold_left h_proba h_prefix].
  rleb_is false ltac:(apply Rleb_false, cost_not_le_tenth; lra).
  rleb_is false ltac:(apply Rleb_false, cost_not_le_tenth; lra).
  rleb_is true ltac:(apply Rleb_true; lra).
  change (strip_ends " a ") with "a"%string.
  apply lookup_insert_eq.
Qed.

(** *** A search that inserts a letter *)

Lemma tiny_proba_last_a context :
  LM.local_context 1 context = "a"%string ->
  lang_proba tiny_lang context = [(" "%char, (2/3)%R); ("a"%char, (1/3)%R)].
Proof.
  intros H. rewrite lang_proba_eq.
  rewrite (tiny_counts context 1 0) by (rewrite H; vm_compute; reflexivity).
  unfold series_div, series_sum. cbn [map foldr fst snd]. simpl INR.
  repeat f_equal; lra.
Qed.

Lemma tiny_next_last_a context :
  LM.local_context 1 context = "a"%string ->
  next_proba tiny_lang context " " = (2/3)%R /\
  next_proba tiny_lang context "a" = (1/3)%R.
Proof.
  intros H. unfold next_proba. rewrite (tiny_proba_last_a context H).
  cbn [series_get].
  repeat first [ rewrite decide_True by reflexivity
               | rewrite decide_False by discriminate ].
  split; reflexivity.
Qed.

Lemma tiny_next_nothing_a : next_proba tiny_lang "" "a" = (1/2)%R.
Proof. tiny_lookup. Qed.

Lemma tiny_a_in_vocabulary : "a"%char ∈ LM.vocabulary_ tiny_store.1.
Proof. unfold tiny_store. cbn [fst]. rewrite tiny_vocabulary. right. left. Qed.

Lemma lang_value_two st context c1 c2 :
  c1 ∈ LM.vocabulary_ st.1 -> c2 ∈ LM.vocabulary_ st.1 ->
  lang_value st context (String c1 (String c2 EmptyString))
  = (0 + ln (next_proba st.1 context c1)
     + ln (next_proba st.1 (snoc_str context c1) c2))%R.
Proof.
  intros H1 H2. unfold lang_value.
  rewrite (proj1 (lang_single_log_proba_spec _ _ _)).
  cbn [chars lang_log_terms].
  rewrite (next_proba_get _ context c1 H1).
  rewrite (next_proba_get _ (snoc_str context c1) c2 H2). reflexivity.
Qed.

Lemma missed_value_two st context c1 c2 :
  c1 <> placeholder -> c2 <> placeholder ->
  missed_value st context (String c1 (String c2 EmptyString))
  = (0 + ln (p_del st.2 context c1) + ln (p_del st.2 (snoc_str context c1) c2))%R.
Proof.
  intros H1 H2. unfold missed_value.
  rewrite (proj1 (missed_single_log_proba_spec _ _ _ _)).
  cbn [MissingLetterModel.truthy chars zip zip_with missed_log_terms].
  rewrite !decide_False by assumption. reflexivity.
Qed.

(** the entries of the cache for the query ["a "] *)
Lemma tiny_a_cache_0 :
  cache_after tiny_store "a " (seq 0 (String.length "a " + 1)) ∅ !! 0%nat = Some 0%R.
Proof.
  rewrite cache_after_lookup by (simpl; lia).
  change (take_str 0 "a ") with EmptyString.
  rewrite unconditional_cost_empty. reflexivity.
Qed.

Lemma tiny_a_cache_1 :
  cache_after tiny_store "a " (seq 0 (String.length "a " + 1)) ∅ !! 1%nat
  = Some (- ln (1/2 * (13/20)))%R.
Proof.
  rewrite cache_after_lookup by (simpl; lia).
  f_equal. change (take_str 1 "a ") with "a"%string.
  unfold unconditional_cost.
  rewrite (lang_value_one _ _ _ tiny_a_in_vocabulary), missed_value_one
    by discriminate.
  unfold tiny_store. cbn [fst snd].
  rewrite tiny_next_nothing_a, tiny_p_del_a.
  rewrite ln_mult by lra. lra.
Qed.

Lemma tiny_a_cache_2 :
  cache_after tiny_store "a " (seq 0 (String.length "a " + 1)) ∅ !! 2%nat
  = Some (- ln (1/2 * (13/20) * (2/3 * (3/20))))%R.
Proof.
  rewrite cache_after_lookup by (simpl; lia).
  f_equal. change (take_str 2 "a ") with "a "%string.
  unfold unconditional_cost.
  rewrite (lang_value_two _ _ _ _ tiny_a_in_vocabulary tiny_space_in_vocabulary),
    missed_value_two by discriminate.
  unfold tiny_store. cbn [fst snd].
  change (snoc_str "" "a") with "a"%string.
  rewrite tiny_next_nothing_a, (proj1 (tiny_next_last_a "a" eq_refl)),
    tiny_p_del_a, tiny_p_del_space.
  rewrite !ln_mult by lra. lra.
Qed.

(** the score the search starts from, for the word ["a"] *)
Lemma tiny_a_baseline :
  (- lang_value tiny_store " " "a " + - missed_value tiny_store " " "a "
   = - ln (3/4 * (2/3) * (13/20 * (3/20))))%R.
Proof.
  rewrite (lang_value_two _ _ _ _ tiny_a_in_vocabulary tiny_space_in_vocabulary),
    missed_value_two by discriminate.
  unfold tiny_store. cbn [fst snd].
  change (snoc_str " " "a") with " a"%string.
  rewrite tiny_next_space_a, tiny_next_a_space, tiny_p_del_a, tiny_p_del_space.
  rewrite !ln_mult by lra. lra.
Qed.

(** within [ln 10] of a cost, and not: [freedom = ln 10] keeps the
    phrases at most ten times less probable than the best one *)
Lemma cost_lt_ln10 q1 q2 :
  (0 < q1)%R -> (0 < q2)%R -> (q2 < 10 * q1)%R ->
  (- ln q1 < - ln q2 + ln 10)%R.
Proof.
  intros H1 H2 H. pose proof (ln_increasing q2 (10 * q1) H2 H) as Hm.
  rewrite ln_mult in Hm by lra. lra.
Qed.

Lemma cost_not_lt_ln10 q1 q2 :
  (0 < q1)%R -> (0 < q2)%R -> (10 * q1 <= q2)%R ->
  ~ (- ln q1 < - ln q2 + ln 10)%R.
Proof.
  intros H1 H2 H. assert (H3 : (0 < 10 * q1)%R) by lra.
  pose proof (ln_monotone (10 * q1) q2 H3 H) as Hm.
  rewrite ln_mult in Hm by lra. lra.
Qed.

Lemma hyp_ltb_lt a b : (h_proba a < h_proba b)%R -> hyp_ltb a b = true.
Proof.
  intros H. unfold hyp_ltb.
  rewrite (proj2 (Rltb_true (h_proba a) (h_proba b)) H). reflexivity.
Qed.

Lemma hyp_ltb_gt a b : (h_proba b < h_proba a)%R -> hyp_ltb a b = false.
Proof.
  intros H. unfold hyp_ltb.
  rewrite (proj2 (Rltb_false (h_proba a) (h_proba b))) by lra.
  rewrite Reqb_false by lra. reflexivity.
Qed.

Lemma returns_search_leaf_kept st0 freedom optimism cache attempts heap candidates
    best next_best heap' final :
  heappop heap = Some (next_best, heap') ->
  h_suffix next_best = EmptyString ->
  (h_proba next_best <= best + freedom)%R ->
  ~ (h_proba next_best < best)%R ->
  returns st0
    (search_loop freedom optimism cache attempts heap'
       (candidates ++ [next_best]) best) final ->
  returns st0
    (search_loop freedom optimism cache (S attempts) heap candidates best) final.
Proof.
  intros Hpop Hs Hle Hlt H. simpl. rewrite Hpop, Hs. cbn [is_empty_str].
  rewrite (proj2 (Rleb_true _ _) Hle), (proj2 (Rltb_false _ _) Hlt). exact H.
Qed.

Ltac tiny_a_values :=
  unfold deleted_child, kept_child, deletion_cost, keep_cost, tiny_store;
  cbn [fst snd snoc_str String.append];
  rewrite ?tiny_next_space_space, ?tiny_next_space_a, ?tiny_next_a_space,
    ?tiny_next_a_a, ?(proj1 (tiny_next_last_a " aa" eq_refl)),
    ?(proj2 (tiny_next_last_a " aa" eq_refl)), ?tiny_p_del_space, ?tiny_p_del_a;
  replace (1 - 3/20)%R with (17/20)%R by lra;
  replace (1 - 13/20)%R with (7/20)%R by lra.

(** the children of the root [" "] with suffix ["a "] *)
Lemma tiny_word_root_children pp :
  pp = 0%R ->
  map (deleted_child tiny_store pp " " "a " 1 (- ln (1/2 * (13/20) * (2/3 * (3/20)))))
      [" "; "a"]%char ++
  [kept_child tiny_store pp " " " " 1 (- ln (1/2 * (13/20))) "a"]
  = [Hyp (- ln (3/20 * (1/4) * (1/2 * (13/20) * (2/3 * (3/20))))) "  " "a "
         (Some " "%string) (- ln (1/2 * (13/20) * (2/3 * (3/20))));
     Hyp (- ln (13/20 * (3/4) * (1/2 * (13/20) * (2/3 * (3/20))))) " a" "a "
         (Some "a"%string) (- ln (1/2 * (13/20) * (2/3 * (3/20))));
     Hyp (- ln (7/20 * (3/4) * (1/2 * (13/20)))) " a" " " (Some EmptyString)
         (- ln (1/2 * (13/20)))].
Proof.
  intros ->. cbn [map app]. tiny_a_values.
  repeat f_equal; rewrite ?ln_mult by lra; lra.
Qed.

(** the children of the node [" a"] with suffix [" "] *)
Lemma tiny_word_a_children pp :
  pp = (- ln (7/20 * (3/4)))%R ->
  map (deleted_child tiny_store pp " a" " " 1 (- ln (1/2 * (13/20))))
      [" "; "a"]%char ++
  [kept_child tiny_store pp " a" "" 1 0 " "]
  = [Hyp (- ln (7/20 * (3/4) * (3/20 * (2/3)) * (1/2 * (13/20)))) " a " " "
         (Some " "%string) (- ln (1/2 * (13/20)));
     Hyp (- ln (7/20 * (3/4) * (13/20 * (1/3)) * (1/2 * (13/20)))) " aa" " "
         (Some "a"%string) (- ln (1/2 * (13/20)));
     Hyp (- ln (7/20 * (3/4) * (17/20 * (2/3)))) " a " "" (Some EmptyString) 0].
Proof.
  intros ->. cbn [map app]. tiny_a_values.
  repeat f_equal; rewrite ?ln_mult by lra; lra.
Qed.

(** the children of the node [" aa"] with suffix [" "] *)
Lemma tiny_word_aa_children pp :
  pp = (- ln (7/20 * (3/4) * (13/20 * (1/3))))%R ->
  map (deleted_child tiny_store pp " aa" " " 1 (- ln (1/2 * (13/20))))
      [" "; "a"]%char ++
  [kept_child tiny_store pp " aa" "" 1 0 " "]
  = [Hyp (- ln (7/20 * (3/4) * (13/20 * (1/3)) * (3/20 * (2/3)) * (1/2 * (13/20))))
         " aa " " " (Some " "%string) (- ln (1/2 * (13/20)));
     Hyp (- ln (7/20 * (3/4) * (13/20 * (1/3)) * (13/20 * (1/3)) * (1/2 * (13/20))))
         " aaa" " " (Some "a"%string) (- ln (1/2 * (13/20)));
     Hyp (- ln (7/20 * (3/4) * (13/20 * (1/3)) * (17/20 * (2/3)))) " aa " ""
         (Some EmptyString) 0].
Proof.
  intros ->. cbn [map app]. tiny_a_values.
  repeat f_equal; rewrite ?ln_mult by lra; lra.
Qed.

Ltac heap_min :=
  unfold heappop; cbn [extract_min];
  repeat (first [ rewrite hyp_ltb_lt by (cbn [h_proba]; apply cost_lt; lra)
                | rewrite hyp_ltb_gt by (cbn [h_proba]; apply cost_lt; lra) ];
          cbv beta iota zeta);
  reflexivity.

Ltac push_within_ln10 :=
  repeat first
    [ rltb_is true ltac:(apply Rltb_true, cost_lt_ln10; lra)
    | rltb_is false ltac:(apply Rltb_false, cost_not_lt_ln10; lra) ].

Ltac tiny_word_children lem :=
  cbn [h_proba h_proba_suffix h_prefix];
  replace (LM.vocabulary_ tiny_store.1) with [" "; "a"]%char
    by (unfold tiny_store; cbn [fst]; rewrite tiny_vocabulary; reflexivity);
  rewrite lem by (rewrite ?ln_mult by lra; lra);
  unfold push_options; cbn [fold_left h_proba heappush];
  push_within_ln10; unfold heappush.

(** the search for the word ["a"] with [freedom = ln 10] and five attempts:
    the leaf [" a "] is reached first, then the node [" aa"], which assumes
    a deleted ["a"] after the observed one, leads to the leaf [" aa "] *)
Lemma tiny_search_inserts :
  returns tiny_store
    (search_loop (ln 10) 1
       (cache_after tiny_store "a " (seq 0 (String.length "a " + 1)) ∅) 5
       [Hyp (- ln (3/4 * (2/3) * (13/20 * (3/20))) * 1) " " "a " (Some EmptyString)
            (- ln (3/4 * (2/3) * (13/20 * (3/20))) * 1)]
       [Hyp (- ln (3/4 * (2/3) * (13/20 * (3/20)))) " a " "" None 0]
       (- ln (3/4 * (2/3) * (13/20 * (3/20)))))
    ([Hyp (- ln (7/20 * (3/4) * (3/20 * (2/3)) * (1/2 * (13/20)))) " a " " "
          (Some " "%string) (- ln (1/2 * (13/20)));
      Hyp (- ln (13/20 * (3/4) * (1/2 * (13/20) * (2/3 * (3/20))))) " a" "a "
          (Some "a"%string) (- ln (1/2 * (13/20) * (2/3 * (3/20))))],
     [Hyp (- ln (3/4 * (2/3) * (13/20 * (3/20)))) " a " "" None 0;
      Hyp (- ln (7/20 * (3/4) * (17/20 * (2/3)))) " a " "" (Some EmptyString) 0;
      Hyp (- ln (7/20 * (3/4) * (13/20 * (1/3)) * (17/20 * (2/3)))) " aa " ""
          (Some EmptyString) 0],
     (- ln (7/20 * (3/4) * (17/20 * (2/3))))%R).
Proof.
  (* the root is expanded *)
  eapply (returns_search_expand tiny_store _ _ _ _ _ _ _ _ _ "a"%char " ");
    [reflexivity | reflexivity | exact tiny_a_in_vocabulary
    | exact tiny_a_cache_2 | exact tiny_a_cache_1 |].
  tiny_word_children tiny_word_root_children.
  (* the node " a" that kept the observed "a" is expanded *)
  eapply (returns_search_expand tiny_store _ _ _ _ _ _ _ _ _ " "%char "");
    [heap_min | reflexivity | exact tiny_space_in_vocabulary
    | exact tiny_a_cache_1 | exact tiny_a_cache_0 |].
  tiny_word_children tiny_word_a_children.
  (* the leaf " a " is accepted and becomes the best *)
  eapply returns_search_leaf_best;
    [ heap_min
    | reflexivity
    | cbn [h_proba]; left; apply cost_lt_ln10; lra
    | cbn [h_proba]; apply cost_lt; lra |].
  cbn [h_proba app].
  (* the node " aa" is expanded: only its leaf is pushed *)
  eapply (returns_search_expand tiny_store _ _ _ _ _ _ _ _ _ " "%char "");
    [heap_min | reflexivity | exact tiny_space_in_vocabulary
    | exact tiny_a_cache_1 | exact tiny_a_cache_0 |].
  tiny_word_children tiny_word_aa_children.
  (* the leaf " aa " is accepted; the best score stays *)
  eapply returns_search_leaf_kept;
    [ heap_min
    | reflexivity
    | cbn [h_proba]; left; apply cost_lt_ln10; lra
    | cbn [h_proba]; intros Hlt;
      pose proof (cost_lt (7/20 * (3/4) * (17/20 * (2/3)))
                    (7/20 * (3/4) * (13/20 * (1/3)) * (17/20 * (2/3)))
                    ltac:(lra) ltac:(lra)); lra |].
  cbn [h_proba app].
  apply returns_search_stop.
Qed.

Lemma tiny_noisy_channel_inserts :
  returns tiny_store (noisy_channel "a" (ln 10) 5 1)
    (collect (- ln (7/20 * (3/4) * (17/20 * (2/3)))) (ln 10)
       [Hyp (- ln (3/4 * (2/3) * (13/20 * (3/20)))) " a " "" None 0;
        Hyp (- ln (7/20 * (3/4) * (17/20 * (2/3)))) " a " "" (Some EmptyString) 0;
        Hyp (- ln (7/20 * (3/4) * (13/20 * (1/3)) * (17/20 * (2/3)))) " aa " ""
            (Some EmptyString) 0]).
Proof.
  eapply (returns_noisy_channel tiny_store "a" (ln 10) 5 1).
  - change (chars (snoc_str "a" space)) with ["a"%char; " "%char].
    constructor; [exact tiny_a_in_vocabulary|].
    constructor; [exact tiny_space_in_vocabulary | constructor].
  - cbv zeta.
    change (snoc_str "a" space) with "a "%string.
    change (String space EmptyString) with " "%string.
    change (" " ++ "a ")%string with " a "%string.
    rewrite tiny_a_baseline. exact tiny_search_inserts.
Qed.

Lemma tiny_inserted_phrase :
  collect (- ln (7/20 * (3/4) * (17/20 * (2/3)))) (ln 10)
    [Hyp (- ln (3/4 * (2/3) * (13/20 * (3/20)))) " a " "" None 0;
     Hyp (- ln (7/20 * (3/4) * (17/20 * (2/3)))) " a " "" (Some EmptyString) 0;
     Hyp (- ln (7/20 * (3/4) * (13/20 * (1/3)) * (17/20 * (2/3)))) " aa " ""
         (Some EmptyString) 0]
    !! "aa"%string
  = Some (- ln (7/20 * (3/4) * (13/20 * (1/3)) * (17/20 * (2/3))))%R.
Proof.
  unfold collect. cbn [fold_left h_proba h_prefix].
  repeat rleb_is true ltac:(apply Rleb_true; left; apply cost_lt_ln10; lra).
  change (strip_ends " aa ") with "aa"%string.
  apply lookup_insert_eq.
Qed.

Lemma noisy_channel_phrases_contain_the_word_witness :
  exists res st',
    noisy_channel "a" (ln 10) 5 1 tiny_store = (Ok res, st') /\
    is_Some (res !! "aa"%string) /\
    chars "a" `sublist_of` chars "aa".
Proof.
  destruct (tiny_noisy_channel_inserts tiny_store (store_equiv_refl _))
    as (st' & E & _).
  eexists _, st'. split; [exact E|].
  assert (Hkey := mk_is_Some _ _ tiny_inserted_phrase).
  split; [exact Hkey|].
  exact (noisy_channel_phrases_contain_the_word tiny_store "a" (ln 10) 5 1
           _ st' "aa" E Hkey).
Defined.

(** *** The scores of the result *)

Lemma search_loop_best freedom optimism cache attempts :
  forall heap candidates best st heap' candidates' best' st',
  search_loop freedom optimism cache attempts heap candidates best st
    = (Ok (heap', candidates', best'), st') ->
  best_of best candidates ->
  best_of best' candidates'.
Proof.
  induction attempts as [|n IH];
    intros heap candidates best st heap' candidates' best' st' H Hb; simpl in H.
  - injection H as _ <- <- _. assumption.
  - destruct (heappop heap) as [[next_best heap1]|] eqn:Hpop.
    2:{ injection H as _ <- <- _. assumption. }
    destruct (is_empty_str (h_suffix next_best)) eqn:Es.
    + destruct (Rleb _ _).
      * eapply IH; [exact H|].
        destruct Hb as [Hall (c & Hin & Hc)].
        destruct (Rltb (h_proba next_best) best) eqn:El.
        -- apply Rltb_true in El. split.
           ++ apply Forall_app. split.
              ** eapply Forall_impl; [exact Hall|]. cbv beta. intros; lra.
              ** constructor; [lra | constructor].
           ++ exists next_best. split; [|reflexivity].
              apply elem_of_app. right. left.
        -- apply Rltb_false in El. split.
           ++ apply Forall_app. split; [assumption|].
              constructor; [lra | constructor].
           ++ exists c. split; [|assumption]. apply elem_of_app. left. assumption.
      * eapply IH; eassumption.
    + apply bind_inv in H. destruct H as (new_options & st1 & _ & H).
      eapply IH; eassumption.
Qed.

Lemma collect_fold_elem best freedom candidates c :
  c ∈ candidates -> (h_proba c <= best + freedom)%R ->
  forall res0 : gmap string R,
  is_Some (fold_left
             (fun res candidate =>
                if Rleb (h_proba candidate) (best + freedom)
                then <[strip_ends (h_prefix candidate) := h_proba candidate]> res
                else res)
             candidates res0 !! strip_ends (h_prefix c)).
Proof.
  intros Hin Hle. induction candidates as [|d rest IH]; intros res0.
  - inversion Hin.
  - apply elem_of_cons in Hin. destruct Hin as [<-|Hin].
    + simpl. apply collect_step.
      replace (Rleb (h_proba c) (best + freedom)) with true.
      * rewrite lookup_insert_eq. eauto.
      * symmetry. destruct (Rleb (h_proba c) (best + freedom)) eqn:E; [reflexivity|].
        apply Rleb_false in E. lra.
    + simpl. apply IH. assumption.
Qed.

(** X16. For models fitted with [smoothing > 0] and
    [0 < smoothing_missed < smoothing_total], the scores of the result lie
    in a window of width [freedom] above the best score found: with a
    negative [freedom] the result is empty, with any other it is not, and
    no two of its scores differ by more than [freedom]. *)
Theorem noisy_channel_scores_within_freedom :
  forall (o : nat) (s r : R) (corpus : string)
         (o' : nat) (sm sa : R) (pairs : list (string * string))
         (st : Store) (word : string) (freedom : R) (max_attempts : nat)
         (optimism : R) (res : gmap string R) (st' : Store),
    (0 < s)%R -> (0 < sm)%R -> (sm < sa)%R ->
    store_equiv (LM.fit o s r corpus, MissingLetterModel.fit o' sm sa pairs) st ->
    noisy_channel word freedom max_attempts optimism st = (Ok res, st') ->
    ((freedom < 0)%R -> res = ∅) /\
    ((0 <= freedom)%R -> res <> ∅) /\
    exists best : R,
      forall key v, res !! key = Some v -> (best <= v <= best + freedom)%R.
Proof.
  intros o s r corpus o' sm sa pairs st word freedom max_attempts optimism
         res st' Hs Hsm Hsa Hst H.
  apply noisy_channel_result_has_word in H.
  destruct H as (b & st1 & cache & st2 & heap' & candidates' & best'
                 & _ & _ & Hloop & -> & _ & _).
  apply search_loop_best in Hloop.
  2:{ split; [constructor; [cbn; lra | constructor]|].
      eexists. split; [left | reflexivity]. }
  destruct Hloop as [Hall (c & Hin & Hc)].
  assert (Hwin : forall key v, collect best' freedom candidates' !! key = Some v ->
                   (best' <= v <= best' + freedom)%R).
  { intros key v Hv. apply collect_lookup in Hv.
    destruct Hv as (d & Hd & _ & -> & Hle).
    rewrite Forall_forall in Hall. specialize (Hall d Hd). cbv beta in Hall. lra. }
  split; [|split].
  - intros Hneg. apply map_eq. intros key. rewrite lookup_empty.
    destruct (collect best' freedom candidates' !! key) as [v|] eqn:E; [|reflexivity].
    apply Hwin in E. lra.
  - intros Hpos He.
    destruct (collect_fold_elem best' freedom candidates' c Hin ltac:(lra) ∅) as [v Hv].
    fold (collect best' freedom candidates') in Hv.
    rewrite He, lookup_empty in Hv. discriminate.
  - exists best'. exact Hwin.
Qed.

Lemma noisy_channel_scores_within_freedom_witness :
  exists res st',
    noisy_channel "a" (ln 10) 5 1 tiny_store = (Ok res, st') /\
    (((ln 10 < 0)%R -> res = ∅) /\
     ((0 <= ln 10)%R -> res <> ∅) /\
     exists best : R,
       forall key v, res !! key = Some v -> (best <= v <= best + ln 10)%R).
Proof.
  destruct (tiny_noisy_channel_inserts tiny_store (store_equiv_refl _))
    as (st' & E & _).
  eexists _, st'. split; [exact E|].
  refine (noisy_channel_scores_within_freedom 1 1 0 " a a" 0 (3/10) 1
            [("a "%string, "- "%string)] tiny_store "a" (ln 10) 5 1 _ st'
            _ _ _ (store_equiv_refl _) E); lra.
Defined.

(** *** The scores are costs of paths *)

Lemma extend_snoc c d : forall al prefix,
  extend prefix (al ++ [(c, d)]) = snoc_str (extend prefix al) c.
Proof.
  induction al as [|[a b] rest IH]; intros prefix; [reflexivity|].
  simpl. apply IH.
Qed.

Lemma path_cost_snoc st c d : forall al prefix,
  path_cost st prefix (al ++ [(c, d)])
  = (path_cost st prefix al + edge_cost st (extend prefix al) c d)%R.
Proof.
  induction al as [|[a b] rest IH]; intros prefix; simpl.
  - lra.
  - rewrite IH. lra.
Qed.

Lemma chars_extend : forall al prefix,
  chars (extend prefix al) = chars prefix ++ symbols_of al.
Proof.
  induction al as [|[a b] rest IH]; intros prefix; simpl.
  - rewrite app_nil_r. reflexivity.
  - rewrite IH, chars_snoc, <- app_assoc. reflexivity.
Qed.

Lemma observed_snoc_deleted al c : observed_of (al ++ [(c, true)]) = observed_of al.
Proof.
  unfold observed_of. rewrite filter_app, filter_cons.
  case_decide; [discriminate|]. rewrite filter_nil, app_nil_r. reflexivity.
Qed.

Lemma observed_snoc_kept al c :
  observed_of (al ++ [(c, false)]) = observed_of al ++ [c].
Proof.
  unfold observed_of. rewrite filter_app, filter_cons.
  case_decide; [|contradiction]. rewrite filter_nil, map_app. reflexivity.
Qed.

Lemma symbols_snoc al c d : symbols_of (al ++ [(c, d)]) = symbols_of al ++ [c].
Proof. unfold symbols_of. rewrite map_app. reflexivity. Qed.

Lemma children_path st0 word (cache : Cache) parent c rest optimism v v' :
  cache !! 0%nat = Some 0%R ->
  path_node st0 word cache parent ->
  h_suffix parent = String c rest ->
  cache !! String.length (String c rest) = Some v ->
  cache !! String.length rest = Some v' ->
  Forall (path_node st0 word cache)
    (map (deleted_child st0 (h_proba parent - h_proba_suffix parent)
            (h_prefix parent) (String c rest) optimism v)
         (LM.vocabulary_ st0.1) ++
     [kept_child st0 (h_proba parent - h_proba_suffix parent)
        (h_prefix parent) rest optimism v' c]).
Proof.
  intros Hc0 [Hok (al & Hvoc & Hpre & Hobs & Hcost & _)] Hs Hv Hv'.
  assert (Hnodes := children_ok st0 cache (h_proba parent - h_proba_suffix parent)
                      (h_prefix parent) c rest optimism v v').
  rewrite Forall_forall in Hnodes.
  destruct Hok as [Hsuf Hcache]. rewrite Hs in Hsuf, Hcache.
  assert (Hc : c ∈ LM.vocabulary_ st0.1)
    by (simpl in Hsuf; inversion Hsuf; assumption).
  apply Forall_forall. intros h Hin. split.
  { apply Hnodes; [|assumption]. split; assumption. }
  apply elem_of_app in Hin. destruct Hin as [Hin|Hin].
  - apply list_elem_of_fmap in Hin. destruct Hin as (a & -> & Ha).
    exists (al ++ [(a, true)]). unfold deleted_child.
    cbn [h_prefix h_suffix h_proba h_proba_suffix].
    split.
    { rewrite symbols_snoc. apply Forall_app. split; [assumption|].
      constructor; [assumption | constructor]. }
    split; [rewrite extend_snoc, Hpre; reflexivity|].
    split; [rewrite observed_snoc_deleted, <- Hs; exact Hobs|].
    split; [|discriminate].
    rewrite path_cost_snoc, <- Hpre, <- Hcost. unfold edge_cost. lra.
  - apply list_elem_of_singleton in Hin. subst h.
    exists (al ++ [(c, false)]). unfold kept_child.
    cbn [h_prefix h_suffix h_proba h_proba_suffix].
    split.
    { rewrite symbols_snoc. apply Forall_app. split; [assumption|].
      constructor; [assumption | constructor]. }
    split; [rewrite extend_snoc, Hpre; reflexivity|].
    rewrite Hs in Hobs. cbn [chars] in Hobs.
    split.
    { rewrite observed_snoc_kept, <- app_assoc. exact Hobs. }
    split.
    { rewrite path_cost_snoc, <- Hpre, <- Hcost. unfold edge_cost. lra. }
    intros ->. cbn [String.length] in Hv'. rewrite Hc0 in Hv'.
    injection Hv' as <-. split; [lra|].
    cbn [chars] in Hobs. apply app_inj_tail in Hobs. destruct Hobs as [_ <-].
    exists al. reflexivity.
Qed.

Lemma leaf_path st0 word cache h :
  path_node st0 word cache h -> h_suffix h = EmptyString -> path_leaf st0 word h.
Proof.
  intros [_ (al & Hvoc & Hpre & Hobs & Hcost & Hleaf)] Hs.
  destruct (Hleaf Hs) as [Hz (al' & ->)].
  right. exists (al' ++ [(space, false)]).
  rewrite Hs in Hobs. cbn [chars] in Hobs. rewrite app_nil_r in Hobs.
  split; [assumption|].
  split; [|split; [symmetry; exact Hobs | rewrite <- Hcost, Hz; lra]].
  rewrite symbols_snoc. f_equal. symmetry.
  apply (chars_strip_ends _ space _ space).
  rewrite Hpre, chars_extend, symbols_snoc. reflexivity.
Qed.

Lemma search_loop_paths st0 word freedom optimism (cache : Cache) attempts :
  cache !! 0%nat = Some 0%R ->
  forall heap candidates best,
  Forall (path_node st0 word cache) heap ->
  Forall (path_leaf st0 word) candidates ->
  exists heap' candidates' best',
    returns st0 (search_loop freedom optimism cache attempts heap candidates best)
      (heap', candidates', best') /\
    Forall (path_leaf st0 word) candidates'.
Proof.
  intros Hc0. induction attempts as [|n IH]; intros heap candidates best Hh Hc.
  - exists heap, candidates, best. split; [apply returns_search_stop | assumption].
  - destruct (heappop heap) as [[next_best heap1]|] eqn:Hpop.
    2:{ exists heap, candidates, best. split; [|assumption].
        intros st He. simpl. rewrite Hpop. exists st.
        split; [reflexivity | assumption]. }
    destruct (heappop_Forall _ _ _ _ Hh Hpop) as [Hnb Hh1].
    destruct (h_suffix next_best) as [|c rest] eqn:Hs.
    + rewrite (search_loop_leaf _ _ _ _ _ _ _ _ _ Hpop Hs).
      destruct (Rleb _ _).
      * apply IH; [assumption|].
        apply Forall_app. split; [assumption|].
        constructor; [|constructor]. eapply leaf_path; eassumption.
      * apply IH; assumption.
    + assert (Hok := proj1 Hnb). destruct Hok as [Hvoc Hcache].
      rewrite Hs in Hvoc, Hcache.
      assert (Hin : c ∈ LM.vocabulary_ st0.1)
        by (simpl in Hvoc; inversion Hvoc; assumption).
      destruct (Hcache (String.length (String c rest)) (le_n _)) as [v Ev].
      destruct (Hcache (String.length rest)) as [v' Ev']; [simpl; lia|].
      destruct (IH (push_options best freedom
                      (map (deleted_child st0
                              (h_proba next_best - h_proba_suffix next_best)
                              (h_prefix next_best) (String c rest) optimism v)
                           (LM.vocabulary_ st0.1) ++
                       [kept_child st0
                          (h_proba next_best - h_proba_suffix next_best)
                          (h_prefix next_best) rest optimism v' c])
                      heap1) candidates best)
        as (heap' & candidates' & best' & Hret & Hall).
      * apply push_options_Forall; [|assumption].
        eapply children_path; eassumption.
      * assumption.
      * exists heap', candidates', best'. split; [|assumption].
        eapply returns_search_expand; eassumption.
Qed.

Lemma baseline_ok_vocabulary query st b st' :
  baseline query st = (Ok b, st') ->
  Forall (fun c => c ∈ LM.vocabulary_ st.1) (chars query).
Proof.
  unfold baseline. intros H.
  apply bind_inv in H. destruct H as (l & st1 & Hl & _).
  apply (f_equal fst) in Hl. rewrite with_lang_fst in Hl. cbn [fst] in Hl.
  rewrite (proj1 (lang_single_log_proba_spec _ _ _)) in Hl.
  destruct (decide (Forall (fun c => c ∈ LM.vocabulary_ st.1) (chars query)))
    as [Hall|Hno]; [assumption|].
  rewrite (lang_log_terms_raises _ _ _ _ Hno) in Hl. discriminate.
Qed.

Lemma noisy_channel_ok_vocabulary word freedom max_attempts optimism st res st' :
  noisy_channel word freedom max_attempts optimism st = (Ok res, st') ->
  Forall (fun c => c ∈ LM.vocabulary_ st.1) (chars (snoc_str word space)).
Proof.
  intros H.
  destruct (noisy_channel_result_has_word _ _ _ _ _ _ _ H)
    as (b & st1 & _ & _ & _ & _ & _ & Hb & _).
  eapply baseline_ok_vocabulary. exact Hb.
Qed.

Lemma noisy_channel_leaves word freedom max_attempts optimism st res st' key v :
  noisy_channel word freedom max_attempts optimism st = (Ok res, st') ->
  res !! key = Some v ->
  exists c, path_leaf st word c /\ key = strip_ends (h_prefix c) /\ v = h_proba c.
Proof.
  intros H Hv.
  assert (Hall := noisy_channel_ok_vocabulary _ _ _ _ _ _ _ H).
  set (q := snoc_str word space) in *.
  set (b := (- lang_value st (String space EmptyString) q
             + - missed_value st (String space EmptyString) q)%R).
  set (cache := cache_after st q (seq 0 (String.length q + 1)) ∅).
  destruct (search_loop_paths st word freedom optimism cache max_attempts
              ltac:(unfold cache; rewrite cache_after_lookup by lia;
                    change (take_str 0 q) with EmptyString;
                    rewrite unconditional_cost_empty; reflexivity)
              [Hyp (b * optimism) (String space EmptyString) q
                   (Some EmptyString) (b * optimism)]
              [Hyp b (String space EmptyString ++ q)%string EmptyString None 0]
              b)
    as (heap' & candidates' & best' & Hret & Hleaves).
  - constructor; [|constructor]. split.
    + split; [exact Hall|]. intros n Hn. cbn [h_suffix] in Hn.
      unfold cache. rewrite cache_after_lookup by exact Hn. eauto.
    + exists []. cbn [h_prefix h_suffix h_proba h_proba_suffix extend path_cost].
      split; [constructor|].
      split; [reflexivity|]. split; [unfold q; rewrite chars_snoc; reflexivity|].
      split; [lra|].
      intros He. apply (f_equal chars) in He. unfold q in He.
      rewrite chars_snoc in He. destruct (chars word); discriminate.
  - constructor; [|constructor]. left. cbn [h_prefix h_proba].
    split; [apply strip_ends_padded | reflexivity].
  - destruct (returns_noisy_channel st word freedom max_attempts optimism
                heap' candidates' best' Hall Hret st (store_equiv_refl _))
      as (st2 & E & _).
    rewrite E in H. injection H as <- _.
    apply collect_lookup in Hv. destruct Hv as (c & Hin & -> & -> & _).
    rewrite Forall_forall in Hleaves. exists c. auto.
Qed.

(** X17. A run of [noisy_channel] that returns gives phrases over the vocabulary
    of the language model, each with a score that is the cost of a path of
    the search tree: the sum, over the symbols of the phrase and the closing
    space, of the cost of deleting or of keeping each symbol after the
    symbols before it, where the kept symbols are those of the word and the
    closing space.  The only other score is the one the search starts from,
    which the word itself may keep. *)
Theorem noisy_channel_scores_are_path_costs :
  forall (st : Store) (word : string) (freedom : R) (max_attempts : nat)
         (optimism : R) (res : gmap string R) (st' : Store) (key : string) (v : R),
    noisy_channel word freedom max_attempts optimism st = (Ok res, st') ->
    res !! key = Some v ->
    Forall (fun c => c ∈ LM.vocabulary_ st.1) (chars key) /\
    ((key = word /\
      v = (- lang_value st " " (snoc_str word space)
           + - missed_value st " " (snoc_str word space))%R) \/
     exists al : alignment,
       symbols_of al = chars key ++ [space] /\
       observed_of al = chars word ++ [space] /\
       v = path_cost st " " al).
Proof.
  intros st word freedom max_attempts optimism res st' key v H Hv.
  assert (Hall := noisy_channel_ok_vocabulary _ _ _ _ _ _ _ H).
  destruct (noisy_channel_leaves _ _ _ _ _ _ _ _ _ H Hv)
    as (c & [[Hk Hb] | (al & Hvoc & Hsym & Hobs & Hcost)] & -> & ->).
  - rewrite Hk. rewrite chars_snoc in Hall. apply Forall_app in Hall.
    split; [exact (proj1 Hall)|]. left. split; [reflexivity | exact Hb].
  - split.
    + rewrite Hsym in Hvoc. apply Forall_app in Hvoc. exact (proj1 Hvoc).
    + right. exists al. auto.
Qed.

Lemma noisy_channel_scores_are_path_costs_witness :
  exists res st',
    noisy_channel "" (1/10) 1000 1 tiny_store = (Ok res, st') /\
    res !! "a"%string = Some (- ln (13/20 * (3/4) * (17/20 * (2/3))))%R /\
    Forall (fun c => c ∈ LM.vocabulary_ tiny_store.1) (chars "a") /\
    (("a"%string = ""%string /\
      (- ln (13/20 * (3/4) * (17/20 * (2/3))))%R
      = (- lang_value tiny_store " " (snoc_str "" space)
         + - missed_value tiny_store " " (snoc_str "" space))%R) \/
     exists al : alignment,
       symbols_of al = chars "a" ++ [space] /\
       observed_of al = chars "" ++ [space] /\
       (- ln (13/20 * (3/4) * (17/20 * (2/3))))%R = path_cost tiny_store " " al).
Proof.
  destruct (tiny_noisy_channel (1/10) (4 + 996) _ _ _ (tiny_search_wide 996)
              tiny_store (store_equiv_refl _)) as (st' & E & _).
  eexists _, st'. split; [exact E|].
  split; [exact tiny_wide_phrase|].
  exact (noisy_channel_scores_are_path_costs tiny_store "" (1/10) 1000 1
           _ st' "a" _ E tiny_wide_phrase).
Defined.

(** *** Scores under fitted models *)

(** X18. With models fitted with positive smoothing, and a missing-letter model
    whose [smoothing_missed] is below its [smoothing_total], no score of the
    result is negative: the exponential of its opposite is a probability. *)
Theorem noisy_channel_scores_nonnegative :
  forall (o : nat) (s r : R) (corpus : string)
         (o' : nat) (sm sa : R) (pairs : list (string * string))
         (st : Store) (word : string) (freedom : R) (max_attempts : nat)
         (optimism : R) (res : gmap string R) (st' : Store) (key : string) (v : R),
    (0 < s)%R -> (0 < sm)%R -> (sm < sa)%R ->
    store_equiv (LM.fit o s r corpus, MissingLetterModel.fit o' sm sa pairs) st ->
    noisy_channel word freedom max_attempts optimism st = (Ok res, st') ->
    res !! key = Some v ->
    (0 <= v)%R.
Proof.
  intros o s r corpus o' sm sa pairs st word freedom max_attempts optimism
         res st' key v Hs Hsm Hsa Hst H Hv.
  assert (Hall := noisy_channel_ok_vocabulary _ _ _ _ _ _ _ H).
  destruct (noisy_channel_leaves _ _ _ _ _ _ _ _ _ H Hv) as (c & Hleaf & _ & ->).
  exact (fitted_leaf o s r corpus o' sm sa pairs st Hs Hsm Hsa Hst word c Hall Hleaf).
Qed.

Lemma noisy_channel_scores_nonnegative_witness :
  exists res st',
    noisy_channel "" (1/10) 1000 1 tiny_store = (Ok res, st') /\
    res !! "a"%string = Some (- ln (13/20 * (3/4) * (17/20 * (2/3))))%R /\
    (0 <= - ln (13/20 * (3/4) * (17/20 * (2/3))))%R.
Proof.
  destruct (tiny_noisy_channel (1/10) (4 + 996) _ _ _ (tiny_search_wide 996)
              tiny_store (store_equiv_refl _)) as (st' & E & _).
  eexists _, st'. split; [exact E|].
  split; [exact tiny_wide_phrase|].
  refine (noisy_channel_scores_nonnegative 1 1 0 " a a" 0 (3/10) 1
            [("a "%string, "- "%string)] tiny_store "" (1/10) 1000 1 _ st' "a" _
            _ _ _ (store_equiv_refl _) E tiny_wide_phrase); lra.
Defined.

(** *** When a result is returned *)

(** X19. For models fitted with [smoothing > 0] and
    [0 < smoothing_missed < smoothing_total], [noisy_channel] returns a
    result exactly when every symbol of the word, and the space, belongs to
    the vocabulary of the language model; in every other case it raises
    [KeyError], whatever the other arguments. *)
Theorem noisy_channel_returns_iff_symbols_known :
  forall (o : nat) (s r : R) (corpus : string)
         (o' : nat) (sm sa : R) (pairs : list (string * string))
         (st : Store) (word : string) (freedom : R) (max_attempts : nat)
         (optimism : R),
    (0 < s)%R -> (0 < sm)%R -> (sm < sa)%R ->
    store_equiv (LM.fit o s r corpus, MissingLetterModel.fit o' sm sa pairs) st ->
    ((exists res st',
        noisy_channel word freedom max_attempts optimism st = (Ok res, st'))
     <-> Forall (fun c => c ∈ LM.vocabulary_ st.1) (chars word ++ [space])) /\
    ((noisy_channel word freedom max_attempts optimism st).1 = Raise KeyError
     <-> ~ Forall (fun c => c ∈ LM.vocabulary_ st.1) (chars word ++ [space])).
Proof.
  intros o s r corpus o' sm sa pairs st word freedom max_attempts optimism
         Hs Hsm Hsa Hst.
  assert (Hok : Forall (fun c => c ∈ LM.vocabulary_ st.1) (chars word ++ [space]) ->
                exists res st',
                  noisy_channel word freedom max_attempts optimism st = (Ok res, st')).
  { intros Hall. apply Forall_app in Hall. destruct Hall as [Hw Hsp].
    destruct (noisy_channel_returns st word freedom max_attempts optimism Hw)
      as (res & st' & E & _).
    - inversion Hsp; assumption.
    - exists res, st'. exact E. }
  split; split.
  - intros (res & st' & E). rewrite <- chars_snoc.
    eapply noisy_channel_ok_vocabulary. exact E.
  - exact Hok.
  - intros Hr Hall. destruct (Hok Hall) as (res & st' & E).
    rewrite E in Hr. discriminate.
  - intros Hno. unfold noisy_channel. apply bind_raise_fst.
    unfold baseline. apply bind_raise_fst.
    rewrite with_lang_fst.
    rewrite (proj1 (lang_single_log_proba_spec _ _ _)).
    apply lang_log_terms_raises. rewrite chars_snoc. exact Hno.
Qed.

Lemma noisy_channel_returns_iff_symbols_known_witness :
  (exists res st',
     noisy_channel "brc" 2 1 (1/2) abracadabra_store = (Ok res, st'))
  <-> Forall (fun c => c ∈ LM.vocabulary_ abracadabra_store.1)
        (chars "brc" ++ [space]).
Proof.
  apply (noisy_channel_returns_iff_symbols_known
           1 1 (1/1000) " abracadabra "
           0 (3/10) 1 [("abracadabra"%string, "abr-c-d-br-"%string)]
           abracadabra_store "brc" 2 1 (1/2)).
  - lra.
  - lra.
  - lra.
  - apply store_equiv_refl.
Defined.
